(** * Offline-caching service workers: a shallow embedding

    The repository holds two service-worker scripts:
    - [src/sw.js] (cache name [emergency-system-v1.0.1]), embedded in [Module SW];
    - [src/unnamed/part_000] (cache name [emergency-system-v1.0.0]), embedded in
      [Module Legacy].

    Both are thin orchestration layers over the browser's Cache API, [fetch]
    and the service-worker lifecycle.  [Module Platform] models that host:
    the cache storage is explicit state, promises are computations that
    settle to a value or to an error, and every network request and console
    call is recorded in an event trace.

    Handlers are run to completion one at a time: the interleaving of
    concurrently started promises is linearised in source order, and a
    fire-and-forget promise is run at the point where the source starts it.

    The listeners for [push] and [notificationclick] touch neither the
    cache storage nor the network; they are embedded in
    [Module SWNotifications] and [Module LegacyNotifications] as the calls
    they make on the registration, the notification and the clients.  The
    [beforeunload] listener of [src/sw.js] (lines 339-348) is not embedded:
    the event is not dispatched to a service worker, and the body reads
    [navigator.serviceWorker] and [window], which a worker does not have. *)

From Stdlib Require Import String Ascii ZArith.
From stdpp Require Import base option list gmap strings.

Module Platform.

(** ** Requests, responses, errors *)

(** Header lists carry lower-cased names, as the [Headers] class
    normalises them. *)
Record Request := {
  url : string;
  method : string;
  req_headers : list (string * string)
}.

Record Response := {
  status : Z;
  type : string;
  res_headers : list (string * string);
  body : string
}.

Inductive JsError :=
| TypeError (msg : string)
| SyntaxError (msg : string)
| DOMException (name msg : string).

(** [headers.get(name)]: [None] is JavaScript's [null]. *)
Fixpoint headers_get (name : string) (h : list (string * string)) : option string :=
  match h with
  | [] => None
  | (k, v) :: t => if decide (k = name) then Some v else headers_get name t
  end.

(** [s.startsWith(p)] and [s.includes(sub)]. *)
Definition startsWith (s p : string) : bool := String.prefix p s.

Definition includes (s sub : string) : bool :=
  match String.index 0 sub s with
  | Some _ => true
  | None => false
  end.

(** [response.ok] *)
Definition ok (r : Response) : bool :=
  bool_decide (200 ≤ status r)%Z && bool_decide (status r ≤ 299)%Z.

(** Whether a comma-separated header value has [*] among its members.
    The value is read from left to right; [Member] is what the member
    being read has been so far, blanks apart. *)
Inductive Member := Blank | Star | Other.

Definition is_star (m : Member) : bool :=
  match m with
  | Star => true
  | _ => false
  end.

Definition member_step (m : Member) (c : ascii) : Member :=
  if bool_decide (c = " "%char) || bool_decide (c = ascii_of_nat 9) then m
  else match m with
       | Blank => if bool_decide (c = "*"%char) then Star else Other
       | _ => Other
       end.

Fixpoint lists_star_from (m : Member) (s : string) : bool :=
  match s with
  | EmptyString => is_star m
  | String c t =>
      if bool_decide (c = ","%char)
      then is_star m || lists_star_from Blank t
      else lists_star_from (member_step m c) t
  end.

(** A response whose [Vary] header lists [*]. *)
Definition varies_on_all (r : Response) : bool :=
  match headers_get "vary" (res_headers r) with
  | Some v => lists_star_from Blank v
  | None => false
  end.

(** The responses a cache stores.  [Cache.put], [Cache.add] and
    [Cache.addAll] reject a partial response and a response that varies on
    everything (Cache.put: "if innerResponse's status is 206, return a
    promise rejected with a TypeError", and the same for a [Vary] header
    one of whose field values is [*]). *)
Definition storable (r : Response) : bool :=
  negb (bool_decide (status r = 206%Z)) && negb (varies_on_all r).

(** ** The host environment

    [origin] is [self.location.origin]; [network] is what [fetch] settles
    to for a request; [json_parses] tells whether [JSON.parse] accepts a
    text. *)
Record Env := {
  origin : string;
  network : Request → JsError + Response;
  json_parses : string → bool
}.

(** A relative URL given as a string is resolved against the worker's
    origin; the resulting request is a header-less GET. *)
Definition resolve (env : Env) (u : string) : string :=
  if startsWith u "http" then u else origin env +:+ u.

Definition request_of_url (env : Env) (u : string) : Request :=
  {| url := resolve env u; method := "GET"; req_headers := [] |}.

(** [new Response(text)] for a string body, and [new Response(undefined)]:
    status 200, type [default]; a string body receives a text content
    type, an absent body is empty and has none. *)
Definition new_Response (b : option string) (hs : list (string * string)) : Response :=
  match b with
  | Some text =>
      {| status := 200; type := "default";
         res_headers :=
           match headers_get "content-type" hs with
           | Some _ => hs
           | None => hs ++ [("content-type", "text/plain;charset=UTF-8")]
           end;
         body := text |}
  | None =>
      {| status := 200; type := "default"; res_headers := hs; body := String.EmptyString |}
  end.

(** ** Cache storage

    A cache maps the URL of a GET request to the stored response.  The
    storage lists the named caches in creation order, which is the order
    of [caches.keys()] and the order in which [caches.match] queries them. *)
Abbreviation Cache := (gmap string Response).
Abbreviation CacheStorage := (list (string * gmap string Response)).

Definition names (cs : CacheStorage) : list string := cs.*1.

Definition well_formed (cs : CacheStorage) : Prop := NoDup (names cs).

Fixpoint find_cache (name : string) (cs : CacheStorage) : option Cache :=
  match cs with
  | [] => None
  | (n, c) :: t => if decide (n = name) then Some c else find_cache name t
  end.

Fixpoint update_cache (name : string) (f : Cache → Cache) (cs : CacheStorage)
  : CacheStorage :=
  match cs with
  | [] => []
  | (n, c) :: t =>
      if decide (n = name) then (n, f c) :: t else (n, c) :: update_cache name f t
  end.

Definition open_cache (name : string) (cs : CacheStorage) : CacheStorage :=
  match find_cache name cs with
  | Some _ => cs
  | None => cs ++ [(name, ∅)]
  end.

Definition delete_cache (name : string) (cs : CacheStorage) : CacheStorage :=
  filter (λ nc, nc.1 ≠ name) cs.

(** The entry a named cache holds for a URL. *)
Definition entry (cs : CacheStorage) (name u : string) : option Response :=
  find_cache name cs ≫= λ c, c !! u.

(** The first entry for a URL over all caches, in creation order. *)
Fixpoint match_all (u : string) (cs : CacheStorage) : option Response :=
  match cs with
  | [] => None
  | (_, c) :: t =>
      match c !! u with
      | Some r => Some r
      | None => match_all u t
      end
  end.

(** ** Promises

    A promise is a computation over the cache storage that settles and
    reports the events it caused. *)
Inductive Event :=
| NetFetch (r : Request)
| Console (level msg : string)
| SkipWaiting
| ClientsClaim
| UnhandledRejection (e : JsError).

Inductive Settled (A : Type) :=
| Fulfilled (a : A)
| Rejected (e : JsError).
Arguments Fulfilled {A} a.
Arguments Rejected {A} e.

Definition Async (A : Type) : Type :=
  CacheStorage → Settled A * CacheStorage * list Event.

Definition resolved {A} (a : A) : Async A := λ cs, (Fulfilled a, cs, []).

Definition throw {A} (e : JsError) : Async A := λ cs, (Rejected e, cs, []).

(** [p.then(f)] *)
Definition and_then {A B} (p : Async A) (f : A → Async B) : Async B := λ cs,
  match p cs with
  | (Fulfilled a, cs1, ev1) =>
      let '(r, cs2, ev2) := f a cs1 in (r, cs2, ev1 ++ ev2)
  | (Rejected e, cs1, ev1) => (Rejected e, cs1, ev1)
  end.

(** [p.catch(h)], and [try { p } catch (e) { h e }] in an async function. *)
Definition catch {A} (p : Async A) (h : JsError → Async A) : Async A := λ cs,
  match p cs with
  | (Fulfilled a, cs1, ev1) => (Fulfilled a, cs1, ev1)
  | (Rejected e, cs1, ev1) =>
      let '(r, cs2, ev2) := h e cs1 in (r, cs2, ev1 ++ ev2)
  end.

(** A promise that is started and neither returned nor awaited: its effects
    happen, its value reaches nobody, and a rejection is only reported by
    the host as unhandled. *)
Definition detached {A} (p : Async A) : Async unit := λ cs,
  match p cs with
  | (Fulfilled _, cs1, ev1) => (Fulfilled tt, cs1, ev1)
  | (Rejected e, cs1, ev1) => (Fulfilled tt, cs1, ev1 ++ [UnhandledRejection e])
  end.

(** [Promise.all]: every member runs; the result rejects with the first
    rejection. *)
Fixpoint promise_all {A} (ps : list (Async A)) : Async (list A) := λ cs,
  match ps with
  | [] => (Fulfilled [], cs, [])
  | p :: ps' =>
      let '(r, cs1, ev1) := p cs in
      let '(rs, cs2, ev2) := promise_all ps' cs1 in
      (match r, rs with
       | Fulfilled a, Fulfilled l => Fulfilled (a :: l)
       | Rejected e, _ => Rejected e
       | Fulfilled _, Rejected e => Rejected e
       end, cs2, ev1 ++ ev2)
  end.

#[export] Instance Async_ret : MRet Async := @resolved.
#[export] Instance Async_bind : MBind Async := λ A B f p, and_then p f.

(** [console.log] / [console.warn] / [console.error]: the first argument
    is recorded. *)
Definition console (level msg : string) : Async unit := λ cs,
  (Fulfilled tt, cs, [Console level msg]).

Definition skipWaiting : Async unit := λ cs, (Fulfilled tt, cs, [SkipWaiting]).

Definition clients_claim : Async unit := λ cs, (Fulfilled tt, cs, [ClientsClaim]).

(** ** The Cache API and [fetch] *)

Definition fetch (env : Env) (req : Request) : Async Response := λ cs,
  (match network env req with
   | inl e => Rejected e
   | inr r => Fulfilled r
   end, cs, [NetFetch req]).

(** [caches.open(name)] creates the cache when it is missing; the handle
    is the cache's name. *)
Definition caches_open (name : string) : Async string := λ cs,
  (Fulfilled name, open_cache name cs, []).

Definition caches_keys : Async (list string) := λ cs,
  (Fulfilled (names cs), cs, []).

Definition caches_delete (name : string) : Async bool := λ cs,
  (Fulfilled (bool_decide (name ∈ names cs)), delete_cache name cs, []).

(** [caches.match(request)]: a request whose method is not GET matches
    nothing (Cache.matchAll: "if r's method is not GET and
    options.ignoreMethod is false, return a promise resolved with an empty
    array").  Matching is by URL; [Vary] and URL fragments are not
    modelled. *)
Definition lookup_all (req : Request) (cs : CacheStorage) : option Response :=
  if decide (method req = "GET") then match_all (url req) cs else None.

Definition caches_match (req : Request) : Async (option Response) := λ cs,
  (Fulfilled (lookup_all req cs), cs, []).

(** [cache.match(request)] on an opened cache. *)
Definition cache_match (h : string) (req : Request) : Async (option Response) := λ cs,
  (Fulfilled (if decide (method req = "GET") then entry cs h (url req) else None),
   cs, []).

(** [cache.put(request, response)] rejects with a [TypeError] for a request
    whose method is not GET, and stores nothing then (Cache.put: "if
    innerRequest's url's scheme is not one of http and https, or
    innerRequest's method is not GET, return a promise rejected with a
    TypeError"); all URLs here are http(s) ones.  It then rejects a
    response that is not [storable], and stores nothing either. *)
Definition cache_put (h : string) (req : Request) (resp : Response) : Async unit := λ cs,
  if decide (method req = "GET")
  then if storable resp
       then (Fulfilled tt, update_cache h (λ c, <[url req := resp]> c) cs, [])
       else (Rejected (TypeError "Response is not storable"), cs, [])
  else (Rejected (TypeError "Request method is unsupported"), cs, []).

(** [cache.delete(request)] *)
Definition cache_delete (h : string) (req : Request) : Async bool := λ cs,
  if decide (method req = "GET")
  then (Fulfilled (bool_decide (is_Some (entry cs h (url req)))),
        update_cache h (λ c, delete (url req) c) cs, [])
  else (Fulfilled false, cs, []).

(** The fetch step of [cache.add] / [cache.addAll]: a response that is not
    [ok], or that a cache does not store, is a [TypeError] (Cache.addAll:
    "if response's type is error, or response's status is not an ok status
    or is 206, reject with a TypeError", and the same for a [Vary] header
    that lists [*]). *)
Definition fetch_ok (env : Env) (req : Request) : Async Response :=
  r ← fetch env req;
  if ok r && storable r then resolved r else throw (TypeError "Request failed").

(** [cache.add(url)] *)
Definition cache_add (env : Env) (h : string) (u : string) : Async unit :=
  r ← fetch_ok env (request_of_url env u);
  cache_put h (request_of_url env u) r.

Fixpoint put_all (h : string) (items : list (Request * Response)) : Async unit :=
  match items with
  | [] => resolved tt
  | (q, r) :: t => (cache_put h q r ;; put_all h t)
  end.

(** [cache.addAll(urls)]: all requests are fetched, and nothing is stored
    unless every one of them succeeded.  The puts are one batch, which is
    refused as a whole when two of its requests have the same URL (Batch
    Cache Operations: "if the result of running Query Cache with
    operation's request, operation's options, and addedItems is not empty,
    throw an InvalidStateError DOMException"). *)
Definition cache_addAll (env : Env) (h : string) (us : list string) : Async unit :=
  rs ← promise_all (map (λ u, fetch_ok env (request_of_url env u)) us);
  if bool_decide (NoDup (map (resolve env) us))
  then put_all h (zip (map (request_of_url env) us) rs)
  else throw (DOMException "InvalidStateError" "duplicate requests").

(** [response.json()] *)
Definition response_json (env : Env) (r : Response) : Async string :=
  if json_parses env (body r) then resolved (body r)
  else throw (SyntaxError "Unexpected end of JSON input").

End Platform.

(** * [src/sw.js] *)
Module SW.
Import Platform.

Definition CACHE_NAME : string := "emergency-system-v1.0.1".
Definition OFFLINE_URL : string := "/offline.html".

(** Critical files to cache immediately for offline functionality. *)
Definition STATIC_CACHE_URLS : list string :=
  ["/"; "/index.html"; "/offline.html"; "/manifest.json"].

(** The reserved keys of the sync queue. *)
Definition EMERGENCY_DATA_URL : string := "/emergency-data.json".
Definition STUDENT_SCANS_URL : string := "/student-scans.json".

Definition dquote : string := String (ascii_of_nat 34) EmptyString.

(** The markup of the page that the fetch handler builds inline when
    [OFFLINE_URL] is not cached. *)
Definition OFFLINE_PAGE : string :=
  "
                  <!DOCTYPE html>
                  <html lang=" +:+ dquote +:+
  "en" +:+ dquote +:+
  ">
                  <head>
                    <meta charset=" +:+ dquote +:+
  "UTF-8" +:+ dquote +:+
  ">
                    <meta name=" +:+ dquote +:+
  "viewport" +:+ dquote +:+
  " content=" +:+ dquote +:+
  "width=device-width, initial-scale=1.0" +:+ dquote +:+
  ">
                    <title>Offline - Emergency System</title>
                    <style>
                      body {
                        font-family: -apple-system, BlinkMacSystemFont, 'Segoe UI', Roboto, sans-serif;
                        background: linear-gradient(135deg, #667eea 0%, #764ba2 100%);
                        min-height: 100vh;
                        display: flex;
                        align-items: center;
                        justify-content: center;
                        margin: 0;
                        color: #333;
                      }
                      .offline-container {
                        background: rgba(255, 255, 255, 0.95);
                        padding: 40px;
                        border-radius: 20px;
                        text-align: center;
                        max-width: 400px;
                        box-shadow: 0 20px 40px rgba(0, 0, 0, 0.1);
                      }
                      .offline-icon { font-size: 64px; margin-bottom: 20px; }
                      h1 { color: #dc2626; margin-bottom: 20px; }
                      .btn {
                        background: #3b82f6;
                        color: white;
                        border: none;
                        padding: 12px 24px;
                        border-radius: 8px;
                        cursor: pointer;
                        font-size: 16px;
                        margin: 10px;
                        text-decoration: none;
                        display: inline-block;
                      }
                    </style>
                  </head>
                  <body>
                    <div class=" +:+ dquote +:+
  "offline-container" +:+ dquote +:+
  ">
                      <div class=" +:+ dquote +:+
  "offline-icon" +:+ dquote +:+
  ">📱</div>
                      <h1>You're Offline</h1>
                      <p>The Emergency System is working offline. All features are available.</p>
                      <button class=" +:+ dquote +:+
  "btn" +:+ dquote +:+
  " onclick=" +:+ dquote +:+
  "window.history.back()" +:+ dquote +:+
  ">Go Back</button>
                      <button class=" +:+ dquote +:+
  "btn" +:+ dquote +:+
  " onclick=" +:+ dquote +:+
  "location.reload()" +:+ dquote +:+
  ">Retry Connection</button>
                    </div>
                  </body>
                  </html>
                ".

Definition offline_response : Response :=
  new_Response (Some OFFLINE_PAGE)
    [("content-type", "text/html"); ("cache-control", "no-cache")].

(** ** Install: cache critical resources (lines 13-39)

    [add_or_warn] is the callback mapped over the asset list, [install] is
    the promise given to [waitUntil] for an arbitrary asset list, and
    [onInstall] is the listener with the list of the script. *)
Definition add_or_warn (env : Env) (cache : string) (u : string) : Async unit :=
  catch (cache_add env cache u)
        (λ err, console "warn" ("[SW] Failed to cache " +:+ u +:+ ":");;
                (* Don't fail the entire installation for one file *)
                resolved tt).

Definition install (env : Env) (urls : list string) : Async unit :=
  console "log" "[SW] Installing Service Worker...";;
  catch
    (cache ← caches_open CACHE_NAME;
     console "log" "[SW] Caching critical files";;
     _ ← promise_all (map (add_or_warn env cache) urls);
     console "log" "[SW] Installation complete, taking control immediately";;
     skipWaiting)
    (λ error, console "error" "[SW] Installation failed:").

Definition onInstall (env : Env) : Async unit := install env STATIC_CACHE_URLS.

(** ** Activate: clean up old caches (lines 42-64)

    [delete_if_old] is the callback mapped over [caches.keys()]; for the
    current name it returns [undefined]. *)
Definition delete_if_old (cacheName : string) : Async unit :=
  if decide (cacheName ≠ CACHE_NAME)
  then console "log" "[SW] Deleting old cache:";;
       _ ← caches_delete cacheName; resolved tt
  else resolved tt.

Definition onActivate : Async unit :=
  console "log" "[SW] Activating Service Worker...";;
  _ ← promise_all
        [ (cacheNames ← caches_keys;
           _ ← promise_all (map delete_if_old cacheNames); resolved tt);
          clients_claim ];
  console "log" "[SW] Service Worker activated and ready".

(** ** Fetch: cache first, then network (lines 67-191)

    [onFetch] is the listener.  [None]: it returns without [respondWith]
    and the request passes through.  [Some p]: the request is intercepted
    and answered by [p], whose value [None] is JavaScript's [undefined].
    [respond] is the promise given to [respondWith]; [store_response] is
    the statement that caches a valid network response (lines 99-110) and
    [offline_fallback] the [catch] callback (lines 114-188).  A response
    object is never falsy, so the [!networkResponse] test has no case. *)
Definition accepts_html (req : Request) : bool :=
  match headers_get "accept" (req_headers req) with
  | Some a => includes a "text/html"
  | None => false
  end.

Definition store_response (req : Request) (responseToCache : Response) : Async unit :=
  detached
    (catch
       (cache ← caches_open CACHE_NAME;
        (* Only cache GET requests *)
        if decide (method req = "GET")
        then detached (cache_put cache req responseToCache)
        else resolved tt)
       (λ err, console "warn" "[SW] Failed to cache response:")).

Definition offline_fallback (env : Env) (req : Request) (error : JsError)
  : Async (option Response) :=
  console "log" "[SW] Network fetch failed:";;
  if accepts_html req
  then offlineResponse ← caches_match (request_of_url env OFFLINE_URL);
       match offlineResponse with
       | Some r => resolved (Some r)
       | None => resolved (Some offline_response)
       end
  else throw error.

Definition respond (env : Env) (req : Request) : Async (option Response) :=
  cachedResponse ← caches_match req;
  match cachedResponse with
  | Some r =>
      console "log" "[SW] Serving from cache:";;
      resolved (Some r)
  | None =>
      console "log" "[SW] Fetching from network:";;
      catch
        (networkResponse ← fetch env req;
         if bool_decide (status networkResponse ≠ 200%Z)
            || bool_decide (type networkResponse ≠ "basic")
         then resolved (Some networkResponse)
         else store_response req networkResponse;;
              resolved (Some networkResponse))
        (offline_fallback env req)
  end.

Definition onFetch (env : Env) (req : Request) : option (Async (option Response)) :=
  if negb (startsWith (url req) "http") then None
  else if negb (startsWith (url req) (origin env)) then None
  else Some (respond env req).

(** ** Sync functions (lines 278-322) *)
Definition syncEmergencyData (env : Env) : Async unit :=
  catch
    (cache ← caches_open CACHE_NAME;
     cachedData ← cache_match cache (request_of_url env EMERGENCY_DATA_URL);
     match cachedData with
     | Some r =>
         data ← response_json env r;
         console "log" "[SW] Syncing emergency data:";;
         _ ← cache_delete cache (request_of_url env EMERGENCY_DATA_URL);
         console "log" "[SW] Emergency data synced successfully"
     | None => resolved tt
     end)
    (λ error, console "error" "[SW] Emergency data sync failed:";; throw error).

Definition syncStudentScans (env : Env) : Async unit :=
  catch
    (cache ← caches_open CACHE_NAME;
     cachedData ← cache_match cache (request_of_url env STUDENT_SCANS_URL);
     match cachedData with
     | Some r =>
         scans ← response_json env r;
         console "log" "[SW] Syncing student scans:";;
         _ ← cache_delete cache (request_of_url env STUDENT_SCANS_URL);
         console "log" "[SW] Student scans synced successfully"
     | None => resolved tt
     end)
    (λ error, console "error" "[SW] Student scans sync failed:";; throw error).

(** ** Background sync and periodic sync (lines 194-202 and 325-336)

    The result is the promise handed to [waitUntil]; a listener that does
    not call [waitUntil] completes at once. *)
Definition onSync (env : Env) (tag : string) : Async unit :=
  console "log" "[SW] Background sync triggered:";;
  if decide (tag = "emergency-data-sync") then syncEmergencyData env
  else if decide (tag = "student-scans-sync") then syncStudentScans env
  else resolved tt.

Definition onPeriodicSync (env : Env) (tag : string) : Async unit :=
  console "log" "[SW] Periodic sync triggered:";;
  if decide (tag = "emergency-system-sync")
  then _ ← promise_all [syncEmergencyData env; syncStudentScans env]; resolved tt
  else resolved tt.

(** ** Messages from the main app (lines 263-275)

    [msg_payload] is the outcome of [JSON.stringify(event.data.payload)]:
    an exception, [undefined] ([inr None]) or the JSON text.  A message
    whose data is falsy is [None]. *)
Record Message := {
  msg_type : string;
  msg_payload : JsError + option string
}.

Definition onMessage (env : Env) (data : option Message) : Async unit :=
  console "log" "[SW] Message received:";;
  match data with
  | Some d =>
      if decide (msg_type d = "CACHE_EMERGENCY_DATA")
      then detached
             (cache ← caches_open CACHE_NAME;
              match msg_payload d with
              | inl e => throw e
              | inr text =>
                  detached (cache_put cache (request_of_url env EMERGENCY_DATA_URL)
                                      (new_Response text []))
              end)
      else if decide (msg_type d = "SKIP_WAITING") then skipWaiting
      else resolved tt
  | None => resolved tt
  end.

End SW.

(** * [src/unnamed/part_000] *)
Module Legacy.
Import Platform.

Definition CACHE_NAME : string := "emergency-system-v1.0.0".
Definition OFFLINE_URL : string := "/assets/offline.html".

(** Files to cache for offline use. *)
Definition urlsToCache : list string :=
  ["/"; "/index.html"; "/manifest.json"; "/assets/offline.html";
   "/icons/icon-192.png"; "/icons/icon-512.png"; "/icons/icon-maskable.png"].

Definition QUEUED_DATA_URL : string := "/queued-data".

(** ** Install (lines 17-30) *)
Definition install (env : Env) (urls : list string) : Async unit :=
  console "log" "[SW] Installing...";;
  cache ← caches_open CACHE_NAME;
  console "log" "[SW] Caching files";;
  cache_addAll env cache urls;;
  console "log" "[SW] All files cached";;
  skipWaiting.

Definition onInstall (env : Env) : Async unit := install env urlsToCache.

(** ** Activate (lines 33-50) *)
Definition delete_if_old (cacheName : string) : Async unit :=
  if decide (cacheName ≠ CACHE_NAME)
  then console "log" "[SW] Deleting old cache:";;
       _ ← caches_delete cacheName; resolved tt
  else resolved tt.

Definition onActivate : Async unit :=
  console "log" "[SW] Activating...";;
  cacheNames ← caches_keys;
  _ ← promise_all (map delete_if_old cacheNames);
  console "log" "[SW] Activated";;
  clients_claim.

(** ** Fetch (lines 53-96)

    [store_response] hands every valid network response to [cache.put],
    whatever the request method. *)
Definition store_response (req : Request) (responseToCache : Response) : Async unit :=
  detached
    (cache ← caches_open CACHE_NAME;
     detached (cache_put cache req responseToCache)).

(** [headers.get('accept')] is dereferenced without a guard: [null] makes
    the [catch] callback throw. *)
Definition offline_fallback (env : Env) (req : Request) : Async (option Response) :=
  match headers_get "accept" (req_headers req) with
  | None => throw (TypeError "Cannot read properties of null (reading 'includes')")
  | Some a =>
      if includes a "text/html"
      then caches_match (request_of_url env OFFLINE_URL)
      else resolved None
  end.

Definition respond (env : Env) (req : Request) : Async (option Response) :=
  cachedResponse ← caches_match req;
  match cachedResponse with
  | Some r =>
      console "log" "[SW] Serving from cache:";;
      resolved (Some r)
  | None =>
      console "log" "[SW] Fetching from network:";;
      catch
        (response ← fetch env req;
         if bool_decide (status response ≠ 200%Z)
            || bool_decide (type response ≠ "basic")
         then resolved (Some response)
         else store_response req response;;
              resolved (Some response))
        (λ _, offline_fallback env req)
  end.

Definition onFetch (env : Env) (req : Request) : option (Async (option Response)) :=
  if negb (startsWith (url req) (origin env)) then None
  else Some (respond env req).

(** ** Sync (lines 99-104 and 149-165)

    The [catch] block of [syncQueuedData] logs the error and does not
    rethrow it. *)
Definition syncQueuedData (env : Env) : Async unit :=
  catch
    (cache ← caches_open CACHE_NAME;
     queuedData ← cache_match cache (request_of_url env QUEUED_DATA_URL);
     match queuedData with
     | Some r =>
         data ← response_json env r;
         console "log" "[SW] Syncing queued data:";;
         _ ← cache_delete cache (request_of_url env QUEUED_DATA_URL);
         resolved tt
     | None => resolved tt
     end)
    (λ error, console "error" "[SW] Sync failed:").

Definition onSync (env : Env) (tag : string) : Async unit :=
  if decide (tag = "background-sync")
  then console "log" "[SW] Background sync triggered";;
       syncQueuedData env
  else resolved tt.

End Legacy.

(** * Concrete hosts and stores used to exercise the handlers *)
Module Demo.
Import Platform.

Definition page (ctype text : string) : Response :=
  {| status := 200; type := "basic";
     res_headers := [("content-type", ctype)]; body := text |}.

Definition not_found : Response :=
  {| status := 404; type := "basic";
     res_headers := [("content-type", "text/plain")]; body := "Not Found" |}.

Definition get (u : string) (hs : list (string * string)) : Request :=
  {| url := u; method := "GET"; req_headers := hs |}.

Definition failed_to_fetch : JsError := TypeError "Failed to fetch".

(** Agrees with [JSON.parse] on the texts used below: the listed JSON
    texts parse, the empty text and markup do not. *)
Definition parses_json (s : string) : bool :=
  bool_decide (s ∈ ["{}"; "[]"; "[1]"; "[1,2]"; "null"; "true"; "1"]).

Definition app : string := "https://app.example".

(** A host on which the application shell and the manifest are reachable
    and the remaining static assets are not; [/queued-data] is answered
    with the shell's markup, [/api/report] with JSON and [/missing] with
    a 404. *)
Definition env : Env :=
  {| origin := app;
     network := λ req,
       if decide (url req = app +:+ "/") then inr (page "text/html" "<html>")
       else if decide (url req = app +:+ "/index.html")
            then inr (page "text/html" "<html>")
       else if decide (url req = app +:+ "/manifest.json")
            then inr (page "application/json" "{}")
       else if decide (url req = app +:+ "/queued-data")
            then inr (page "text/html" "<html>")
       else if decide (url req = app +:+ "/api/report")
            then inr (page "application/json" "{}")
       else if decide (url req = app +:+ "/missing") then inr not_found
       else inl failed_to_fetch;
     json_parses := parses_json |}.

(** A host on which a single static asset is unreachable. *)
Definition one_down_env : Env :=
  {| origin := app;
     network := λ req,
       if decide (url req = app +:+ "/icons/icon-maskable.png")
       then inl failed_to_fetch
       else inr (page "text/html" "<html>");
     json_parses := parses_json |}.

(** A host that is entirely offline. *)
Definition offline_env : Env :=
  {| origin := app;
     network := λ _, inl failed_to_fetch;
     json_parses := parses_json |}.

Definition html_request : Request :=
  get (app +:+ "/index.html") [("accept", "text/html,application/xhtml+xml")].

Definition api_request : Request :=
  get (app +:+ "/api/status") [("accept", "application/json")].

Definition bare_request : Request := get (app +:+ "/api/status") [].

Definition missing_request : Request :=
  get (app +:+ "/missing") [("accept", "*/*")].

Definition post_request : Request :=
  {| url := app +:+ "/api/report"; method := "POST";
     req_headers := [("accept", "application/json")] |}.

Definition queued_request : Request :=
  get (app +:+ "/queued-data") [("accept", "text/html")].

(** A storage whose current cache holds a pending item under both
    reserved keys of [src/sw.js]. *)
Definition pending_store : CacheStorage :=
  [(SW.CACHE_NAME,
    {[ app +:+ "/emergency-data.json" := new_Response (Some "[1]") [];
       app +:+ "/student-scans.json" := new_Response (Some "[1,2]") [] ]})].

(** A storage holding both workers' caches and a third one. *)
Definition versions_store : CacheStorage :=
  [(Legacy.CACHE_NAME, {[ app +:+ "/" := page "text/html" "<html>" ]});
   (SW.CACHE_NAME, {[ app +:+ "/index.html" := page "text/html" "<html>" ]});
   ("scratch", ∅)].

(** A storage whose current cache holds the shell. *)
Definition shell_store (name : string) : CacheStorage :=
  [(name, {[ app +:+ "/index.html" := page "text/html" "<html>" ]})].

End Demo.

(** * Notions used in the statements *)
Module Notions.
Import Platform.

(** The outcome of a promise, its final storage and its events. *)
Definition outcome {A} (x : Settled A * CacheStorage * list Event) : Settled A := x.1.1.
Definition storage {A} (x : Settled A * CacheStorage * list Event) : CacheStorage := x.1.2.
Definition events {A} (x : Settled A * CacheStorage * list Event) : list Event := x.2.

(** No entry of any cache differs between two storages. *)
Definition same_entries (cs cs' : CacheStorage) : Prop :=
  ∀ name u, entry cs' name u = entry cs name u.

(** What either interceptor logs and requests on the way to the network. *)
Definition miss_events (req : Request) : list Event :=
  [Console "log" "[SW] Fetching from network:"; NetFetch req].

(** A response whose content type is HTML. *)
Definition html_typed (r : Response) : bool :=
  match headers_get "content-type" (res_headers r) with
  | Some t => includes t "text/html"
  | None => false
  end.


(** The triggers of the sync queue of [src/sw.js], and their listeners. *)
Inductive Trigger :=
| Sync (tag : string)
| PeriodicSync (tag : string).

Definition handle (env : Env) (t : Trigger) : Async unit :=
  match t with
  | Sync tag => SW.onSync env tag
  | PeriodicSync tag => SW.onPeriodicSync env tag
  end.

Definition emergency_key (env : Env) : string := resolve env SW.EMERGENCY_DATA_URL.
Definition scans_key (env : Env) : string := resolve env SW.STUDENT_SCANS_URL.
Definition queued_key (env : Env) : string := resolve env Legacy.QUEUED_DATA_URL.


(** The reserved key a [sync] tag stands for, read off the listener's
    chain of comparisons. *)
Definition key_of_tag (env : Env) (tag : string) : option string :=
  if decide (tag = "emergency-data-sync") then Some (emergency_key env)
  else if decide (tag = "student-scans-sync") then Some (scans_key env)
  else None.


(** The message by which the application queues emergency data. *)
Definition cache_emergency_data (text : option string) : SW.Message :=
  {| SW.msg_type := "CACHE_EMERGENCY_DATA"; SW.msg_payload := inr text |}.

(** The response of an asset that [cache.add] accepts: the network
    answered, the answer is [ok], and a cache stores it. *)
Definition fetched (env : Env) (u : string) : option Response :=
  match network env (request_of_url env u) with
  | inr r => if ok r && storable r then Some r else None
  | inl _ => None
  end.

(** The effect of one guarded [cache.add] of the install listener of
    [src/sw.js] on the storage, and the events it causes. *)
Definition add_store (env : Env) (cache : string) (cs : CacheStorage) (u : string)
  : CacheStorage :=
  match fetched env u with
  | Some r => update_cache cache (λ c, <[resolve env u := r]> c) cs
  | None => cs
  end.

Definition add_events (env : Env) (u : string) : list Event :=
  NetFetch (request_of_url env u) ::
  match fetched env u with
  | Some _ => []
  | None => [Console "warn" ("[SW] Failed to cache " +:+ u +:+ ":")]
  end.

(** The effect of the activate listeners' sweep over the cache names. *)
Definition sweep (current : string) (cs : CacheStorage) (cacheName : string)
  : CacheStorage :=
  if decide (cacheName ≠ current) then delete_cache cacheName cs else cs.

(** The names of the storage after [caches.open(n)]. *)
Definition open_names (n : string) (l : list string) : list string :=
  if decide (n ∈ l) then l else l ++ [n].

(** A promise keeps a property of the version set (the names of the
    caches) whatever it settles to. *)
Definition preserves {A} (P : list string → Prop) (m : Async A) : Prop :=
  ∀ cs, P (names cs) → P (names (storage (m cs))).

(** The events the host dispatches to the worker of [src/sw.js], and the
    storage after the listener's promise has settled; a request that is
    not intercepted leaves the storage alone. *)
Inductive Dispatch :=
| InstallEvent
| ActivateEvent
| FetchEvent (req : Request)
| SyncEvent (tag : string)
| PeriodicSyncEvent (tag : string)
| MessageEvent (data : option SW.Message).

Definition SW_dispatch (env : Env) (cs : CacheStorage) (d : Dispatch) : CacheStorage :=
  match d with
  | InstallEvent => storage (SW.onInstall env cs)
  | ActivateEvent => storage (SW.onActivate cs)
  | FetchEvent req =>
      match SW.onFetch env req with
      | Some p => storage (p cs)
      | None => cs
      end
  | SyncEvent tag => storage (SW.onSync env tag cs)
  | PeriodicSyncEvent tag => storage (SW.onPeriodicSync env tag cs)
  | MessageEvent data => storage (SW.onMessage env data cs)
  end.

Definition SW_run (env : Env) (ds : list Dispatch) (cs : CacheStorage) : CacheStorage :=
  foldl (SW_dispatch env) cs ds.

(** The lifecycle state the host moves a worker to when the promise given
    to [waitUntil] by the install listener settles. *)
Inductive Lifecycle := Installing | Installed | Activating | Active | Redundant.

Definition after_install {A} (r : Settled A) : Lifecycle :=
  match r with
  | Fulfilled _ => Installed
  | Rejected _ => Redundant
  end.

End Notions.

(** * Notifications: the [push] and [notificationclick] listeners

    These listeners use neither the cache storage nor the network.  They
    are embedded as the trace of calls they make on the host: the
    registration ([showNotification]), the notification ([close]) and the
    clients ([matchAll], [focus], [openWindow]), which are taken to
    succeed. *)
Module Notifications.
Import Platform.

Record NotificationAction := {
  action : string;
  title : string;
  action_icon : option string
}.

Record NotificationData := {
  data_url : string;
  timestamp : Z
}.

Record NotificationOptions := {
  body : string;
  icon : string;
  badge : string;
  vibrate : list Z;
  tag : string;
  requireInteraction : bool;
  data : option NotificationData;
  actions : list NotificationAction
}.

(** A client as [clients.matchAll] lists it; [has_focus] is
    ['focus' in client]. *)
Record Client := {
  client_url : string;
  has_focus : bool
}.

(** The host of a listener: [self.location.origin], the clients that
    [clients.matchAll({type: 'window', includeUncontrolled: true})] lists,
    whether [clients.openWindow] is defined, and [Date.now()]. *)
Record Host := {
  location_origin : string;
  window_clients : list Client;
  openWindow_defined : bool;
  Date_now : Z
}.

Inductive Call :=
| ConsoleLog (msg : string)
| ShowNotification (heading : string) (options : NotificationOptions)
| NotificationClose
| ClientFocus (c : Client)
| OpenWindow (target : string)
| Uncaught (e : JsError).

End Notifications.

(** ** [src/sw.js], lines 205-260 *)
Module SWNotifications.
Import Platform Notifications.

Definition alert_title : string := "🚨 Emergency Alert".

Definition onPush (host : Host) (event_data : option string) : list Call :=
  let options :=
    {| body := match event_data with
               | Some text => text
               | None => "Emergency notification received"
               end;
       icon := "/icons/icon-192.png";
       badge := "/icons/icon-192.png";
       vibrate := [300; 100; 300; 100; 300]%Z;
       tag := "emergency-alert";
       requireInteraction := true;
       data := Some {| data_url := "/?emergency=true"; timestamp := Date_now host |};
       actions :=
         [ {| action := "view"; title := "Open App";
              action_icon := Some "/icons/icon-192.png" |};
           {| action := "dismiss"; title := "Dismiss"; action_icon := None |} ] |} in
  [ConsoleLog "[SW] Push notification received";
   ShowNotification alert_title options].

(** The loop over the client list: the first client of the app that can
    be focused. *)
Fixpoint find_client (origin : string) (clientList : list Client) : option Client :=
  match clientList with
  | [] => None
  | client :: rest =>
      if includes (client_url client) origin && has_focus client
      then Some client
      else find_client origin rest
  end.

(** [event.action] is the empty string for a click on the notification
    itself. *)
Definition onNotificationClick (host : Host) (event_action : string) : list Call :=
  ConsoleLog "[SW] Notification clicked:" ::
  NotificationClose ::
  (if bool_decide (event_action = "view") || bool_decide (event_action = String.EmptyString)
   then match find_client (location_origin host) (window_clients host) with
        | Some client => [ClientFocus client]
        | None =>
            (* Open new window if app is not open *)
            if openWindow_defined host then [OpenWindow "/?emergency=true"] else []
        end
   else []).

End SWNotifications.

(** ** [src/unnamed/part_000], lines 107-146 *)
Module LegacyNotifications.
Import Platform Notifications.

Definition alert_title : string := "🚨 Emergency Alert".

Definition onPush (host : Host) (event_data : option string) : list Call :=
  let options :=
    {| body := match event_data with
               | Some text => text
               | None => "Emergency alert received"
               end;
       icon := "/icons/icon-192.png";
       badge := "/icons/icon-192.png";
       vibrate := [200; 100; 200; 100; 200; 100; 200]%Z;
       tag := "emergency-notification";
       requireInteraction := true;
       data := None;
       actions :=
         [ {| action := "view"; title := "View Details";
              action_icon := Some "/icons/icon-192.png" |};
           {| action := "dismiss"; title := "Dismiss";
              action_icon := Some "/icons/icon-192.png" |} ] |} in
  [ConsoleLog "[SW] Push message received";
   ShowNotification alert_title options].

(** [clients.openWindow] is called without a test: where it is not
    defined the call throws. *)
Definition onNotificationClick (host : Host) (event_action : string) : list Call :=
  ConsoleLog "[SW] Notification clicked" ::
  NotificationClose ::
  (if bool_decide (event_action = "view")
   then if openWindow_defined host
        then [OpenWindow "/?emergency=true"]
        else [Uncaught (TypeError "clients.openWindow is not a function")]
   else []).

End LegacyNotifications.

(** * Further notions used in the statements *)
Module Coverage.
Import Platform Notions.

(** The network requests among the events of a promise, in order. *)
Definition net_requests (evs : list Event) : list Request :=
  omap (λ e, match e with NetFetch r => Some r | _ => None end) evs.

(** A promise that issues no network request, whatever the storage. *)
Definition silent {A} (m : Async A) : Prop :=
  ∀ cs, net_requests (events (m cs)) = [].

(** The storage after a trigger has run a flush [n] times. *)
Fixpoint retried (flush : Async unit) (n : nat) (cs : CacheStorage) : CacheStorage :=
  match n with
  | O => cs
  | S k => retried flush k (storage (flush cs))
  end.

(** The storage after the worker of [src/sw.js] has been installed with
    an asset list and activated. *)
Definition SW_installed (env : Env) (urls : list string) (cs : CacheStorage)
  : CacheStorage :=
  storage (SW.onActivate (storage (SW.install env urls cs))).

Definition Legacy_installed (env : Env) (urls : list string) (cs : CacheStorage)
  : CacheStorage :=
  storage (Legacy.onActivate (storage (Legacy.install env urls cs))).

(** How often the events claim the clients, and how many deletions of an
    old cache they log. *)
Definition claims (evs : list Event) : nat :=
  length (omap (λ e, match e with ClientsClaim => Some tt | _ => None end) evs).

Definition deletions_logged (evs : list Event) : nat :=
  length (omap (λ e, match e with
                     | Console _ msg =>
                         if decide (msg = "[SW] Deleting old cache:") then Some tt else None
                     | _ => None
                     end) evs).

(** The events the host dispatches to the worker of
    [src/unnamed/part_000], and the storage after the listener's promise
    has settled. *)
Inductive LegacyDispatch :=
| LegacyInstall
| LegacyActivate
| LegacyFetch (req : Request)
| LegacySync (tag : string).

Definition Legacy_dispatch (env : Env) (cs : CacheStorage) (d : LegacyDispatch)
  : CacheStorage :=
  match d with
  | LegacyInstall => storage (Legacy.onInstall env cs)
  | LegacyActivate => storage (Legacy.onActivate cs)
  | LegacyFetch req =>
      match Legacy.onFetch env req with
      | Some p => storage (p cs)
      | None => cs
      end
  | LegacySync tag => storage (Legacy.onSync env tag cs)
  end.

Definition Legacy_run (env : Env) (ds : list LegacyDispatch) (cs : CacheStorage)
  : CacheStorage :=
  foldl (Legacy_dispatch env) cs ds.



(** Whether the loop of the click listener of [src/sw.js] stops at a
    client. *)
Definition fits (host : Notifications.Host) (c : Notifications.Client) : bool :=
  includes (Notifications.client_url c) (Notifications.location_origin host)
  && Notifications.has_focus c.

(** Hosts and clients used to exercise the notification listeners. *)
Definition app_client : Notifications.Client :=
  {| Notifications.client_url := "https://app.example/dashboard";
     Notifications.has_focus := true |}.

Definition other_client : Notifications.Client :=
  {| Notifications.client_url := "https://docs.example/";
     Notifications.has_focus := true |}.

Definition host_with (cl : list Notifications.Client) (can_open : bool)
  : Notifications.Host :=
  {| Notifications.location_origin := "https://app.example";
     Notifications.window_clients := cl;
     Notifications.openWindow_defined := can_open;
     Notifications.Date_now := 1700000000000 |}.

(** A host on which every asset is reachable and served as markup. *)
Definition online_env : Env :=
  {| origin := Demo.app;
     network := λ _, inr (Demo.page "text/html" "<html>");
     json_parses := Demo.parses_json |}.

(** A 200 basic answer that varies on everything, a partial answer, and
    hosts that serve them for every request. *)
Definition varying_page : Response :=
  {| status := 200; type := "basic";
     res_headers := [("content-type", "text/html"); ("vary", "accept-encoding, *")];
     body := "<html>" |}.

Definition partial_page : Response :=
  {| status := 206; type := "basic";
     res_headers := [("content-type", "text/html")]; body := "<ht" |}.

Definition varying_env : Env :=
  {| origin := Demo.app;
     network := λ _, inr varying_page;
     json_parses := Demo.parses_json |}.

Definition partial_env : Env :=
  {| origin := Demo.app;
     network := λ _, inr partial_page;
     json_parses := Demo.parses_json |}.

(** A storage whose current cache holds an emergency item that does not
    parse and student scans that do. *)
Definition poisoned_store : CacheStorage :=
  [(SW.CACHE_NAME,
    {[ Demo.app +:+ "/emergency-data.json" := new_Response None [];
       Demo.app +:+ "/student-scans.json" := new_Response (Some "[1,2]") [] ]})].

End Coverage.

(** * Properties *)
Import Platform Notions Coverage.

(** ** Unfolding promises *)
Ltac run :=
  cbv [mbind Async_bind mret Async_ret and_then catch detached resolved throw
       console skipWaiting clients_claim fetch caches_open caches_keys
       caches_delete caches_match cache_match cache_put cache_delete
       response_json fetch_ok cache_add].

Section FetchHit.
Variables (env : Env) (req : Request) (cs : CacheStorage) (r : Response).
Hypothesis Hhit : lookup_all req cs = Some r.

Lemma SW_respond_hit :
  SW.respond env req cs =
    (Fulfilled (Some r), cs, [Console "log" "[SW] Serving from cache:"]).
Proof. unfold SW.respond. run. rewrite Hhit. reflexivity. Qed.

Lemma Legacy_respond_hit :
  Legacy.respond env req cs =
    (Fulfilled (Some r), cs, [Console "log" "[SW] Serving from cache:"]).
Proof. unfold Legacy.respond. run. rewrite Hhit. reflexivity. Qed.
End FetchHit.

Lemma SW_onFetch_Some env req p : SW.onFetch env req = Some p → p = SW.respond env req.
Proof.
  unfold SW.onFetch. repeat case_match; congruence.
Qed.

Lemma Legacy_onFetch_Some env req p :
  Legacy.onFetch env req = Some p → p = Legacy.respond env req.
Proof.
  unfold Legacy.onFetch. repeat case_match; congruence.
Qed.

(** An intercepted request is same-origin. *)
Lemma intercepted_same_origin env req p :
  SW.onFetch env req = Some p ∨ Legacy.onFetch env req = Some p →
  startsWith (url req) (origin env) = true.
Proof.
  unfold SW.onFetch, Legacy.onFetch.
  intros [H|H]; repeat case_match; try congruence;
    match goal with h : negb _ = false |- _ => apply negb_false_iff in h end;
    assumption.
Qed.

(** C1. For every intercepted (hence same-origin) GET request whose URL is
    present in the cache storage, the fetch interceptor of either worker
    fulfils with the cached entry and issues no network request. *)
Theorem C1_cache_hit_served_without_network
    (env : Env) (req : Request) (p : Async (option Response))
    (cs : CacheStorage) (r : Response) :
  SW.onFetch env req = Some p ∨ Legacy.onFetch env req = Some p →
  method req = "GET" →
  match_all (url req) cs = Some r →
  ∃ ev, p cs = (Fulfilled (Some r), cs, ev) ∧ ∀ q, NetFetch q ∉ ev.
Proof.
  intros Hp Hget Hm.
  assert (Hhit : lookup_all req cs = Some r).
  { unfold lookup_all. rewrite decide_True by assumption. exact Hm. }
  exists [Console "log" "[SW] Serving from cache:"]. split.
  - destruct Hp as [Hp|Hp].
    + rewrite (SW_onFetch_Some _ _ _ Hp). by apply SW_respond_hit.
    + rewrite (Legacy_onFetch_Some _ _ _ Hp). by apply Legacy_respond_hit.
  - intros q Hq. apply list_elem_of_singleton in Hq. discriminate.
Qed.

(** ** The paths of the fetch interceptors after a cache miss *)
Section FetchMiss.
Variables (env : Env) (req : Request) (cs : CacheStorage).
Hypothesis Hmiss : lookup_all req cs = None.

Lemma SW_respond_fail_html e :
  network env req = inl e → SW.accepts_html req = true →
  SW.respond env req cs =
    (Fulfilled (Some (default SW.offline_response
                        (lookup_all (request_of_url env SW.OFFLINE_URL) cs))),
     cs, miss_events req ++ [Console "log" "[SW] Network fetch failed:"]).
Proof.
  intros Hnet Hacc. unfold SW.respond, SW.offline_fallback. run.
  rewrite Hmiss, Hnet, Hacc.
  destruct (lookup_all (request_of_url env SW.OFFLINE_URL) cs); reflexivity.
Qed.

Lemma SW_respond_fail_other e :
  network env req = inl e → SW.accepts_html req = false →
  SW.respond env req cs =
    (Rejected e, cs, miss_events req ++ [Console "log" "[SW] Network fetch failed:"]).
Proof.
  intros Hnet Hacc. unfold SW.respond, SW.offline_fallback. run.
  rewrite Hmiss, Hnet, Hacc. reflexivity.
Qed.

Lemma SW_respond_uncacheable resp :
  network env req = inr resp →
  status resp ≠ 200%Z ∨ type resp ≠ "basic" →
  SW.respond env req cs = (Fulfilled (Some resp), cs, miss_events req).
Proof.
  intros Hnet Hbad. unfold SW.respond. run. rewrite Hmiss, Hnet.
  destruct Hbad as [Hbad|Hbad].
  - rewrite (bool_decide_eq_true_2 _ Hbad). reflexivity.
  - rewrite (bool_decide_eq_true_2 _ Hbad), orb_true_r. reflexivity.
Qed.

Lemma SW_respond_cacheable resp :
  network env req = inr resp →
  status resp = 200%Z → type resp = "basic" →
  SW.respond env req cs =
    (Fulfilled (Some resp),
     (if decide (method req = "GET")
      then if storable resp
           then update_cache SW.CACHE_NAME (λ c, <[url req := resp]> c)
                  (open_cache SW.CACHE_NAME cs)
           else open_cache SW.CACHE_NAME cs
      else open_cache SW.CACHE_NAME cs),
     miss_events req ++
     (if decide (method req = "GET")
      then if storable resp then []
           else [UnhandledRejection (TypeError "Response is not storable")]
      else [])).
Proof.
  intros Hnet Hst Hty. unfold SW.respond, SW.store_response. run.
  rewrite Hmiss, Hnet.
  rewrite bool_decide_eq_false_2 by (intros H; apply H, Hst).
  rewrite bool_decide_eq_false_2 by (intros H; apply H, Hty).
  destruct (decide (method req = "GET")); [destruct (storable resp)|]; reflexivity.
Qed.

Lemma Legacy_respond_fail e :
  network env req = inl e →
  Legacy.respond env req cs =
    (match headers_get "accept" (req_headers req) with
     | None => Rejected (TypeError "Cannot read properties of null (reading 'includes')")
     | Some a =>
         if includes a "text/html"
         then Fulfilled (lookup_all (request_of_url env Legacy.OFFLINE_URL) cs)
         else Fulfilled None
     end, cs, miss_events req).
Proof.
  intros Hnet. unfold Legacy.respond, Legacy.offline_fallback. run.
  rewrite Hmiss, Hnet.
  destruct (headers_get "accept" (req_headers req)) as [a|]; [|reflexivity].
  destruct (includes a "text/html"); reflexivity.
Qed.

Lemma Legacy_respond_uncacheable resp :
  network env req = inr resp →
  status resp ≠ 200%Z ∨ type resp ≠ "basic" →
  Legacy.respond env req cs = (Fulfilled (Some resp), cs, miss_events req).
Proof.
  intros Hnet Hbad. unfold Legacy.respond. run. rewrite Hmiss, Hnet.
  destruct Hbad as [Hbad|Hbad].
  - rewrite (bool_decide_eq_true_2 _ Hbad). reflexivity.
  - rewrite (bool_decide_eq_true_2 _ Hbad), orb_true_r. reflexivity.
Qed.

(** The legacy worker hands every 200 basic response to [cache.put];
    for a request that is not a GET the put is rejected by the cache, as
    it is in both workers for a response that is not storable. *)
Lemma Legacy_respond_cacheable resp :
  network env req = inr resp →
  status resp = 200%Z → type resp = "basic" →
  Legacy.respond env req cs =
    (Fulfilled (Some resp),
     (if decide (method req = "GET")
      then if storable resp
           then update_cache Legacy.CACHE_NAME (λ c, <[url req := resp]> c)
                  (open_cache Legacy.CACHE_NAME cs)
           else open_cache Legacy.CACHE_NAME cs
      else open_cache Legacy.CACHE_NAME cs),
     miss_events req ++
     (if decide (method req = "GET")
      then if storable resp then []
           else [UnhandledRejection (TypeError "Response is not storable")]
      else [UnhandledRejection (TypeError "Request method is unsupported")])).
Proof.
  intros Hnet Hst Hty. unfold Legacy.respond, Legacy.store_response. run.
  rewrite Hmiss, Hnet.
  rewrite bool_decide_eq_false_2 by (intros H; apply H, Hst).
  rewrite bool_decide_eq_false_2 by (intros H; apply H, Hty).
  destruct (decide (method req = "GET")); [destruct (storable resp)|]; reflexivity.
Qed.
End FetchMiss.

(** ** The cache storage *)
Lemma find_cache_snoc name n c cs :
  find_cache name (cs ++ [(n, c)]) =
    match find_cache name cs with
    | Some c' => Some c'
    | None => if decide (n = name) then Some c else None
    end.
Proof.
  induction cs as [|[n' c'] t IH]; simpl.
  - reflexivity.
  - destruct (decide (n' = name)); [reflexivity | exact IH].
Qed.

Lemma find_cache_open n cs :
  find_cache n (open_cache n cs) = Some (default ∅ (find_cache n cs)).
Proof.
  unfold open_cache. destruct (find_cache n cs) as [c|] eqn:E.
  - rewrite E. reflexivity.
  - rewrite find_cache_snoc, E, decide_True by reflexivity. reflexivity.
Qed.

Lemma entry_open_cache n cs name u :
  entry (open_cache n cs) name u = entry cs name u.
Proof.
  unfold open_cache, entry. destruct (find_cache n cs) as [c|] eqn:E; [reflexivity|].
  rewrite find_cache_snoc. destruct (find_cache name cs) as [c'|] eqn:E'; [reflexivity|].
  destruct (decide (n = name)); reflexivity.
Qed.

Lemma match_all_snoc_empty u n cs :
  match_all u (cs ++ [(n, ∅)]) = match_all u cs.
Proof.
  induction cs as [|[n' c'] t IH]; simpl.
  - reflexivity.
  - destruct (c' !! u); [reflexivity | exact IH].
Qed.

Lemma match_all_open_cache u n cs :
  match_all u (open_cache n cs) = match_all u cs.
Proof.
  unfold open_cache. destruct (find_cache n cs); [reflexivity|].
  apply match_all_snoc_empty.
Qed.

Lemma names_open_cache n cs : n ∈ names (open_cache n cs).
Proof.
  unfold open_cache. destruct (find_cache n cs) as [c|] eqn:E.
  - induction cs as [|[n' c'] t IH]; simpl in *; [discriminate|].
    destruct (decide (n' = n)) as [->|]; [left | right; auto].
  - unfold names. rewrite fmap_app. apply elem_of_app. right. simpl. left.
Qed.

Lemma find_cache_update name f cs n :
  find_cache n (update_cache name f cs) =
    if decide (name = n) then f <$> find_cache n cs else find_cache n cs.
Proof.
  induction cs as [|[n' c'] t IH]; simpl.
  - destruct (decide (name = n)); reflexivity.
  - destruct (decide (n' = name)) as [->|Hne]; simpl.
    + destruct (decide (name = n)); reflexivity.
    + destruct (decide (n' = n)) as [->|]; [|exact IH].
      rewrite decide_False by congruence. reflexivity.
Qed.

Lemma names_update_cache name f cs : names (update_cache name f cs) = names cs.
Proof.
  unfold names. induction cs as [|[n' c'] t IH]; simpl; [reflexivity|].
  destruct (decide (n' = name)); simpl; [reflexivity|].
  f_equal. exact IH.
Qed.

Lemma entry_update_insert name k v cs n u :
  entry (update_cache name (λ c, <[k := v]> c) cs) n u =
    if decide (name = n ∧ k = u)
    then (match find_cache n cs with Some _ => Some v | None => None end)
    else entry cs n u.
Proof.
  unfold entry. rewrite find_cache_update.
  destruct (decide (name = n)) as [->|Hn].
  - destruct (find_cache n cs) as [c|]; simpl.
    + destruct (decide (k = u)) as [->|Hk].
      * rewrite decide_True by done. apply lookup_insert_eq.
      * rewrite decide_False by (intros [? ?]; congruence). by apply lookup_insert_ne.
    + destruct (decide (n = n ∧ k = u)); reflexivity.
  - rewrite decide_False by (intros [? ?]; congruence). reflexivity.
Qed.

Lemma entry_update_delete name k cs n u :
  entry (update_cache name (λ c, delete k c) cs) n u =
    if decide (name = n ∧ k = u) then None else entry cs n u.
Proof.
  unfold entry. rewrite find_cache_update.
  destruct (decide (name = n)) as [->|Hn].
  - destruct (find_cache n cs) as [c|]; simpl.
    + destruct (decide (k = u)) as [->|Hk].
      * rewrite decide_True by done. apply lookup_delete_eq.
      * rewrite decide_False by (intros [? ?]; congruence). by apply lookup_delete_ne.
    + destruct (decide (n = n ∧ k = u)); reflexivity.
  - rewrite decide_False by (intros [? ?]; congruence). reflexivity.
Qed.

Lemma same_entries_refl cs : same_entries cs cs.
Proof. intros name u. reflexivity. Qed.

Lemma same_entries_open n cs : same_entries cs (open_cache n cs).
Proof. intros name u. apply entry_open_cache. Qed.

(** ** What an interception does to the storage *)
Lemma respond_summary env req cs p :
  p = SW.respond env req ∨ p = Legacy.respond env req →
  (same_entries cs (storage (p cs)) ∨
   ∃ resp, network env req = inr resp ∧ status resp = 200%Z ∧
           type resp = "basic" ∧ method req = "GET") ∧
  (∀ resp, lookup_all req cs = None → network env req = inr resp →
           outcome (p cs) = Fulfilled (Some resp)).
Proof.
  intros Hp.
  destruct (lookup_all req cs) as [r|] eqn:Hl.
  { split; [left|discriminate].
    destruct Hp as [-> | ->];
      [rewrite (SW_respond_hit env req cs r Hl)
      |rewrite (Legacy_respond_hit env req cs r Hl)];
      apply same_entries_refl. }
  destruct (network env req) as [e|resp] eqn:Hn.
  { split; [left|discriminate].
    destruct Hp as [-> | ->].
    - destruct (SW.accepts_html req) eqn:Ha.
      + rewrite (SW_respond_fail_html env req cs Hl e Hn Ha). apply same_entries_refl.
      + rewrite (SW_respond_fail_other env req cs Hl e Hn Ha). apply same_entries_refl.
    - rewrite (Legacy_respond_fail env req cs Hl e Hn). apply same_entries_refl. }
  destruct (decide (status resp = 200%Z)) as [Hs|Hs];
    [destruct (decide (type resp = "basic")) as [Ht|Ht]|].
  - split.
    + destruct (decide (method req = "GET")) as [Hg|Hg]; [right; by exists resp|left].
      destruct Hp as [-> | ->];
        [rewrite (SW_respond_cacheable env req cs Hl resp Hn Hs Ht)
        |rewrite (Legacy_respond_cacheable env req cs Hl resp Hn Hs Ht)];
        unfold storage; simpl; rewrite decide_False by assumption;
        apply same_entries_open.
    + intros resp' _ [= <-].
      destruct Hp as [-> | ->];
        [rewrite (SW_respond_cacheable env req cs Hl resp Hn Hs Ht)
        |rewrite (Legacy_respond_cacheable env req cs Hl resp Hn Hs Ht)];
        reflexivity.
  - assert (Hbad : status resp ≠ 200%Z ∨ type resp ≠ "basic") by (right; assumption).
    split; [left | intros resp' _ [= <-]];
      (destruct Hp as [-> | ->];
        [rewrite (SW_respond_uncacheable env req cs Hl resp Hn Hbad)
        |rewrite (Legacy_respond_uncacheable env req cs Hl resp Hn Hbad)]);
      first [apply same_entries_refl | reflexivity].
  - assert (Hbad : status resp ≠ 200%Z ∨ type resp ≠ "basic") by (left; assumption).
    split; [left | intros resp' _ [= <-]];
      (destruct Hp as [-> | ->];
        [rewrite (SW_respond_uncacheable env req cs Hl resp Hn Hbad)
        |rewrite (Legacy_respond_uncacheable env req cs Hl resp Hn Hbad)]);
      first [apply same_entries_refl | reflexivity].
Qed.

Lemma onFetch_respond env req p :
  SW.onFetch env req = Some p ∨ Legacy.onFetch env req = Some p →
  p = SW.respond env req ∨ p = Legacy.respond env req.
Proof.
  intros [H|H]; [left; by apply SW_onFetch_Some | right; by apply Legacy_onFetch_Some].
Qed.

(** C2. For every intercepted request, in either worker: if the
    interception changes any entry of the cache storage, then the network
    answered with status 200 and type [basic] and the request method is
    GET; and a network response failing any of these conditions is
    returned to the caller while every entry stays as it was. *)
Theorem C2_only_200_basic_GET_is_stored
    (env : Env) (req : Request) (p : Async (option Response)) (cs : CacheStorage) :
  SW.onFetch env req = Some p ∨ Legacy.onFetch env req = Some p →
  (¬ same_entries cs (storage (p cs)) →
   ∃ resp, network env req = inr resp ∧ status resp = 200%Z ∧
           type resp = "basic" ∧ method req = "GET") ∧
  (∀ resp, lookup_all req cs = None → network env req = inr resp →
     ¬ (status resp = 200%Z ∧ type resp = "basic" ∧ method req = "GET") →
     outcome (p cs) = Fulfilled (Some resp) ∧ same_entries cs (storage (p cs))).
Proof.
  intros Hp. apply onFetch_respond in Hp.
  destruct (respond_summary env req cs p Hp) as [Hst Hout]. split.
  - intros Hch. destruct Hst as [Hsame|Hex]; [contradiction | exact Hex].
  - intros resp Hl Hn Hbad. split; [by apply Hout|].
    destruct Hst as [Hsame|(resp' & Hn' & Hs & Ht & Hg)]; [exact Hsame|].
    rewrite Hn in Hn'. injection Hn' as <-. exfalso. apply Hbad. done.
Qed.

(** C1 at a concrete input: a cached shell page is served to a GET for it
    without a network request. *)
Lemma C1_witness :
  SW.onFetch Demo.env Demo.html_request = Some (SW.respond Demo.env Demo.html_request) ∧
  ∃ ev, SW.respond Demo.env Demo.html_request (Demo.shell_store SW.CACHE_NAME) =
          (Fulfilled (Some (Demo.page "text/html" "<html>")),
           Demo.shell_store SW.CACHE_NAME, ev) ∧
        ∀ q, NetFetch q ∉ ev.
Proof.
  split; [reflexivity|].
  apply (C1_cache_hit_served_without_network Demo.env Demo.html_request).
  - left. reflexivity.
  - reflexivity.
  - vm_compute. reflexivity.
Defined.

(** C2 at a concrete input: a 200 basic answer to a POST is returned by the
    legacy worker and no entry is stored. *)
Lemma C2_witness :
  Legacy.onFetch Demo.env Demo.post_request
    = Some (Legacy.respond Demo.env Demo.post_request) ∧
  outcome (Legacy.respond Demo.env Demo.post_request [])
    = Fulfilled (Some (Demo.page "application/json" "{}")) ∧
  same_entries [] (storage (Legacy.respond Demo.env Demo.post_request [])) ∧
  ¬ same_entries [] (storage (SW.respond Demo.env Demo.html_request [])) ∧
  ∃ resp, network Demo.env Demo.html_request = inr resp ∧ status resp = 200%Z ∧
          type resp = "basic" ∧ method Demo.html_request = "GET".
Proof.
  split; [reflexivity|].
  assert (Hch : ¬ same_entries [] (storage (SW.respond Demo.env Demo.html_request []))).
  { intros H. specialize (H SW.CACHE_NAME (url Demo.html_request)).
    vm_compute in H. discriminate H. }
  destruct (C2_only_200_basic_GET_is_stored Demo.env Demo.post_request
              (Legacy.respond Demo.env Demo.post_request) [] (or_intror eq_refl))
    as [_ Hret].
  destruct (Hret (Demo.page "application/json" "{}")) as [Hout Hsame].
  - reflexivity.
  - vm_compute. reflexivity.
  - intros (_ & _ & H). discriminate H.
  - split; [exact Hout|]. split; [exact Hsame|]. split; [exact Hch|].
    exact (proj1 (C2_only_200_basic_GET_is_stored Demo.env Demo.html_request
                    (SW.respond Demo.env Demo.html_request) [] (or_introl eq_refl)) Hch).
Defined.

(** C9. For every intercepted request that is served from a cache hit, in
    either worker, the interception fulfils with the entry that was hit and
    leaves the whole cache storage as it was. *)
Theorem C9_cache_hit_writes_nothing
    (env : Env) (req : Request) (p : Async (option Response))
    (cs : CacheStorage) (r : Response) :
  SW.onFetch env req = Some p ∨ Legacy.onFetch env req = Some p →
  lookup_all req cs = Some r →
  outcome (p cs) = Fulfilled (Some r) ∧ storage (p cs) = cs.
Proof.
  intros Hp Hhit.
  destruct (onFetch_respond env req p Hp) as [-> | ->].
  - rewrite (SW_respond_hit env req cs r Hhit). by split.
  - rewrite (Legacy_respond_hit env req cs r Hhit). by split.
Qed.

(** C9 at a concrete input: a cache hit in the legacy worker leaves the
    storage as it was. *)
Lemma C9_witness :
  Legacy.onFetch Demo.env Demo.html_request
    = Some (Legacy.respond Demo.env Demo.html_request) ∧
  outcome (Legacy.respond Demo.env Demo.html_request (Demo.shell_store Legacy.CACHE_NAME))
    = Fulfilled (Some (Demo.page "text/html" "<html>")) ∧
  storage (Legacy.respond Demo.env Demo.html_request (Demo.shell_store Legacy.CACHE_NAME))
    = Demo.shell_store Legacy.CACHE_NAME.
Proof.
  split; [reflexivity|].
  apply (C9_cache_hit_writes_nothing Demo.env Demo.html_request).
  - right. reflexivity.
  - vm_compute. reflexivity.
Defined.

Lemma offline_response_html : html_typed SW.offline_response = true.
Proof. reflexivity. Qed.

(** In [src/sw.js], an intercepted request that accepts HTML and whose
    network fetch fails is answered with a response, never with a failure
    or an absent value: the cached offline page when [OFFLINE_URL] is
    cached, the inline offline page (content type [text/html]) otherwise;
    the answer has an HTML content type whenever the cached page has. *)
Theorem SW_html_failure_gets_offline_page
    (env : Env) (req : Request) (p : Async (option Response))
    (cs : CacheStorage) (e : JsError) :
  SW.onFetch env req = Some p →
  lookup_all req cs = None →
  network env req = inl e →
  SW.accepts_html req = true →
  ∃ r, outcome (p cs) = Fulfilled (Some r) ∧
       r = default SW.offline_response
             (lookup_all (request_of_url env SW.OFFLINE_URL) cs) ∧
       (from_option html_typed true
          (lookup_all (request_of_url env SW.OFFLINE_URL) cs) = true →
        html_typed r = true).
Proof.
  intros Hp Hl Hn Ha.
  rewrite (SW_onFetch_Some env req p Hp),
          (SW_respond_fail_html env req cs Hl e Hn Ha).
  eexists. split; [reflexivity|]. split; [reflexivity|].
  destruct (lookup_all (request_of_url env SW.OFFLINE_URL) cs); simpl.
  - auto.
  - intros _. apply offline_response_html.
Qed.

(** Offline, with nothing cached, [src/sw.js] answers an HTML request with
    the inline page. *)
Lemma SW_html_failure_gets_offline_page_witness :
  SW.onFetch Demo.offline_env Demo.html_request
    = Some (SW.respond Demo.offline_env Demo.html_request) ∧
  ∃ r, outcome (SW.respond Demo.offline_env Demo.html_request []) = Fulfilled (Some r) ∧
       r = SW.offline_response ∧ html_typed r = true.
Proof.
  split; [reflexivity|].
  destruct (SW_html_failure_gets_offline_page Demo.offline_env Demo.html_request
              (SW.respond Demo.offline_env Demo.html_request) [] Demo.failed_to_fetch)
    as (r & Ho & Hr & Hh).
  - reflexivity.
  - reflexivity.
  - reflexivity.
  - vm_compute. reflexivity.
  - exists r. split; [exact Ho|]. split; [exact Hr|]. apply Hh. reflexivity.
Defined.

(** In [src/sw.js], an intercepted request that does not accept HTML,
    misses the cache and whose network fetch fails is rejected with the
    network's own error, and the storage is untouched. *)
Theorem SW_non_html_failure_is_propagated
    (env : Env) (req : Request) (p : Async (option Response))
    (cs : CacheStorage) (e : JsError) :
  SW.onFetch env req = Some p →
  lookup_all req cs = None →
  network env req = inl e →
  SW.accepts_html req = false →
  outcome (p cs) = Rejected e ∧ storage (p cs) = cs.
Proof.
  intros Hp Hl Hn Ha.
  rewrite (SW_onFetch_Some env req p Hp),
          (SW_respond_fail_other env req cs Hl e Hn Ha).
  by split.
Qed.

(** Offline, [src/sw.js] rejects a JSON request with the network error. *)
Lemma SW_non_html_failure_is_propagated_witness :
  SW.onFetch Demo.offline_env Demo.api_request
    = Some (SW.respond Demo.offline_env Demo.api_request) ∧
  outcome (SW.respond Demo.offline_env Demo.api_request []) = Rejected Demo.failed_to_fetch ∧
  storage (SW.respond Demo.offline_env Demo.api_request []) = [].
Proof.
  split; [reflexivity|].
  apply (SW_non_html_failure_is_propagated Demo.offline_env Demo.api_request
           (SW.respond Demo.offline_env Demo.api_request) [] Demo.failed_to_fetch).
  - reflexivity.
  - reflexivity.
  - reflexivity.
  - vm_compute. reflexivity.
Defined.

(** C7 fails in [src/unnamed/part_000]: an intercepted request whose accept
    header does not include HTML, that misses the cache and whose network
    fetch fails, is answered with [undefined]; the failure is swallowed. *)
Theorem C7_legacy_non_html_failure_is_swallowed
    (env : Env) (req : Request) (p : Async (option Response))
    (cs : CacheStorage) (e : JsError) (a : string) :
  Legacy.onFetch env req = Some p →
  lookup_all req cs = None →
  network env req = inl e →
  headers_get "accept" (req_headers req) = Some a →
  includes a "text/html" = false →
  outcome (p cs) = Fulfilled None ∧ storage (p cs) = cs.
Proof.
  intros Hp Hl Hn Hh Ha.
  rewrite (Legacy_onFetch_Some env req p Hp), (Legacy_respond_fail env req cs Hl e Hn).
  rewrite Hh, Ha. by split.
Qed.

(** The failing input of C7: the legacy worker, offline, nothing cached,
    a GET that accepts JSON only. *)
Lemma C7_witness :
  Legacy.onFetch Demo.offline_env Demo.api_request
    = Some (Legacy.respond Demo.offline_env Demo.api_request) ∧
  network Demo.offline_env Demo.api_request = inl Demo.failed_to_fetch ∧
  outcome (Legacy.respond Demo.offline_env Demo.api_request []) = Fulfilled None ∧
  storage (Legacy.respond Demo.offline_env Demo.api_request []) = [].
Proof.
  split; [reflexivity|]. split; [reflexivity|].
  apply (C7_legacy_non_html_failure_is_swallowed Demo.offline_env Demo.api_request
           (Legacy.respond Demo.offline_env Demo.api_request) []
           Demo.failed_to_fetch "application/json").
  - reflexivity.
  - reflexivity.
  - reflexivity.
  - reflexivity.
  - vm_compute. reflexivity.
Defined.

(** C10. In [src/sw.js], an intercepted request without an accept header
    whose network fetch fails is treated as not accepting HTML, and the
    interception is rejected with the network's own error: the error
    branch raises nothing of its own and leaves the storage as it was. *)
Theorem C10_missing_accept_header_is_safe
    (env : Env) (req : Request) (p : Async (option Response))
    (cs : CacheStorage) (e : JsError) :
  SW.onFetch env req = Some p →
  lookup_all req cs = None →
  network env req = inl e →
  headers_get "accept" (req_headers req) = None →
  SW.accepts_html req = false ∧
  p cs = (Rejected e, cs,
          miss_events req ++ [Console "log" "[SW] Network fetch failed:"]).
Proof.
  intros Hp Hl Hn Hh.
  assert (Ha : SW.accepts_html req = false).
  { unfold SW.accepts_html. rewrite Hh. reflexivity. }
  split; [exact Ha|].
  rewrite (SW_onFetch_Some env req p Hp).
  by apply SW_respond_fail_other.
Qed.

(** C10 at a concrete input: offline, [src/sw.js] rejects a request without
    accept header with the network error. *)
Lemma C10_witness :
  SW.onFetch Demo.offline_env Demo.bare_request
    = Some (SW.respond Demo.offline_env Demo.bare_request) ∧
  SW.accepts_html Demo.bare_request = false ∧
  SW.respond Demo.offline_env Demo.bare_request [] =
    (Rejected Demo.failed_to_fetch, [],
     miss_events Demo.bare_request ++ [Console "log" "[SW] Network fetch failed:"]).
Proof.
  split; [reflexivity|].
  apply (C10_missing_accept_header_is_safe Demo.offline_env Demo.bare_request);
    reflexivity.
Defined.

(** In [src/unnamed/part_000] the header lookup is unguarded: an
    intercepted request without an accept header whose network fetch
    fails makes the [catch] callback throw, and the interception is
    rejected with a [TypeError] of the callback's own instead of the
    network's error. *)
Theorem Legacy_missing_accept_header_throws
    (env : Env) (req : Request) (p : Async (option Response))
    (cs : CacheStorage) (e : JsError) :
  Legacy.onFetch env req = Some p →
  lookup_all req cs = None →
  network env req = inl e →
  headers_get "accept" (req_headers req) = None →
  outcome (p cs) =
    Rejected (TypeError "Cannot read properties of null (reading 'includes')").
Proof.
  intros Hp Hl Hn Hh.
  rewrite (Legacy_onFetch_Some env req p Hp), (Legacy_respond_fail env req cs Hl e Hn).
  rewrite Hh. reflexivity.
Qed.

(** Offline, the legacy worker answers a request without accept header by
    a [TypeError]. *)
Lemma Legacy_missing_accept_header_throws_witness :
  Legacy.onFetch Demo.offline_env Demo.bare_request
    = Some (Legacy.respond Demo.offline_env Demo.bare_request) ∧
  outcome (Legacy.respond Demo.offline_env Demo.bare_request []) =
    Rejected (TypeError "Cannot read properties of null (reading 'includes')").
Proof.
  split; [reflexivity|].
  apply (Legacy_missing_accept_header_throws Demo.offline_env Demo.bare_request
           (Legacy.respond Demo.offline_env Demo.bare_request) [] Demo.failed_to_fetch);
    reflexivity.
Defined.

(** ** The flush functions of the sync queue *)
Lemma open_cache_present n cs c : find_cache n cs = Some c → open_cache n cs = cs.
Proof. unfold open_cache. intros ->. reflexivity. Qed.

Lemma entry_Some_open cs n u r : entry cs n u = Some r → open_cache n cs = cs.
Proof.
  unfold entry. destruct (find_cache n cs) as [c|] eqn:E; [|discriminate].
  intros _. by apply (open_cache_present n cs c).
Qed.

Lemma syncEmergencyData_run env cs :
  SW.syncEmergencyData env cs =
    match entry cs SW.CACHE_NAME (resolve env SW.EMERGENCY_DATA_URL) with
    | None => (Fulfilled tt, open_cache SW.CACHE_NAME cs, [])
    | Some r =>
        if json_parses env (body r)
        then (Fulfilled tt,
              update_cache SW.CACHE_NAME
                (λ c, delete (resolve env SW.EMERGENCY_DATA_URL) c) cs,
              [Console "log" "[SW] Syncing emergency data:";
               Console "log" "[SW] Emergency data synced successfully"])
        else (Rejected (SyntaxError "Unexpected end of JSON input"), cs,
              [Console "error" "[SW] Emergency data sync failed:"])
    end.
Proof.
  unfold SW.syncEmergencyData. run. simpl.
  rewrite entry_open_cache.
  destruct (entry cs SW.CACHE_NAME (resolve env SW.EMERGENCY_DATA_URL)) as [r|] eqn:E;
    [|reflexivity].
  rewrite (entry_Some_open _ _ _ _ E).
  destruct (json_parses env (body r)); reflexivity.
Qed.

Lemma syncStudentScans_run env cs :
  SW.syncStudentScans env cs =
    match entry cs SW.CACHE_NAME (resolve env SW.STUDENT_SCANS_URL) with
    | None => (Fulfilled tt, open_cache SW.CACHE_NAME cs, [])
    | Some r =>
        if json_parses env (body r)
        then (Fulfilled tt,
              update_cache SW.CACHE_NAME
                (λ c, delete (resolve env SW.STUDENT_SCANS_URL) c) cs,
              [Console "log" "[SW] Syncing student scans:";
               Console "log" "[SW] Student scans synced successfully"])
        else (Rejected (SyntaxError "Unexpected end of JSON input"), cs,
              [Console "error" "[SW] Student scans sync failed:"])
    end.
Proof.
  unfold SW.syncStudentScans. run. simpl.
  rewrite entry_open_cache.
  destruct (entry cs SW.CACHE_NAME (resolve env SW.STUDENT_SCANS_URL)) as [r|] eqn:E;
    [|reflexivity].
  rewrite (entry_Some_open _ _ _ _ E).
  destruct (json_parses env (body r)); reflexivity.
Qed.

(** The legacy flush settles to [undefined] on every path. *)
Lemma syncQueuedData_run env cs :
  Legacy.syncQueuedData env cs =
    match entry cs Legacy.CACHE_NAME (resolve env Legacy.QUEUED_DATA_URL) with
    | None => (Fulfilled tt, open_cache Legacy.CACHE_NAME cs, [])
    | Some r =>
        if json_parses env (body r)
        then (Fulfilled tt,
              update_cache Legacy.CACHE_NAME
                (λ c, delete (resolve env Legacy.QUEUED_DATA_URL) c) cs,
              [Console "log" "[SW] Syncing queued data:"])
        else (Fulfilled tt, cs, [Console "error" "[SW] Sync failed:"])
    end.
Proof.
  unfold Legacy.syncQueuedData. run. simpl.
  rewrite entry_open_cache.
  destruct (entry cs Legacy.CACHE_NAME (resolve env Legacy.QUEUED_DATA_URL)) as [r|] eqn:E;
    [|reflexivity].
  rewrite (entry_Some_open _ _ _ _ E).
  destruct (json_parses env (body r)); reflexivity.
Qed.

(** A flush touches no entry but the one under its key in its cache. *)
Lemma flush_frame (p : Async unit) (cache k : string) (cs : CacheStorage)
    (ev1 : list Event) (ev2 : Response → Settled unit * CacheStorage * list Event)
    (e : Response → bool) :
  p cs =
    match entry cs cache k with
    | None => (Fulfilled tt, open_cache cache cs, [])
    | Some r =>
        if e r
        then (Fulfilled tt, update_cache cache (λ c, delete k c) cs, ev1)
        else ev2 r
    end →
  (∀ r, storage (ev2 r) = cs) →
  ∀ name u, u ≠ k → entry (storage (p cs)) name u = entry cs name u.
Proof.
  intros -> Hrej name u Hu.
  destruct (entry cs cache k) as [r|].
  - destruct (e r).
    + unfold storage; simpl. rewrite entry_update_delete.
      rewrite decide_False by (intros [? ?]; congruence). reflexivity.
    + rewrite Hrej. reflexivity.
  - unfold storage; simpl. apply entry_open_cache.
Qed.

Lemma syncEmergencyData_frame env cs name u :
  u ≠ emergency_key env →
  entry (storage (SW.syncEmergencyData env cs)) name u = entry cs name u.
Proof.
  intros Hu.
  eapply flush_frame; [apply syncEmergencyData_run | reflexivity | exact Hu].
Qed.

Lemma syncStudentScans_frame env cs name u :
  u ≠ scans_key env →
  entry (storage (SW.syncStudentScans env cs)) name u = entry cs name u.
Proof.
  intros Hu.
  eapply flush_frame; [apply syncStudentScans_run | reflexivity | exact Hu].
Qed.


(** What a flush settles to: fulfilled leaves no entry under the key,
    rejected leaves the storage as it was, and an item that does not parse
    makes it reject. *)
Lemma flush_settles (p : Async unit) (cache k : string) (cs : CacheStorage)
    (ev1 ev2 : list Event) (parses : Response → bool) (err : JsError) :
  p cs =
    match entry cs cache k with
    | None => (Fulfilled tt, open_cache cache cs, [])
    | Some r =>
        if parses r
        then (Fulfilled tt, update_cache cache (λ c, delete k c) cs, ev1)
        else (Rejected err, cs, ev2)
    end →
  (∀ v, outcome (p cs) = Fulfilled v → entry (storage (p cs)) cache k = None) ∧
  (∀ e, outcome (p cs) = Rejected e → storage (p cs) = cs) ∧
  (∀ r, entry cs cache k = Some r → parses r = false →
        outcome (p cs) = Rejected err) ∧
  (∀ r, entry cs cache k = Some r → parses r = true →
        outcome (p cs) = Fulfilled tt).
Proof.
  intros ->. destruct (entry cs cache k) as [r|] eqn:E.
  - destruct (parses r) eqn:P; unfold outcome, storage; simpl.
    + repeat split; try discriminate.
      * intros _ _. rewrite entry_update_delete, decide_True by done. reflexivity.
      * intros r' [= <-]. congruence.
    + repeat split; try discriminate. intros r' [= <-]. congruence.
  - unfold outcome, storage; simpl. repeat split; try discriminate.
    intros _ _. rewrite entry_open_cache. exact E.
Qed.

Lemma storable_new_Response text : storable (new_Response text []) = true.
Proof. by destruct text. Qed.

Lemma onMessage_queues env text cs :
  SW.onMessage env (Some (cache_emergency_data text)) cs =
    (Fulfilled tt,
     update_cache SW.CACHE_NAME
       (λ c, <[emergency_key env := new_Response text []]> c)
       (open_cache SW.CACHE_NAME cs),
     [Console "log" "[SW] Message received:"]).
Proof. destruct text; reflexivity. Qed.

Lemma onMessage_entry env text cs :
  entry (storage (SW.onMessage env (Some (cache_emergency_data text)) cs))
        SW.CACHE_NAME (emergency_key env)
    = Some (new_Response text []).
Proof.
  rewrite onMessage_queues. unfold storage; simpl.
  rewrite entry_update_insert, decide_True by done.
  rewrite find_cache_open. reflexivity.
Qed.

(** In [src/sw.js]: an item written by the [CACHE_EMERGENCY_DATA] message
    is stored under the emergency key as written; a flush of either
    reserved key that fulfils leaves no entry under its key; a flush that
    rejects leaves the whole storage, hence the item, exactly as it was;
    and an item whose text does not parse makes the flush reject. *)
Theorem SW_flush_removes_or_preserves_and_signals :
  (∀ (env : Env) (text : option string) (cs0 : CacheStorage),
     let cs1 := storage (SW.onMessage env (Some (cache_emergency_data text)) cs0) in
     entry cs1 SW.CACHE_NAME (emergency_key env) = Some (new_Response text []) ∧
     (∀ v, outcome (SW.syncEmergencyData env cs1) = Fulfilled v →
           entry (storage (SW.syncEmergencyData env cs1))
                 SW.CACHE_NAME (emergency_key env) = None) ∧
     (∀ e, outcome (SW.syncEmergencyData env cs1) = Rejected e →
           storage (SW.syncEmergencyData env cs1) = cs1) ∧
     (json_parses env (body (new_Response text [])) = false →
      ∃ e, outcome (SW.syncEmergencyData env cs1) = Rejected e)) ∧
  (∀ (env : Env) (cs : CacheStorage) (flush : Async unit) (k : string),
     (flush = SW.syncEmergencyData env ∧ k = emergency_key env) ∨
     (flush = SW.syncStudentScans env ∧ k = scans_key env) →
     (∀ v, outcome (flush cs) = Fulfilled v →
           entry (storage (flush cs)) SW.CACHE_NAME k = None) ∧
     (∀ e, outcome (flush cs) = Rejected e → storage (flush cs) = cs) ∧
     (∀ r, entry cs SW.CACHE_NAME k = Some r → json_parses env (body r) = false →
           ∃ e, outcome (flush cs) = Rejected e)).
Proof.
  split.
  - intros env text cs0 cs1.
    destruct (flush_settles _ _ _ cs1 _ _ _ _ (syncEmergencyData_run env cs1))
      as (Hful & Hrej & Hbad & _).
    pose proof (onMessage_entry env text cs0) as Hent. fold cs1 in Hent.
    repeat split; [exact Hent | exact Hful | exact Hrej |].
    intros Hp. eexists. by apply (Hbad _ Hent).
  - intros env cs flush k [[-> ->] | [-> ->]].
    + destruct (flush_settles _ _ _ cs _ _ _ _ (syncEmergencyData_run env cs))
        as (Hful & Hrej & Hbad & _).
      repeat split; [exact Hful | exact Hrej |].
      intros r Hr Hp. eexists. by apply (Hbad r).
    + destruct (flush_settles _ _ _ cs _ _ _ _ (syncStudentScans_run env cs))
        as (Hful & Hrej & Hbad & _).
      repeat split; [exact Hful | exact Hrej |].
      intros r Hr Hp. eexists. by apply (Hbad r).
Qed.

(** An item queued with an undefined payload has an empty body: the flush
    rejects and the storage is kept; a flush of parsable student scans
    fulfils and removes them. *)
Lemma SW_flush_removes_or_preserves_and_signals_witness :
  let cs1 := storage (SW.onMessage Demo.env (Some (cache_emergency_data None)) []) in
  json_parses Demo.env (body (new_Response None [])) = false ∧
  entry cs1 SW.CACHE_NAME (emergency_key Demo.env) = Some (new_Response None []) ∧
  (∃ e, outcome (SW.syncEmergencyData Demo.env cs1) = Rejected e) ∧
  (∀ e, outcome (SW.syncEmergencyData Demo.env cs1) = Rejected e →
        storage (SW.syncEmergencyData Demo.env cs1) = cs1) ∧
  outcome (SW.syncStudentScans Demo.env Demo.pending_store) = Fulfilled tt ∧
  entry (storage (SW.syncStudentScans Demo.env Demo.pending_store))
        SW.CACHE_NAME (scans_key Demo.env) = None.
Proof.
  intros cs1.
  destruct (proj1 SW_flush_removes_or_preserves_and_signals Demo.env None [])
    as (Hent & _ & Hrej & Hsig).
  assert (Hok : outcome (SW.syncStudentScans Demo.env Demo.pending_store) = Fulfilled tt)
    by (vm_compute; reflexivity).
  split; [reflexivity|]. split; [exact Hent|]. split; [apply Hsig; reflexivity|].
  split; [exact Hrej|]. split; [exact Hok|].
  destruct (proj2 SW_flush_removes_or_preserves_and_signals
              Demo.env Demo.pending_store (SW.syncStudentScans Demo.env)
              (scans_key Demo.env) (or_intror (conj eq_refl eq_refl)))
    as (Hful & _).
  exact (Hful tt Hok).
Defined.

(** C4 fails in [src/unnamed/part_000]: the flush of [/queued-data] never
    rejects; on an item that does not parse it logs the error, keeps the
    storage as it was and fulfils, so the [sync] trigger sees a success. *)
Theorem C4_legacy_flush_failure_is_swallowed
    (env : Env) (cs : CacheStorage) (r : Response) :
  entry cs Legacy.CACHE_NAME (queued_key env) = Some r →
  json_parses env (body r) = false →
  Legacy.syncQueuedData env cs =
    (Fulfilled tt, cs, [Console "error" "[SW] Sync failed:"]) ∧
  outcome (Legacy.onSync env "background-sync" cs) = Fulfilled tt ∧
  storage (Legacy.onSync env "background-sync" cs) = cs.
Proof.
  intros Hent Hbad.
  assert (Hrun : Legacy.syncQueuedData env cs =
                   (Fulfilled tt, cs, [Console "error" "[SW] Sync failed:"])).
  { rewrite syncQueuedData_run. unfold queued_key in Hent. rewrite Hent, Hbad.
    reflexivity. }
  split; [exact Hrun|].
  unfold Legacy.onSync. run. rewrite decide_True by reflexivity.
  rewrite Hrun. by split.
Qed.

(** The failing input of C4: the legacy worker caches the markup served
    for [/queued-data]; the flush triggered by [background-sync] cannot
    parse it, and fulfils. *)
Lemma C4_witness :
  let cs1 := storage (Legacy.respond Demo.env Demo.queued_request []) in
  entry cs1 Legacy.CACHE_NAME (queued_key Demo.env)
    = Some (Demo.page "text/html" "<html>") ∧
  json_parses Demo.env "<html>" = false ∧
  outcome (Legacy.onSync Demo.env "background-sync" cs1) = Fulfilled tt ∧
  storage (Legacy.onSync Demo.env "background-sync" cs1) = cs1.
Proof.
  intros cs1.
  assert (Hent : entry cs1 Legacy.CACHE_NAME (queued_key Demo.env)
                 = Some (Demo.page "text/html" "<html>")) by (vm_compute; reflexivity).
  assert (Hbad : json_parses Demo.env (body (Demo.page "text/html" "<html>")) = false)
    by reflexivity.
  split; [exact Hent|]. split; [exact Hbad|].
  exact (proj2 (C4_legacy_flush_failure_is_swallowed Demo.env cs1 _ Hent Hbad)).
Defined.

(** ** Sync triggers *)
Lemma onSync_storage env tag cs :
  storage (SW.onSync env tag cs) =
    if decide (tag = "emergency-data-sync") then storage (SW.syncEmergencyData env cs)
    else if decide (tag = "student-scans-sync") then storage (SW.syncStudentScans env cs)
    else cs.
Proof.
  unfold SW.onSync. run.
  destruct (decide (tag = "emergency-data-sync"));
    [|destruct (decide (tag = "student-scans-sync"))].
  - destruct (SW.syncEmergencyData env cs) as [[o s] ev]. reflexivity.
  - destruct (SW.syncStudentScans env cs) as [[o s] ev]. reflexivity.
  - reflexivity.
Qed.

Lemma onPeriodicSync_run env cs :
  storage (SW.onPeriodicSync env "emergency-system-sync" cs) =
    storage (SW.syncStudentScans env (storage (SW.syncEmergencyData env cs))) ∧
  (outcome (SW.onPeriodicSync env "emergency-system-sync" cs) = Fulfilled tt →
   outcome (SW.syncEmergencyData env cs) = Fulfilled tt ∧
   outcome (SW.syncStudentScans env (storage (SW.syncEmergencyData env cs)))
     = Fulfilled tt).
Proof.
  unfold SW.onPeriodicSync. run. simpl.
  destruct (SW.syncEmergencyData env cs) as [[o1 s1] ev1].
  change (storage (o1, s1, ev1)) with s1.
  destruct (SW.syncStudentScans env s1) as [[o2 s2] ev2].
  unfold storage, outcome; simpl.
  split; [destruct o1, o2; reflexivity|].
  destruct o1 as [[]|], o2 as [[]|]; simpl; intros H; try discriminate H; by split.
Qed.






(** ** Install *)
Lemma add_or_warn_run env cache u cs :
  SW.add_or_warn env cache u cs =
    (Fulfilled tt, add_store env cache cs u, add_events env u).
Proof.
  unfold SW.add_or_warn, add_store, add_events, fetched. run.
  destruct (network env (request_of_url env u)) as [e|r]; [reflexivity|].
  destruct (ok r); [destruct (storable r) eqn:Hs|]; simpl; rewrite ?Hs; reflexivity.
Qed.

Lemma promise_all_adds env cache urls : ∀ cs,
  promise_all (map (SW.add_or_warn env cache) urls) cs =
    (Fulfilled (map (λ _, tt) urls),
     foldl (add_store env cache) cs urls,
     concat (map (add_events env) urls)).
Proof.
  induction urls as [|u t IH]; intros cs; simpl; [reflexivity|].
  rewrite add_or_warn_run, IH. reflexivity.
Qed.

Lemma SW_install_run env urls cs :
  SW.install env urls cs =
    (Fulfilled tt,
     foldl (add_store env SW.CACHE_NAME) (open_cache SW.CACHE_NAME cs) urls,
     [Console "log" "[SW] Installing Service Worker...";
      Console "log" "[SW] Caching critical files"]
     ++ concat (map (add_events env) urls)
     ++ [Console "log" "[SW] Installation complete, taking control immediately";
         SkipWaiting]).
Proof.
  unfold SW.install. run. rewrite promise_all_adds. reflexivity.
Qed.

Lemma find_cache_is_Some n cs : is_Some (find_cache n cs) ↔ n ∈ names cs.
Proof.
  unfold names. induction cs as [|[n' c] t IH]; simpl.
  - split; [intros [? [=]] | intros H; inversion H].
  - destruct (decide (n' = n)) as [->|Hne].
    + split; [intros _; left | intros _; eauto].
    + rewrite IH. split; [intros H; by right | intros H].
      apply elem_of_cons in H as [H|H]; [congruence | exact H].
Qed.

Lemma names_add_store env cache cs u : names (add_store env cache cs u) = names cs.
Proof.
  unfold add_store. destruct (fetched env u); [apply names_update_cache | reflexivity].
Qed.

Lemma names_foldl_add_store env cache urls : ∀ cs,
  names (foldl (add_store env cache) cs urls) = names cs.
Proof.
  induction urls as [|u t IH]; intros cs; simpl; [reflexivity|].
  rewrite IH. apply names_add_store.
Qed.

(** Every entry after the adds is an old one or the response of a listed
    asset that was fetched. *)
Lemma foldl_add_store_provenance env cache urls : ∀ cs n key,
  entry (foldl (add_store env cache) cs urls) n key = entry cs n key ∨
  ∃ u r, u ∈ urls ∧ key = resolve env u ∧ fetched env u = Some r ∧
         entry (foldl (add_store env cache) cs urls) n key = Some r.
Proof.
  induction urls as [|u t IH]; intros cs n key; simpl; [by left|].
  destruct (IH (add_store env cache cs u) n key) as [Heq|(u' & r & Hin & Hk & Hf & He)].
  - rewrite Heq. unfold add_store. destruct (fetched env u) as [r|] eqn:Hf; [|by left].
    rewrite entry_update_insert.
    destruct (decide (cache = n ∧ resolve env u = key)) as [[-> <-]|]; [|by left].
    destruct (find_cache n cs) eqn:Hc.
    + right. exists u, r. split; [left|]. split; [reflexivity|]. split; [exact Hf|].
      reflexivity.
    + left. unfold entry. rewrite Hc. reflexivity.
  - right. exists u', r. split; [by right|]. by repeat split.
Qed.

Lemma fetched_same_key env u u' :
  resolve env u = resolve env u' → fetched env u = fetched env u'.
Proof. unfold fetched, request_of_url. intros ->. reflexivity. Qed.

Lemma foldl_add_store_present env cache urls : ∀ cs u r,
  cache ∈ names cs → u ∈ urls → fetched env u = Some r →
  entry (foldl (add_store env cache) cs urls) cache (resolve env u) = Some r.
Proof.
  induction urls as [|u0 t IH]; intros cs u r Hc Hin Hf; [inversion Hin|].
  simpl. apply elem_of_cons in Hin as [->|Hin].
  - destruct (foldl_add_store_provenance env cache t (add_store env cache cs u0)
                cache (resolve env u0)) as [Heq|(u' & r' & _ & Hk & Hf' & He)].
    + rewrite Heq. unfold add_store. rewrite Hf, entry_update_insert.
      rewrite decide_True by done.
      apply find_cache_is_Some in Hc as [c ->]. reflexivity.
    + rewrite He. rewrite <- (fetched_same_key env u0 u' Hk), Hf in Hf'. congruence.
  - apply IH; [|exact Hin|exact Hf]. by rewrite names_add_store.
Qed.

Lemma add_events_warn env u urls :
  u ∈ urls → fetched env u = None →
  Console "warn" ("[SW] Failed to cache " +:+ u +:+ ":")
    ∈ concat (map (add_events env) urls).
Proof.
  intros Hin Hf. induction urls as [|u0 t IH]; [inversion Hin|].
  change (concat (map (add_events env) (u0 :: t)))
    with (add_events env u0 ++ concat (map (add_events env) t)).
  apply elem_of_app. apply elem_of_cons in Hin as [->|Hin].
  - left. unfold add_events. rewrite Hf. right. left.
  - right. by apply IH.
Qed.

(** An answer that [cache.add] and [cache.addAll] refuse. *)
Lemma unfetched env u r :
  network env (request_of_url env u) = inr r →
  ok r = false ∨ status r = 206%Z ∨ varies_on_all r = true →
  fetched env u = None.
Proof.
  intros Hn Hbad. unfold fetched. rewrite Hn.
  assert (Hf : ok r && storable r = false); [|by rewrite Hf].
  apply andb_false_iff. destruct Hbad as [Hok|[Hst|Hv]]; [by left|right|right];
    unfold storable; apply andb_false_iff.
  - left. by rewrite (bool_decide_eq_true_2 _ Hst).
  - right. by rewrite Hv.
Qed.

(** In [src/sw.js], for every asset list: the install promise fulfils, so
    the worker becomes installed, and [skipWaiting] is called; every listed
    asset that was fetched, with an answer that [cache.add] accepts, is in
    the current cache afterwards; every listed asset that was not is
    reported by a warning.  An answer that is not [ok], that is partial
    (status 206) or whose [Vary] header lists [*] is one that [cache.add]
    refuses: the asset is warned about, and what the cache holds under
    its URL is what it held before. *)
Theorem SW_install_tolerates_asset_failures
    (env : Env) (urls : list string) (cs : CacheStorage) :
  outcome (SW.install env urls cs) = Fulfilled tt ∧
  after_install (outcome (SW.install env urls cs)) = Installed ∧
  SkipWaiting ∈ events (SW.install env urls cs) ∧
  (∀ u r, u ∈ urls → fetched env u = Some r →
          entry (storage (SW.install env urls cs)) SW.CACHE_NAME (resolve env u)
            = Some r) ∧
  (∀ u, u ∈ urls → fetched env u = None →
        Console "warn" ("[SW] Failed to cache " +:+ u +:+ ":")
          ∈ events (SW.install env urls cs)) ∧
  (∀ u r, u ∈ urls → network env (request_of_url env u) = inr r →
          ok r = false ∨ status r = 206%Z ∨ varies_on_all r = true →
          fetched env u = None ∧
          Console "warn" ("[SW] Failed to cache " +:+ u +:+ ":")
            ∈ events (SW.install env urls cs) ∧
          entry (storage (SW.install env urls cs)) SW.CACHE_NAME (resolve env u)
            = entry cs SW.CACHE_NAME (resolve env u)).
Proof.
  rewrite SW_install_run. unfold outcome, storage, events; simpl.
  split; [reflexivity|]. split; [reflexivity|]. split; [|split; [|split]].
  - do 2 right. apply elem_of_app. right. right. left.
  - intros u r Hin Hf. apply foldl_add_store_present; [|exact Hin|exact Hf].
    apply names_open_cache.
  - intros u Hin Hf. do 2 right. apply elem_of_app. left.
    by apply add_events_warn.
  - intros u r Hin Hn Hbad. pose proof (unfetched env u r Hn Hbad) as Hf.
    split; [exact Hf|]. split.
    + do 2 right. apply elem_of_app. left. by apply add_events_warn.
    + destruct (foldl_add_store_provenance env SW.CACHE_NAME urls
                  (open_cache SW.CACHE_NAME cs) SW.CACHE_NAME (resolve env u))
        as [Heq|(u' & r' & _ & Hkey & Hf' & _)].
      * by rewrite Heq, entry_open_cache.
      * rewrite (fetched_same_key env u u' Hkey) in Hf. congruence.
Qed.

(** With [/offline.html] unreachable the install of [src/sw.js] fulfils,
    stores [/index.html] and warns; on a host whose answers are partial
    the shell is warned about and not stored. *)
Lemma SW_install_tolerates_asset_failures_witness :
  "/index.html" ∈ SW.STATIC_CACHE_URLS ∧
  fetched Demo.env "/index.html" = Some (Demo.page "text/html" "<html>") ∧
  "/offline.html" ∈ SW.STATIC_CACHE_URLS ∧
  fetched Demo.env "/offline.html" = None ∧
  outcome (SW.onInstall Demo.env []) = Fulfilled tt ∧
  entry (storage (SW.onInstall Demo.env [])) SW.CACHE_NAME
        (resolve Demo.env "/index.html") = Some (Demo.page "text/html" "<html>") ∧
  Console "warn" "[SW] Failed to cache /offline.html:" ∈ events (SW.onInstall Demo.env []) ∧
  Console "warn" "[SW] Failed to cache /index.html:" ∈ events (SW.onInstall partial_env []) ∧
  entry (storage (SW.onInstall partial_env [])) SW.CACHE_NAME
        (resolve partial_env "/index.html") = None.
Proof.
  assert (H1 : "/index.html" ∈ SW.STATIC_CACHE_URLS)
    by (apply list_elem_of_further, list_elem_of_here).
  assert (H2 : "/offline.html" ∈ SW.STATIC_CACHE_URLS)
    by (do 2 apply list_elem_of_further; apply list_elem_of_here).
  assert (F1 : fetched Demo.env "/index.html" = Some (Demo.page "text/html" "<html>"))
    by reflexivity.
  assert (F2 : fetched Demo.env "/offline.html" = None) by reflexivity.
  destruct (SW_install_tolerates_asset_failures Demo.env SW.STATIC_CACHE_URLS [])
    as (Hout & _ & _ & Hin & Hwarn & _).
  split; [exact H1|]. split; [exact F1|]. split; [exact H2|]. split; [exact F2|].
  split; [exact Hout|]. split; [|split].
  - exact (Hin "/index.html" _ H1 F1).
  - exact (Hwarn "/offline.html" H2 F2).
  - destruct (SW_install_tolerates_asset_failures partial_env SW.STATIC_CACHE_URLS [])
      as (_ & _ & _ & _ & _ & Hbad).
    destruct (Hbad "/index.html" partial_page H1 eq_refl
                (or_intror (or_introl eq_refl))) as (_ & Hw & He).
    split; [exact Hw | exact He].
Defined.

(** The fetches of [cache.addAll] leave the storage alone, and reject as
    soon as one listed asset is not fetched. *)
Lemma fetch_ok_run env u cs :
  fetch_ok env (request_of_url env u) cs =
    (match network env (request_of_url env u) with
     | inl e => Rejected e
     | inr r =>
         if ok r && storable r then Fulfilled r
         else Rejected (TypeError "Request failed")
     end, cs, [NetFetch (request_of_url env u)]).
Proof.
  unfold fetch_ok. run.
  destruct (network env (request_of_url env u)) as [e|r]; [reflexivity|].
  destruct (ok r && storable r); reflexivity.
Qed.

Lemma fetch_ok_rejects env u cs :
  fetched env u = None → ∃ e, outcome (fetch_ok env (request_of_url env u) cs) = Rejected e.
Proof.
  rewrite fetch_ok_run. unfold fetched, outcome. simpl.
  destruct (network env (request_of_url env u)) as [e|r]; [by eexists|].
  destruct (ok r && storable r); [discriminate | by eexists].
Qed.

Lemma promise_all_fetches_storage env us cs :
  storage (promise_all (map (λ u, fetch_ok env (request_of_url env u)) us) cs) = cs.
Proof.
  induction us as [|u t IH]; [reflexivity|].
  simpl. rewrite fetch_ok_run.
  destruct (promise_all (map (λ u, fetch_ok env (request_of_url env u)) t) cs)
    as [[o s'] ev]. exact IH.
Qed.

Lemma promise_all_fetches_reject env us cs u :
  u ∈ us → fetched env u = None →
  ∃ e, outcome (promise_all (map (λ u, fetch_ok env (request_of_url env u)) us) cs)
       = Rejected e.
Proof.
  intros Hin Hf. induction us as [|u0 t IH]; [inversion Hin|].
  simpl.
  destruct (fetch_ok env (request_of_url env u0) cs) as [[o1 s1] ev1] eqn:E1.
  assert (Hs1 : s1 = cs) by (rewrite fetch_ok_run in E1; congruence).
  subst s1.
  destruct (promise_all (map (λ u, fetch_ok env (request_of_url env u)) t) cs)
    as [[o2 s2] ev2] eqn:E2.
  unfold outcome; simpl.
  apply elem_of_cons in Hin as [->|Hin].
  - destruct (fetch_ok_rejects env u0 cs Hf) as [e He].
    rewrite E1 in He. unfold outcome in He; simpl in He. subst o1. by eexists.
  - destruct (IH Hin) as [e He]. unfold outcome in He; simpl in He. subst o2.
    destruct o1; by eexists.
Qed.

(** C5 fails in [src/unnamed/part_000]: as soon as one listed asset is not
    fetched, the install promise rejects, the worker becomes redundant
    instead of installed, and no asset is stored, the fetched ones
    included: the listener only created the current cache. *)
Theorem C5_legacy_install_aborts_on_one_failure
    (env : Env) (urls : list string) (cs : CacheStorage) (u : string) :
  u ∈ urls → fetched env u = None →
  (∃ e, outcome (Legacy.install env urls cs) = Rejected e) ∧
  after_install (outcome (Legacy.install env urls cs)) = Redundant ∧
  storage (Legacy.install env urls cs) = open_cache Legacy.CACHE_NAME cs.
Proof.
  intros Hin Hf.
  destruct (promise_all_fetches_reject env urls (open_cache Legacy.CACHE_NAME cs) u
              Hin Hf) as [e He].
  pose proof (promise_all_fetches_storage env urls (open_cache Legacy.CACHE_NAME cs))
    as Hs.
  unfold Legacy.install, cache_addAll.
  cbv [mbind Async_bind and_then console caches_open skipWaiting].
  destruct (promise_all (map (λ u, fetch_ok env (request_of_url env u)) urls)
              (open_cache Legacy.CACHE_NAME cs)) as [[o s'] ev].
  unfold outcome in He; unfold storage in Hs; simpl in He, Hs. subst o s'.
  unfold outcome, storage; simpl. split; [by eexists|]. by split.
Qed.

(** The failing input of C5: the legacy worker on a host where only
    [/icons/icon-maskable.png] is unreachable; [/index.html] is fetched
    and not stored. *)
Lemma C5_witness :
  "/icons/icon-maskable.png" ∈ Legacy.urlsToCache ∧
  fetched Demo.one_down_env "/icons/icon-maskable.png" = None ∧
  fetched Demo.one_down_env "/index.html" = Some (Demo.page "text/html" "<html>") ∧
  outcome (Legacy.onInstall Demo.one_down_env []) = Rejected Demo.failed_to_fetch ∧
  after_install (outcome (Legacy.onInstall Demo.one_down_env [])) = Redundant ∧
  storage (Legacy.onInstall Demo.one_down_env []) = [(Legacy.CACHE_NAME, ∅)] ∧
  entry (storage (Legacy.onInstall Demo.one_down_env []))
        Legacy.CACHE_NAME (resolve Demo.one_down_env "/index.html") = None.
Proof.
  assert (Hin : "/icons/icon-maskable.png" ∈ Legacy.urlsToCache)
    by (do 6 apply list_elem_of_further; apply list_elem_of_here).
  assert (Hf : fetched Demo.one_down_env "/icons/icon-maskable.png" = None)
    by reflexivity.
  destruct (C5_legacy_install_aborts_on_one_failure Demo.one_down_env
              Legacy.urlsToCache [] "/icons/icon-maskable.png" Hin Hf)
    as (_ & Hred & Hst).
  split; [exact Hin|]. split; [exact Hf|]. split; [reflexivity|].
  split; [vm_compute; reflexivity|]. split; [exact Hred|].
  split; [exact Hst|]. unfold Legacy.onInstall. rewrite Hst. reflexivity.
Defined.

(** ** Activate *)
Lemma filter_ext_in {A} (P1 P2 : A → Prop)
    `{!∀ x, Decision (P1 x), !∀ x, Decision (P2 x)} (l : list A) :
  (∀ x, x ∈ l → P1 x ↔ P2 x) → filter P1 l = filter P2 l.
Proof.
  induction l as [|a l IH]; intros Hiff; [reflexivity|].
  assert (Ha : P1 a ↔ P2 a) by (apply Hiff; left).
  assert (Hl : filter P1 l = filter P2 l) by (apply IH; intros x Hx; apply Hiff; by right).
  rewrite !filter_cons, Hl.
  destruct (decide (P1 a)), (decide (P2 a)); tauto.
Qed.

Lemma filter_all {A} (P : A → Prop) `{!∀ x, Decision (P x)} (l : list A) :
  (∀ x, x ∈ l → P x) → filter P l = l.
Proof.
  induction l as [|a l IH]; intros Hall; [reflexivity|].
  rewrite filter_cons_True by (apply Hall; left).
  f_equal. apply IH. intros x Hx. apply Hall. by right.
Qed.

Lemma filter_none {A} (P : A → Prop) `{!∀ x, Decision (P x)} (l : list A) :
  (∀ x, x ∈ l → ¬ P x) → filter P l = [].
Proof.
  induction l as [|a l IH]; intros Hnone; [reflexivity|].
  rewrite filter_cons_False by (apply Hnone; left).
  apply IH. intros x Hx. apply Hnone. by right.
Qed.

Lemma names_delete_cache n cs :
  names (delete_cache n cs) = filter (λ x, x ≠ n) (names cs).
Proof.
  unfold names, delete_cache. induction cs as [|[n' c] t IH]; [reflexivity|].
  rewrite fmap_cons, !filter_cons. simpl.
  destruct (decide (n' ≠ n)); [rewrite fmap_cons; simpl; f_equal|]; exact IH.
Qed.

Lemma find_cache_delete_cache n cs cur :
  n ≠ cur → find_cache cur (delete_cache n cs) = find_cache cur cs.
Proof.
  intros Hne. unfold delete_cache. induction cs as [|[n' c] t IH]; [reflexivity|].
  rewrite filter_cons. simpl. destruct (decide (n' ≠ n)) as [Hn|Hn]; simpl.
  - destruct (decide (n' = cur)); [reflexivity | exact IH].
  - apply dec_stable in Hn. subst n'.
    rewrite decide_False by assumption. exact IH.
Qed.

Lemma names_foldl_sweep cur l : ∀ cs,
  names (foldl (sweep cur) cs l) = filter (λ x, x = cur ∨ x ∉ l) (names cs).
Proof.
  induction l as [|n t IH]; intros cs; simpl.
  - symmetry. apply filter_all. intros x _. right. apply not_elem_of_nil.
  - rewrite IH. unfold sweep. destruct (decide (n ≠ cur)) as [Hn|Hn].
    + rewrite names_delete_cache, list_filter_filter.
      apply list_filter_iff. intros x. rewrite not_elem_of_cons.
      intuition congruence.
    + apply dec_stable in Hn. subst n.
      apply list_filter_iff. intros x. rewrite not_elem_of_cons.
      destruct (decide (x = cur)); intuition.
Qed.

Lemma find_cache_foldl_sweep cur l : ∀ cs,
  find_cache cur (foldl (sweep cur) cs l) = find_cache cur cs.
Proof.
  induction l as [|n t IH]; intros cs; simpl; [reflexivity|].
  rewrite IH. unfold sweep. destruct (decide (n ≠ cur)); [|reflexivity].
  by apply find_cache_delete_cache.
Qed.

Lemma filter_current (cur : string) (l : list string) :
  NoDup l → cur ∈ l → filter (λ x, x = cur) l = [cur].
Proof.
  induction 1 as [|x l Hx Hnd IH]; intros Hin; [inversion Hin|].
  rewrite filter_cons. destruct (decide (x = cur)) as [->|Hne].
  - f_equal. apply filter_none. intros y Hy ->. contradiction.
  - apply elem_of_cons in Hin as [->|Hin]; [congruence|]. by apply IH.
Qed.

Lemma names_swept cur cs :
  names (foldl (sweep cur) cs (names cs)) = filter (λ x, x = cur) (names cs).
Proof.
  rewrite names_foldl_sweep. apply filter_ext_in.
  intros x Hx. intuition.
Qed.

Lemma SW_sweep_run l : ∀ cs,
  ∃ ev, promise_all (map SW.delete_if_old l) cs =
          (Fulfilled (map (λ _, tt) l), foldl (sweep SW.CACHE_NAME) cs l, ev).
Proof.
  induction l as [|n t IH]; intros cs; simpl; [by eexists|].
  unfold SW.delete_if_old at 1, sweep at 2. run.
  destruct (decide (n ≠ SW.CACHE_NAME)); simpl;
    match goal with |- context [promise_all _ ?s] => destruct (IH s) as [ev ->] end;
    by eexists.
Qed.

Lemma Legacy_sweep_run l : ∀ cs,
  ∃ ev, promise_all (map Legacy.delete_if_old l) cs =
          (Fulfilled (map (λ _, tt) l), foldl (sweep Legacy.CACHE_NAME) cs l, ev).
Proof.
  induction l as [|n t IH]; intros cs; simpl; [by eexists|].
  unfold Legacy.delete_if_old at 1, sweep at 2. run.
  destruct (decide (n ≠ Legacy.CACHE_NAME)); simpl;
    match goal with |- context [promise_all _ ?s] => destruct (IH s) as [ev ->] end;
    by eexists.
Qed.

Lemma SW_onActivate_run cs :
  ∃ ev, SW.onActivate cs =
          (Fulfilled tt, foldl (sweep SW.CACHE_NAME) cs (names cs), ev).
Proof.
  unfold SW.onActivate. run. simpl.
  destruct (SW_sweep_run (names cs) cs) as [ev ->]. by eexists.
Qed.

Lemma Legacy_onActivate_run cs :
  ∃ ev, Legacy.onActivate cs =
          (Fulfilled tt, foldl (sweep Legacy.CACHE_NAME) cs (names cs), ev).
Proof.
  unfold Legacy.onActivate. run.
  destruct (Legacy_sweep_run (names cs) cs) as [ev ->]. by eexists.
Qed.

Lemma well_formed_open n cs : well_formed cs → well_formed (open_cache n cs).
Proof.
  unfold well_formed, open_cache. intros Hnd.
  destruct (find_cache n cs) as [c|] eqn:E; [exact Hnd|].
  unfold names. rewrite fmap_app. apply NoDup_app. split; [exact Hnd|]. split.
  - intros x Hx Hx'. apply list_elem_of_singleton in Hx' as ->.
    change (n ∈ names cs) in Hx.
    apply find_cache_is_Some in Hx as [c Hc]. congruence.
  - apply NoDup_singleton.
Qed.

Lemma SW_install_names env urls cs :
  names (storage (SW.install env urls cs)) = names (open_cache SW.CACHE_NAME cs).
Proof. rewrite SW_install_run. apply names_foldl_add_store. Qed.

Lemma put_all_names h items : ∀ cs, names (storage (put_all h items cs)) = names cs.
Proof.
  induction items as [|[q r] t IH]; intros cs; [reflexivity|].
  simpl. cbv [mbind Async_bind and_then cache_put].
  destruct (decide (method q = "GET")); [|reflexivity].
  destruct (storable r); [|reflexivity].
  specialize (IH (update_cache h (λ c, <[url q := r]> c) cs)).
  destruct (put_all h t (update_cache h (λ c, <[url q := r]> c) cs)) as [[o s'] ev].
  unfold storage in *; simpl in *. rewrite IH. apply names_update_cache.
Qed.

Lemma cache_addAll_names env h us cs :
  names (storage (cache_addAll env h us cs)) = names cs.
Proof.
  pose proof (promise_all_fetches_storage env us cs) as Hs.
  unfold cache_addAll. cbv [mbind Async_bind and_then].
  destruct (promise_all (map (λ u, fetch_ok env (request_of_url env u)) us) cs)
    as [[o s'] ev].
  unfold storage in Hs; simpl in Hs. subst s'.
  destruct o as [rs|e]; [|reflexivity].
  destruct (bool_decide (NoDup (map (resolve env) us))); [|reflexivity].
  pose proof (put_all_names h (zip (map (request_of_url env) us) rs) cs) as Hp.
  destruct (put_all h (zip (map (request_of_url env) us) rs) cs) as [[o2 s2] ev2].
  exact Hp.
Qed.

Lemma Legacy_install_names env urls cs :
  names (storage (Legacy.install env urls cs))
    = names (open_cache Legacy.CACHE_NAME cs).
Proof.
  pose proof (cache_addAll_names env Legacy.CACHE_NAME urls
                (open_cache Legacy.CACHE_NAME cs)) as Ha.
  unfold Legacy.install. cbv [mbind Async_bind and_then console caches_open skipWaiting].
  destruct (cache_addAll env Legacy.CACHE_NAME urls (open_cache Legacy.CACHE_NAME cs))
    as [[o s'] ev].
  destruct o; exact Ha.
Qed.

Lemma swept_only_current cur cs n :
  n ∈ names (foldl (sweep cur) cs (names cs)) → n = cur.
Proof. rewrite names_swept. intros H. by apply list_elem_of_filter in H as [-> _]. Qed.

Lemma swept_exactly_current cur cs :
  well_formed cs → cur ∈ names cs →
  names (foldl (sweep cur) cs (names cs)) = [cur].
Proof. intros Hnd Hin. rewrite names_swept. by apply filter_current. Qed.

(** C6. After the activate listener of either worker completes, every
    surviving cache version bears the current name; on a storage whose
    names are distinct and that holds the current version, exactly that
    version survives, with its entries; and since the install listener
    opens the current cache, install followed by activate ends with the
    current version alone, in either worker. *)
Theorem C6_activation_keeps_only_current :
  (∀ (cs : CacheStorage),
     well_formed cs → SW.CACHE_NAME ∈ names cs →
     outcome (SW.onActivate cs) = Fulfilled tt ∧
     names (storage (SW.onActivate cs)) = [SW.CACHE_NAME] ∧
     find_cache SW.CACHE_NAME (storage (SW.onActivate cs))
       = find_cache SW.CACHE_NAME cs) ∧
  (∀ (cs : CacheStorage) (n : string),
     n ∈ names (storage (SW.onActivate cs)) → n = SW.CACHE_NAME) ∧
  (∀ (env : Env) (cs : CacheStorage),
     well_formed cs →
     names (storage (SW.onActivate (storage (SW.onInstall env cs)))) = [SW.CACHE_NAME]) ∧
  (∀ (cs : CacheStorage),
     well_formed cs → Legacy.CACHE_NAME ∈ names cs →
     outcome (Legacy.onActivate cs) = Fulfilled tt ∧
     names (storage (Legacy.onActivate cs)) = [Legacy.CACHE_NAME] ∧
     find_cache Legacy.CACHE_NAME (storage (Legacy.onActivate cs))
       = find_cache Legacy.CACHE_NAME cs) ∧
  (∀ (cs : CacheStorage) (n : string),
     n ∈ names (storage (Legacy.onActivate cs)) → n = Legacy.CACHE_NAME) ∧
  (∀ (env : Env) (cs : CacheStorage),
     well_formed cs →
     names (storage (Legacy.onActivate (storage (Legacy.onInstall env cs))))
       = [Legacy.CACHE_NAME]).
Proof.
  split; [|split; [|split; [|split; [|split]]]].
  - intros cs Hnd Hin. destruct (SW_onActivate_run cs) as [ev ->].
    unfold outcome, storage; simpl. split; [reflexivity|]. split.
    + by apply swept_exactly_current.
    + apply find_cache_foldl_sweep.
  - intros cs n. destruct (SW_onActivate_run cs) as [ev ->].
    apply swept_only_current.
  - intros env cs Hnd.
    destruct (SW_onActivate_run (storage (SW.onInstall env cs))) as [ev ->].
    unfold storage at 1; simpl. apply swept_exactly_current.
    + unfold well_formed, SW.onInstall. rewrite SW_install_names.
      by apply well_formed_open.
    + unfold SW.onInstall. rewrite SW_install_names. apply names_open_cache.
  - intros cs Hnd Hin. destruct (Legacy_onActivate_run cs) as [ev ->].
    unfold outcome, storage; simpl. split; [reflexivity|]. split.
    + by apply swept_exactly_current.
    + apply find_cache_foldl_sweep.
  - intros cs n. destruct (Legacy_onActivate_run cs) as [ev ->].
    apply swept_only_current.
  - intros env cs Hnd.
    destruct (Legacy_onActivate_run (storage (Legacy.onInstall env cs))) as [ev ->].
    unfold storage at 1; simpl. apply swept_exactly_current.
    + unfold well_formed, Legacy.onInstall. rewrite Legacy_install_names.
      by apply well_formed_open.
    + unfold Legacy.onInstall. rewrite Legacy_install_names. apply names_open_cache.
Qed.

(** C6 at a concrete input: of three cache versions only the current one
    survives activation. *)
Lemma C6_witness :
  well_formed Demo.versions_store ∧
  SW.CACHE_NAME ∈ names Demo.versions_store ∧
  (outcome (SW.onActivate Demo.versions_store) = Fulfilled tt ∧
   names (storage (SW.onActivate Demo.versions_store)) = [SW.CACHE_NAME] ∧
   find_cache SW.CACHE_NAME (storage (SW.onActivate Demo.versions_store))
     = find_cache SW.CACHE_NAME Demo.versions_store) ∧
  names (storage (SW.onActivate (storage (SW.onInstall Demo.env Demo.versions_store))))
    = [SW.CACHE_NAME].
Proof.
  assert (Hnd : well_formed Demo.versions_store).
  { unfold well_formed.
    apply (bool_decide_eq_true_1 (NoDup (names Demo.versions_store))).
    vm_compute. reflexivity. }
  assert (Hin : SW.CACHE_NAME ∈ names Demo.versions_store).
  { apply list_elem_of_further, list_elem_of_here. }
  split; [exact Hnd|]. split; [exact Hin|]. split.
  - exact (proj1 C6_activation_keeps_only_current Demo.versions_store Hnd Hin).
  - exact (proj1 (proj2 (proj2 C6_activation_keeps_only_current))
             Demo.env Demo.versions_store Hnd).
Defined.

(** ** Further properties of the interceptors and of the sync queue *)
Lemma match_all_None_entry u cs n : match_all u cs = None → entry cs n u = None.
Proof.
  unfold entry. induction cs as [|[n' c] t IH]; simpl; [reflexivity|].
  destruct (c !! u) eqn:E; [discriminate|]. intros Hm.
  destruct (decide (n' = n)); [exact E | by apply IH].
Qed.

Lemma match_all_update_insert n u r cs :
  match_all u cs = None → n ∈ names cs →
  match_all u (update_cache n (λ c, <[u := r]> c) cs) = Some r.
Proof.
  induction cs as [|[n' c] t IH]; simpl; intros Hm Hin; [inversion Hin|].
  destruct (c !! u) eqn:E; [discriminate|].
  destruct (decide (n' = n)) as [->|Hne]; simpl.
  - rewrite lookup_insert_eq. reflexivity.
  - rewrite E. apply IH; [exact Hm|].
    apply elem_of_cons in Hin as [Hin|Hin]; [congruence | exact Hin].
Qed.

Lemma storable_200 r : status r = 200%Z → storable r = negb (varies_on_all r).
Proof.
  intros H. unfold storable. by rewrite bool_decide_eq_false_2 by (rewrite H; discriminate).
Qed.

Lemma respond_cacheable_GET env req cs p resp :
  p = SW.respond env req ∨ p = Legacy.respond env req →
  method req = "GET" → lookup_all req cs = None → network env req = inr resp →
  status resp = 200%Z → type resp = "basic" → storable resp = true →
  ∃ current,
    outcome (p cs) = Fulfilled (Some resp) ∧
    storage (p cs) =
      update_cache current (λ c, <[url req := resp]> c) (open_cache current cs).
Proof.
  intros Hp Hg Hl Hn Hs Ht Hv. destruct Hp as [-> | ->].
  - exists SW.CACHE_NAME. rewrite (SW_respond_cacheable env req cs Hl resp Hn Hs Ht).
    unfold outcome, storage; simpl. rewrite decide_True, Hv by assumption. by split.
  - exists Legacy.CACHE_NAME.
    rewrite (Legacy_respond_cacheable env req cs Hl resp Hn Hs Ht).
    unfold outcome, storage; simpl. rewrite decide_True, Hv by assumption. by split.
Qed.

(** A 200 basic answer to a GET that a cache does not store: the put is
    rejected, nobody handles the rejection, and the answer is returned. *)
Lemma respond_unstorable_GET env req cs p resp :
  p = SW.respond env req ∨ p = Legacy.respond env req →
  method req = "GET" → lookup_all req cs = None → network env req = inr resp →
  status resp = 200%Z → type resp = "basic" → storable resp = false →
  ∃ current,
    p cs =
      (Fulfilled (Some resp), open_cache current cs,
       miss_events req ++ [UnhandledRejection (TypeError "Response is not storable")]).
Proof.
  intros Hp Hg Hl Hn Hs Ht Hv. destruct Hp as [-> | ->].
  - exists SW.CACHE_NAME. rewrite (SW_respond_cacheable env req cs Hl resp Hn Hs Ht).
    by rewrite !decide_True, Hv by assumption.
  - exists Legacy.CACHE_NAME.
    rewrite (Legacy_respond_cacheable env req cs Hl resp Hn Hs Ht).
    by rewrite !decide_True, Hv by assumption.
Qed.

(** For every intercepted GET request that misses the cache and is answered
    by the network with status 200 and type [basic], in either worker, the
    response is returned.  Unless its [Vary] header lists [*], the storage
    holds it under the request's URL afterwards, and intercepting the same
    request again serves it from the cache without a network request.
    When its [Vary] header lists [*], the cache refuses it: no entry has
    changed, the same request misses the cache again, and the rejected
    [cache.put] is left unhandled. *)
Theorem fetched_response_is_cached_then_hit
    (env : Env) (req : Request) (p : Async (option Response))
    (cs : CacheStorage) (resp : Response) :
  SW.onFetch env req = Some p ∨ Legacy.onFetch env req = Some p →
  method req = "GET" →
  lookup_all req cs = None →
  network env req = inr resp →
  status resp = 200%Z → type resp = "basic" →
  outcome (p cs) = Fulfilled (Some resp) ∧
  (varies_on_all resp = false →
   lookup_all req (storage (p cs)) = Some resp ∧
   ∃ ev, p (storage (p cs)) = (Fulfilled (Some resp), storage (p cs), ev) ∧
         ∀ q, NetFetch q ∉ ev) ∧
  (varies_on_all resp = true →
   lookup_all req (storage (p cs)) = None ∧
   same_entries cs (storage (p cs)) ∧
   UnhandledRejection (TypeError "Response is not storable") ∈ events (p cs)).
Proof.
  intros Hp Hg Hl Hn Hs Ht.
  pose proof (onFetch_respond env req p Hp) as Hr.
  pose proof (storable_200 resp Hs) as Hsto.
  destruct (varies_on_all resp) eqn:Hv; simpl in Hsto.
  - destruct (respond_unstorable_GET env req cs p resp Hr Hg Hl Hn Hs Ht Hsto)
      as (current & Hrun).
    rewrite Hrun. unfold outcome, storage, events; simpl.
    split; [reflexivity|]. split; [discriminate|]. intros _.
    split; [|split].
    + unfold lookup_all in *. rewrite decide_True in * by assumption.
      by rewrite match_all_open_cache.
    + apply same_entries_open.
    + do 2 apply list_elem_of_further. apply list_elem_of_here.
  - destruct (respond_cacheable_GET env req cs p resp Hr Hg Hl Hn Hs Ht Hsto)
      as (current & Hout & Hst).
    assert (Hhit : lookup_all req (storage (p cs)) = Some resp).
    { rewrite Hst. unfold lookup_all in *. rewrite decide_True in * by assumption.
      apply match_all_update_insert; [|apply names_open_cache].
      by rewrite match_all_open_cache. }
    split; [exact Hout|]. split; [|discriminate]. intros _. split; [exact Hhit|].
    exists [Console "log" "[SW] Serving from cache:"]. split.
    + destruct Hr as [-> | ->].
      * by apply SW_respond_hit.
      * by apply Legacy_respond_hit.
    + intros q Hq. apply list_elem_of_singleton in Hq. discriminate.
Qed.

(** The shell page fetched by [src/sw.js] on an empty storage is cached and
    served from the cache next time; the same page served with
    [Vary: accept-encoding, *] is returned and not cached. *)
Lemma fetched_response_is_cached_then_hit_witness :
  SW.onFetch Demo.env Demo.html_request = Some (SW.respond Demo.env Demo.html_request) ∧
  outcome (SW.respond Demo.env Demo.html_request [])
    = Fulfilled (Some (Demo.page "text/html" "<html>")) ∧
  lookup_all Demo.html_request (storage (SW.respond Demo.env Demo.html_request []))
    = Some (Demo.page "text/html" "<html>") ∧
  varies_on_all varying_page = true ∧
  outcome (SW.respond varying_env Demo.html_request []) = Fulfilled (Some varying_page) ∧
  lookup_all Demo.html_request (storage (SW.respond varying_env Demo.html_request []))
    = None.
Proof.
  split; [reflexivity|].
  destruct (fetched_response_is_cached_then_hit Demo.env Demo.html_request
              (SW.respond Demo.env Demo.html_request) []
              (Demo.page "text/html" "<html>")) as (Hout & Hhit & _).
  - left. reflexivity.
  - reflexivity.
  - reflexivity.
  - vm_compute. reflexivity.
  - reflexivity.
  - reflexivity.
  - split; [exact Hout|]. split; [exact (proj1 (Hhit eq_refl))|].
    split; [reflexivity|].
    destruct (fetched_response_is_cached_then_hit varying_env Demo.html_request
                (SW.respond varying_env Demo.html_request) [] varying_page)
      as (Hout' & _ & Hvar).
    + left. reflexivity.
    + reflexivity.
    + reflexivity.
    + reflexivity.
    + reflexivity.
    + reflexivity.
    + split; [exact Hout' | exact (proj1 (Hvar eq_refl))].
Defined.

(** An interception never removes or replaces an entry: whatever a cache
    held before, it holds afterwards, in either worker. *)
Theorem interception_keeps_every_entry
    (env : Env) (req : Request) (p : Async (option Response))
    (cs : CacheStorage) (name u : string) (r : Response) :
  SW.onFetch env req = Some p ∨ Legacy.onFetch env req = Some p →
  entry cs name u = Some r →
  entry (storage (p cs)) name u = Some r.
Proof.
  intros Hp Hent. pose proof (onFetch_respond env req p Hp) as Hr.
  destruct (respond_summary env req cs p Hr) as [[Hsame|(resp & Hn & Hs & Ht & Hg)] _].
  { by rewrite Hsame. }
  destruct (lookup_all req cs) as [r0|] eqn:Hl.
  - destruct Hr as [-> | ->];
      [rewrite (SW_respond_hit env req cs r0 Hl)
      |rewrite (Legacy_respond_hit env req cs r0 Hl)]; exact Hent.
  - destruct (storable resp) eqn:Hv.
    + destruct (respond_cacheable_GET env req cs p resp Hr Hg Hl Hn Hs Ht Hv)
        as (current & _ & ->).
      rewrite entry_update_insert, entry_open_cache.
      destruct (decide (current = name ∧ url req = u)) as [[-> <-]|]; [|exact Hent].
      unfold lookup_all in Hl. rewrite decide_True in Hl by assumption.
      rewrite (match_all_None_entry _ _ name Hl) in Hent. discriminate.
    + destruct (respond_unstorable_GET env req cs p resp Hr Hg Hl Hn Hs Ht Hv)
        as (current & ->).
      unfold storage; simpl. by rewrite entry_open_cache.
Qed.

(** The legacy worker caches the manifest and keeps the cached shell. *)
Lemma interception_keeps_every_entry_witness :
  entry (Demo.shell_store Legacy.CACHE_NAME) Legacy.CACHE_NAME (Demo.app +:+ "/index.html")
    = Some (Demo.page "text/html" "<html>") ∧
  entry (storage (Legacy.respond Demo.env (Demo.get (Demo.app +:+ "/manifest.json") [])
                    (Demo.shell_store Legacy.CACHE_NAME)))
        Legacy.CACHE_NAME (Demo.app +:+ "/index.html")
    = Some (Demo.page "text/html" "<html>") ∧
  entry (storage (Legacy.respond Demo.env (Demo.get (Demo.app +:+ "/manifest.json") [])
                    (Demo.shell_store Legacy.CACHE_NAME)))
        Legacy.CACHE_NAME (Demo.app +:+ "/manifest.json")
    = Some (Demo.page "application/json" "{}").
Proof.
  assert (H : entry (Demo.shell_store Legacy.CACHE_NAME) Legacy.CACHE_NAME
                    (Demo.app +:+ "/index.html")
              = Some (Demo.page "text/html" "<html>")) by (vm_compute; reflexivity).
  split; [exact H|]. split.
  - apply (interception_keeps_every_entry Demo.env
             (Demo.get (Demo.app +:+ "/manifest.json") [])); [right; reflexivity | exact H].
  - vm_compute. reflexivity.
Defined.

(** A request to another origin is not intercepted by either worker, and
    [src/sw.js] does not intercept a request whose URL does not start with
    [http] either. *)
Theorem foreign_requests_pass_through (env : Env) (req : Request) :
  (startsWith (url req) (origin env) = false →
   SW.onFetch env req = None ∧ Legacy.onFetch env req = None) ∧
  (startsWith (url req) "http" = false → SW.onFetch env req = None).
Proof.
  unfold SW.onFetch, Legacy.onFetch. split.
  - intros ->. simpl. split; [|reflexivity].
    destruct (negb (startsWith (url req) "http")); reflexivity.
  - intros ->. reflexivity.
Qed.

(** A request for a font on another origin passes through. *)
Lemma foreign_requests_pass_through_witness :
  SW.onFetch Demo.env (Demo.get "https://fonts.example/a.woff2" []) = None ∧
  Legacy.onFetch Demo.env (Demo.get "https://fonts.example/a.woff2" []) = None.
Proof.
  apply (proj1 (foreign_requests_pass_through Demo.env
                  (Demo.get "https://fonts.example/a.woff2" []))).
  reflexivity.
Defined.

(** A second [CACHE_EMERGENCY_DATA] message overwrites the pending item of
    the first: the emergency key holds the item written last. *)
Theorem message_overwrites_pending_item
    (env : Env) (first second : option string) (cs : CacheStorage) :
  entry (storage (SW.onMessage env (Some (cache_emergency_data second))
                    (storage (SW.onMessage env (Some (cache_emergency_data first)) cs))))
        SW.CACHE_NAME (emergency_key env)
    = Some (new_Response second []).
Proof. apply onMessage_entry. Qed.

(** An item queued by the [CACHE_EMERGENCY_DATA] message whose text parses
    is gone from the current cache once the [sync] trigger tagged
    [emergency-data-sync] has been handled, and the trigger's promise
    fulfils. *)
Theorem queued_item_is_flushed_by_its_tag
    (env : Env) (text : option string) (cs0 : CacheStorage) :
  json_parses env (body (new_Response text [])) = true →
  let cs1 := storage (SW.onMessage env (Some (cache_emergency_data text)) cs0) in
  outcome (SW.onSync env "emergency-data-sync" cs1) = Fulfilled tt ∧
  entry (storage (SW.onSync env "emergency-data-sync" cs1))
        SW.CACHE_NAME (emergency_key env) = None.
Proof.
  intros Hp cs1.
  pose proof (onMessage_entry env text cs0) as Hent. fold cs1 in Hent.
  destruct (flush_settles _ _ _ cs1 _ _ _ _ (syncEmergencyData_run env cs1))
    as (Hful & _ & _ & Hok).
  specialize (Hok _ Hent Hp). split.
  - unfold SW.onSync. run. rewrite decide_True by reflexivity.
    destruct (SW.syncEmergencyData env cs1) as [[o s] ev].
    unfold outcome in *; simpl in *. by subst o.
  - rewrite onSync_storage, decide_True by reflexivity. by apply (Hful tt).
Qed.

(** Queue the payload [[1]], trigger [emergency-data-sync]: the key is
    gone. *)
Lemma queued_item_is_flushed_by_its_tag_witness :
  let cs1 := storage (SW.onMessage Demo.env (Some (cache_emergency_data (Some "[1]"))) []) in
  entry cs1 SW.CACHE_NAME (emergency_key Demo.env) = Some (new_Response (Some "[1]") []) ∧
  outcome (SW.onSync Demo.env "emergency-data-sync" cs1) = Fulfilled tt ∧
  entry (storage (SW.onSync Demo.env "emergency-data-sync" cs1))
        SW.CACHE_NAME (emergency_key Demo.env) = None.
Proof.
  intros cs1. split; [apply onMessage_entry|].
  apply (queued_item_is_flushed_by_its_tag Demo.env (Some "[1]") []). reflexivity.
Defined.

(** ** The version set under the events of [src/sw.js]

    Properties of the set of cache names that are kept by opening the
    current cache and by deleting any other one are kept by every promise
    built from the platform's operations, as long as only the current
    cache is opened and only other ones are deleted. *)
Lemma names_open_names n cs : names (open_cache n cs) = open_names n (names cs).
Proof.
  unfold open_cache, open_names.
  destruct (find_cache n cs) as [c|] eqn:E.
  - rewrite decide_True; [reflexivity|]. apply find_cache_is_Some. eauto.
  - rewrite decide_False.
    + unfold names. rewrite fmap_app. reflexivity.
    + intros Hin. apply find_cache_is_Some in Hin as [c Hc]. congruence.
Qed.

Section Preservation.
Variables (P : list string → Prop) (cur : string).
Hypothesis P_open : ∀ l, P l → P (open_names cur l).
Hypothesis P_delete : ∀ n l, n ≠ cur → P l → P (filter (λ x, x ≠ n) l).

Lemma preserves_pure {A} (m : Async A) :
  (∀ cs, storage (m cs) = cs) → preserves P m.
Proof. intros H cs HP. by rewrite H. Qed.

Lemma preserves_resolved {A} (a : A) : preserves P (resolved a).
Proof. by apply preserves_pure. Qed.

Lemma preserves_mret {A} (a : A) : preserves P (mret a : Async A).
Proof. by apply preserves_pure. Qed.

Lemma preserves_throw {A} (e : JsError) : preserves P (throw e : Async A).
Proof. by apply preserves_pure. Qed.

Lemma preserves_console level msg : preserves P (console level msg).
Proof. by apply preserves_pure. Qed.

Lemma preserves_skipWaiting : preserves P skipWaiting.
Proof. by apply preserves_pure. Qed.

Lemma preserves_clients_claim : preserves P clients_claim.
Proof. by apply preserves_pure. Qed.

Lemma preserves_fetch env req : preserves P (fetch env req).
Proof. by apply preserves_pure. Qed.

Lemma preserves_caches_keys : preserves P caches_keys.
Proof. by apply preserves_pure. Qed.

Lemma preserves_caches_match req : preserves P (caches_match req).
Proof. by apply preserves_pure. Qed.

Lemma preserves_cache_match h req : preserves P (cache_match h req).
Proof. by apply preserves_pure. Qed.

Lemma preserves_response_json env r : preserves P (response_json env r).
Proof.
  apply preserves_pure. intros cs. unfold response_json.
  destruct (json_parses env (body r)); reflexivity.
Qed.

Lemma preserves_caches_open : preserves P (caches_open cur).
Proof.
  intros cs HP. unfold caches_open, storage; simpl.
  rewrite names_open_names. by apply P_open.
Qed.

Lemma preserves_caches_delete n : n ≠ cur → preserves P (caches_delete n).
Proof.
  intros Hn cs HP. unfold caches_delete, storage; simpl.
  rewrite names_delete_cache. by apply P_delete.
Qed.

Lemma preserves_cache_put h req resp : preserves P (cache_put h req resp).
Proof.
  intros cs HP. unfold cache_put.
  destruct (decide (method req = "GET")); [destruct (storable resp)|];
    unfold storage; simpl; [|exact HP|exact HP].
  by rewrite names_update_cache.
Qed.

Lemma preserves_cache_delete h req : preserves P (cache_delete h req).
Proof.
  intros cs HP. unfold cache_delete.
  destruct (decide (method req = "GET")); unfold storage; simpl; [|exact HP].
  by rewrite names_update_cache.
Qed.

Lemma preserves_bind {A B} (p : Async A) (f : A → Async B) :
  preserves P p → (∀ a, preserves P (f a)) → preserves P (p ≫= f).
Proof.
  intros Hp Hf cs HP. specialize (Hp cs HP).
  cbv [mbind Async_bind and_then].
  destruct (p cs) as [[[a|e] cs1] ev1]; unfold storage in *; simpl in *; [|exact Hp].
  specialize (Hf a cs1 Hp). destruct (f a cs1) as [[o cs2] ev2]. exact Hf.
Qed.

Lemma preserves_catch {A} (p : Async A) (h : JsError → Async A) :
  preserves P p → (∀ e, preserves P (h e)) → preserves P (catch p h).
Proof.
  intros Hp Hh cs HP. specialize (Hp cs HP). unfold catch.
  destruct (p cs) as [[[a|e] cs1] ev1]; unfold storage in *; simpl in *; [exact Hp|].
  specialize (Hh e cs1 Hp). destruct (h e cs1) as [[o cs2] ev2]. exact Hh.
Qed.

Lemma preserves_detached {A} (p : Async A) : preserves P p → preserves P (detached p).
Proof.
  intros Hp cs HP. specialize (Hp cs HP). unfold detached.
  destruct (p cs) as [[[a|e] cs1] ev1]; exact Hp.
Qed.

Lemma preserves_promise_all {A} (ps : list (Async A)) :
  Forall (preserves P) ps → preserves P (promise_all ps).
Proof.
  induction 1 as [|p ps Hp Hps IH]; intros cs HP; [exact HP|].
  simpl. specialize (Hp cs HP).
  destruct (p cs) as [[o1 cs1] ev1]. unfold storage in Hp; simpl in Hp.
  specialize (IH cs1 Hp). destruct (promise_all ps cs1) as [[o2 cs2] ev2]. exact IH.
Qed.

Lemma preserves_promise_all_map {A B} (f : A → Async B) (l : list A) :
  (∀ x, preserves P (f x)) → preserves P (promise_all (map f l)).
Proof.
  intros Hf. apply preserves_promise_all. induction l; constructor; auto.
Qed.

Lemma preserves_cache_add env h u : preserves P (cache_add env h u).
Proof.
  unfold cache_add, fetch_ok. apply preserves_bind.
  - apply preserves_bind; [apply preserves_fetch|]. intros r.
    destruct (ok r && storable r); [apply preserves_resolved | apply preserves_throw].
  - intros r. apply preserves_cache_put.
Qed.
End Preservation.

Create HintDb preserve.
#[export] Hint Resolve preserves_resolved preserves_mret preserves_throw preserves_console
  preserves_skipWaiting preserves_clients_claim preserves_fetch preserves_caches_keys
  preserves_caches_match preserves_cache_match preserves_response_json
  preserves_cache_put preserves_cache_delete preserves_cache_add : preserve.

(** Break a promise of a listener into the platform's operations. *)
Ltac preserving :=
  repeat lazymatch goal with
  | |- preserves _ (mbind _ _) => apply preserves_bind
  | |- preserves _ (catch _ _) => apply preserves_catch
  | |- preserves _ (detached _) => apply preserves_detached
  | |- preserves _ (promise_all (map _ _)) => apply preserves_promise_all_map
  | |- preserves _ (match ?x with _ => _ end) => destruct x
  | |- preserves _ _ => solve [eauto with preserve]
  | |- ∀ _, _ => intro
  end.

Section SWListeners.
Variables (P : list string → Prop).
Hypothesis P_open : ∀ l, P l → P (open_names SW.CACHE_NAME l).
Hypothesis P_delete :
  ∀ n l, n ≠ SW.CACHE_NAME → P l → P (filter (λ x, x ≠ n) l).

Lemma SW_open_preserves : preserves P (caches_open SW.CACHE_NAME).
Proof. by apply preserves_caches_open. Qed.

Lemma SW_delete_preserves n : n ≠ SW.CACHE_NAME → preserves P (caches_delete n).
Proof. by apply (preserves_caches_delete P SW.CACHE_NAME). Qed.

Hint Resolve SW_open_preserves SW_delete_preserves : preserve.

Lemma SW_install_preserves env urls : preserves P (SW.install env urls).
Proof.
  unfold SW.install, SW.add_or_warn. preserving.
Qed.

Lemma SW_onActivate_preserves : preserves P SW.onActivate.
Proof.
  unfold SW.onActivate. preserving.
  apply preserves_promise_all.
  apply List.Forall_cons; [|apply List.Forall_cons; [eauto with preserve | apply List.Forall_nil]].
  unfold SW.delete_if_old. preserving.
Qed.

Lemma SW_respond_preserves env req : preserves P (SW.respond env req).
Proof.
  unfold SW.respond, SW.store_response, SW.offline_fallback. preserving.
Qed.

Lemma SW_syncEmergencyData_preserves env : preserves P (SW.syncEmergencyData env).
Proof. unfold SW.syncEmergencyData. preserving. Qed.

Lemma SW_syncStudentScans_preserves env : preserves P (SW.syncStudentScans env).
Proof. unfold SW.syncStudentScans. preserving. Qed.

Lemma SW_onSync_preserves env tag : preserves P (SW.onSync env tag).
Proof.
  unfold SW.onSync. preserving;
    [apply SW_syncEmergencyData_preserves | apply SW_syncStudentScans_preserves].
Qed.

Lemma SW_onPeriodicSync_preserves env tag : preserves P (SW.onPeriodicSync env tag).
Proof.
  unfold SW.onPeriodicSync. preserving.
  apply preserves_promise_all.
  apply List.Forall_cons; [apply SW_syncEmergencyData_preserves|].
  apply List.Forall_cons; [apply SW_syncStudentScans_preserves | apply List.Forall_nil].
Qed.

Lemma SW_onMessage_preserves env data : preserves P (SW.onMessage env data).
Proof. unfold SW.onMessage. preserving. Qed.

Lemma SW_dispatch_preserves env cs d :
  P (names cs) → P (names (SW_dispatch env cs d)).
Proof.
  intros HP. destruct d as [| |req|tag|tag|data]; simpl.
  - exact (SW_install_preserves env SW.STATIC_CACHE_URLS cs HP).
  - by apply SW_onActivate_preserves.
  - destruct (SW.onFetch env req) as [p|] eqn:E; [|exact HP].
    rewrite (SW_onFetch_Some env req p E). by apply SW_respond_preserves.
  - by apply SW_onSync_preserves.
  - by apply SW_onPeriodicSync_preserves.
  - by apply SW_onMessage_preserves.
Qed.

Lemma SW_run_preserves env ds : ∀ cs, P (names cs) → P (names (SW_run env ds cs)).
Proof.
  unfold SW_run. induction ds as [|d t IH]; intros cs HP; [exact HP|].
  simpl. apply IH. by apply SW_dispatch_preserves.
Qed.
End SWListeners.

Lemma NoDup_open_names n l : NoDup l → NoDup (open_names n l).
Proof.
  unfold open_names. intros Hnd. destruct (decide (n ∈ l)); [exact Hnd|].
  apply NoDup_app. split; [exact Hnd|]. split; [|apply NoDup_singleton].
  intros x Hx Hx'. apply list_elem_of_singleton in Hx' as ->. contradiction.
Qed.

Lemma elem_of_open_names cur n l : cur ∈ l → cur ∈ open_names n l.
Proof.
  unfold open_names. intros Hin. destruct (decide (n ∈ l)); [exact Hin|].
  apply elem_of_app. by left.
Qed.

Lemma only_current_open cur l : l = [cur] → open_names cur l = [cur].
Proof.
  intros ->. unfold open_names. rewrite decide_True; [reflexivity|]. left.
Qed.

Lemma only_current_delete (cur n : string) (l : list string) :
  n ≠ cur → l = [cur] → filter (λ x, x ≠ n) l = [cur].
Proof.
  intros Hn ->. rewrite filter_cons, decide_True by congruence. reflexivity.
Qed.

Lemma SW_run_well_formed env ds cs : well_formed cs → well_formed (SW_run env ds cs).
Proof.
  apply (SW_run_preserves (λ l, NoDup l)).
  - intros l. apply NoDup_open_names.
  - intros n l _. apply NoDup_filter.
Qed.

Lemma SW_run_keeps_current env ds cs :
  SW.CACHE_NAME ∈ names cs → SW.CACHE_NAME ∈ names (SW_run env ds cs).
Proof.
  apply (SW_run_preserves (λ l, SW.CACHE_NAME ∈ l)).
  - intros l. apply elem_of_open_names.
  - intros n l Hn Hin. apply list_elem_of_filter. split; [congruence | exact Hin].
Qed.

(** The events of [src/sw.js] keep the names of the cache versions
    distinct, never remove the current version, and create no version
    other than the current one. *)
Theorem SW_events_keep_names_distinct
    (env : Env) (ds : list Dispatch) (cs : CacheStorage) :
  (well_formed cs → well_formed (SW_run env ds cs)) ∧
  (SW.CACHE_NAME ∈ names cs → SW.CACHE_NAME ∈ names (SW_run env ds cs)) ∧
  (∀ n, n ∈ names (SW_run env ds cs) → n ∈ names cs ∨ n = SW.CACHE_NAME).
Proof.
  split; [apply SW_run_well_formed|]. split; [apply SW_run_keeps_current|].
  apply (SW_run_preserves (λ l, ∀ n, n ∈ l → n ∈ names cs ∨ n = SW.CACHE_NAME)).
  - intros l Hl n. unfold open_names. destruct (decide (SW.CACHE_NAME ∈ l)); [by apply Hl|].
    intros Hin. apply elem_of_app in Hin as [Hin|Hin]; [by apply Hl|].
    apply list_elem_of_singleton in Hin. by right.
  - intros m l _ Hl n Hin. apply list_elem_of_filter in Hin as [_ Hin]. by apply Hl.
  - intros n Hin. by left.
Qed.

(** Once the worker of [src/sw.js] has been installed and activated, the
    current version is the only cache version, and it stays the only one
    under every later event: whatever events come between install and
    activate, and whatever events follow. *)
Theorem SW_version_set_after_activation
    (env : Env) (before after : list Dispatch) (cs : CacheStorage) :
  well_formed cs →
  names (SW_run env (InstallEvent :: before ++ ActivateEvent :: after) cs)
    = [SW.CACHE_NAME].
Proof.
  intros Hnd. unfold SW_run. simpl. rewrite foldl_app. simpl.
  fold (SW_run env before (storage (SW.onInstall env cs))).
  set (cs1 := SW_run env before (storage (SW.onInstall env cs))).
  fold (SW_run env after (storage (SW.onActivate cs1))).
  apply (SW_run_preserves (λ l, l = [SW.CACHE_NAME])).
  - intros l. apply only_current_open.
  - intros n l. apply only_current_delete.
  - destruct (SW_onActivate_run cs1) as [ev ->]. unfold storage; simpl.
    apply swept_exactly_current.
    + apply SW_run_well_formed.
      unfold well_formed, SW.onInstall. rewrite SW_install_names.
      by apply well_formed_open.
    + apply SW_run_keeps_current.
      unfold SW.onInstall. rewrite SW_install_names. apply names_open_cache.
Qed.

(** Install, a fetch and a message, activate, then a sync and a fetch, on
    a storage with three versions: the current version alone is left. *)
Lemma SW_version_set_after_activation_witness :
  well_formed Demo.versions_store ∧
  names (SW_run Demo.env
           (InstallEvent
              :: [FetchEvent Demo.html_request;
                  MessageEvent (Some (cache_emergency_data (Some "[1]")))]
              ++ ActivateEvent
              :: [SyncEvent "emergency-data-sync"; FetchEvent Demo.missing_request])
           Demo.versions_store)
    = [SW.CACHE_NAME].
Proof.
  assert (Hnd : well_formed Demo.versions_store).
  { unfold well_formed.
    apply (bool_decide_eq_true_1 (NoDup (names Demo.versions_store))).
    vm_compute. reflexivity. }
  split; [exact Hnd|].
  by apply (SW_version_set_after_activation Demo.env).
Defined.

(** Distinct names stay distinct under an install and a message, and the
    only version they add is the current one. *)
Lemma SW_events_keep_names_distinct_witness :
  well_formed Demo.versions_store ∧
  well_formed (SW_run Demo.env
                 [InstallEvent; MessageEvent (Some (cache_emergency_data None))]
                 Demo.versions_store) ∧
  SW.CACHE_NAME ∈ names (SW_run Demo.env
                 [InstallEvent; MessageEvent (Some (cache_emergency_data None))]
                 Demo.versions_store).
Proof.
  assert (Hnd : well_formed Demo.versions_store).
  { unfold well_formed.
    apply (bool_decide_eq_true_1 (NoDup (names Demo.versions_store))).
    vm_compute. reflexivity. }
  assert (Hin : SW.CACHE_NAME ∈ names Demo.versions_store).
  { apply list_elem_of_further, list_elem_of_here. }
  destruct (SW_events_keep_names_distinct Demo.env
              [InstallEvent; MessageEvent (Some (cache_emergency_data None))]
              Demo.versions_store) as (H1 & H2 & _).
  split; [exact Hnd|]. split; [exact (H1 Hnd) | exact (H2 Hin)].
Defined.

(** In [src/unnamed/part_000] a valid network response to a request that
    is not a GET is handed to [cache.put] all the same: the put is
    rejected, the rejection is left unhandled, the response is returned and
    the listener has only opened the current cache. *)
Theorem Legacy_non_GET_put_is_rejected
    (env : Env) (req : Request) (p : Async (option Response))
    (cs : CacheStorage) (resp : Response) :
  Legacy.onFetch env req = Some p →
  method req ≠ "GET" →
  network env req = inr resp →
  status resp = 200%Z → type resp = "basic" →
  p cs =
    (Fulfilled (Some resp), open_cache Legacy.CACHE_NAME cs,
     miss_events req
     ++ [UnhandledRejection (TypeError "Request method is unsupported")]).
Proof.
  intros Hp Hm Hn Hs Ht.
  assert (Hl : lookup_all req cs = None).
  { unfold lookup_all. by rewrite decide_False. }
  rewrite (Legacy_onFetch_Some env req p Hp),
          (Legacy_respond_cacheable env req cs Hl resp Hn Hs Ht).
  by rewrite !decide_False.
Qed.

(** A POST answered 200 by the host. *)
Lemma Legacy_non_GET_put_is_rejected_witness :
  Legacy.onFetch Demo.env Demo.post_request
    = Some (Legacy.respond Demo.env Demo.post_request) ∧
  Legacy.respond Demo.env Demo.post_request [] =
    (Fulfilled (Some (Demo.page "application/json" "{}")),
     [(Legacy.CACHE_NAME, ∅)],
     miss_events Demo.post_request
     ++ [UnhandledRejection (TypeError "Request method is unsupported")]).
Proof.
  split; [reflexivity|].
  apply (Legacy_non_GET_put_is_rejected Demo.env Demo.post_request).
  - reflexivity.
  - discriminate.
  - vm_compute. reflexivity.
  - reflexivity.
  - reflexivity.
Defined.

(** Membership in a list that is written out. *)
Ltac listed :=
  intros; rewrite ?elem_of_cons, ?elem_of_nil in *;
  intuition (subst; try discriminate; try congruence; eauto).

(** * Notification listeners *)
Section NotificationListeners.
Import Notifications.

Lemma find_client_Some origin l c :
  SWNotifications.find_client origin l = Some c →
  ∃ l1 l2, l = l1 ++ c :: l2 ∧
           includes (client_url c) origin && has_focus c = true ∧
           Forall (λ c', includes (client_url c') origin && has_focus c' = false) l1.
Proof.
  induction l as [|x l IH]; simpl; [discriminate|].
  destruct (includes (client_url x) origin && has_focus x) eqn:Hx.
  - intros [= ->]. exists [], l. repeat split; [exact Hx | constructor].
  - intros H. destruct (IH H) as (l1 & l2 & -> & Hc & Hl1).
    exists (x :: l1), l2. repeat split; [exact Hc | constructor; assumption].
Qed.

Lemma find_client_first origin l1 c l2 :
  includes (client_url c) origin && has_focus c = true →
  Forall (λ c', includes (client_url c') origin && has_focus c' = false) l1 →
  SWNotifications.find_client origin (l1 ++ c :: l2) = Some c.
Proof.
  intros Hc Hl1. induction Hl1 as [|x l1 Hx _ IH]; simpl.
  - rewrite Hc. reflexivity.
  - rewrite Hx. exact IH.
Qed.

Lemma find_client_None origin l :
  SWNotifications.find_client origin l = None ↔
  Forall (λ c, includes (client_url c) origin && has_focus c = false) l.
Proof.
  induction l as [|x l IH]; simpl.
  - split; [constructor | reflexivity].
  - destruct (includes (client_url x) origin && has_focus x) eqn:Hx.
    + split; [discriminate|]. intros H. inversion H; congruence.
    + rewrite IH. split.
      * intros H. constructor; assumption.
      * intros H. inversion H; assumption.
Qed.

Lemma SW_click_run host event_action :
  SWNotifications.onNotificationClick host event_action =
    ConsoleLog "[SW] Notification clicked:" :: NotificationClose ::
    (if decide (event_action = "view" ∨ event_action = String.EmptyString)
     then match SWNotifications.find_client (location_origin host) (window_clients host) with
          | Some client => [ClientFocus client]
          | None => if openWindow_defined host then [OpenWindow "/?emergency=true"] else []
          end
     else []).
Proof.
  unfold SWNotifications.onNotificationClick. do 2 f_equal.
  destruct (decide (event_action = "view")) as [->|Hv].
  - rewrite decide_True by (left; reflexivity). reflexivity.
  - rewrite (bool_decide_eq_false_2 _ Hv). simpl.
    destruct (decide (event_action = String.EmptyString)) as [->|He].
    + rewrite decide_True by (right; reflexivity). reflexivity.
    + rewrite (bool_decide_eq_false_2 _ He), decide_False by intuition. reflexivity.
Qed.

(** The click listener of [src/sw.js] always closes the
    notification; for the action [view] and for a click on the
    notification itself it focuses the first listed client whose URL
    contains the origin and that can be focused, and only when there is no
    such client and [clients.openWindow] exists does it open
    [/?emergency=true]; it never does both, and for any other action it
    does nothing more than log and close. *)
Theorem SW_click_focuses_first_app_client_or_opens
    (host : Host) (event_action : string) :
  let calls := SWNotifications.onNotificationClick host event_action in
  let wanted := event_action = "view" ∨ event_action = String.EmptyString in
  NotificationClose ∈ calls ∧
  (∀ c, ClientFocus c ∈ calls ↔
        wanted ∧ ∃ l1 l2, window_clients host = l1 ++ c :: l2 ∧ fits host c = true ∧
                          Forall (λ c', fits host c' = false) l1) ∧
  (∀ t, OpenWindow t ∈ calls ↔
        wanted ∧ t = "/?emergency=true" ∧ openWindow_defined host = true ∧
        Forall (λ c, fits host c = false) (window_clients host)) ∧
  (∀ c t, ClientFocus c ∈ calls → OpenWindow t ∈ calls → False) ∧
  (¬ wanted → calls = [ConsoleLog "[SW] Notification clicked:"; NotificationClose]) ∧
  (∀ e, Uncaught e ∉ calls).
Proof.
  intros calls wanted. subst calls wanted. rewrite SW_click_run.
  unfold fits.
  destruct (decide (event_action = "view" ∨ event_action = String.EmptyString)) as [Hw|Hw].
  - destruct (SWNotifications.find_client (location_origin host) (window_clients host))
      as [c0|] eqn:Hf.
    + split; [listed|]. split; [|split; [|split; [|split]]].
      * intros c. split.
        -- intros Hc. assert (c = c0) as -> by listed.
           split; [exact Hw|]. apply find_client_Some in Hf.
           destruct Hf as (l1 & l2 & ? & ? & ?). eauto.
        -- intros (_ & l1 & l2 & Hl & Hc & Hl1).
           rewrite Hl, (find_client_first _ _ _ _ Hc Hl1) in Hf.
           injection Hf as ->. listed.
      * intros t. split; [listed|]. intros (_ & _ & _ & Hn).
        apply find_client_None in Hn. congruence.
      * listed.
      * intros Hn. contradiction.
      * listed.
    + split; [listed|]. split; [|split; [|split; [|split]]].
      * intros c. split.
        -- destruct (openWindow_defined host); listed.
        -- intros (_ & l1 & l2 & Hl & Hc & Hl1).
           rewrite Hl, (find_client_first _ _ _ _ Hc Hl1) in Hf. discriminate.
      * intros t. apply find_client_None in Hf.
        destruct (openWindow_defined host).
        -- split; [|listed]. intros Ht.
           assert (t = "/?emergency=true") by listed. auto.
        -- split; [listed|]. intros (_ & _ & ? & _). discriminate.
      * destruct (openWindow_defined host); listed.
      * intros Hn. contradiction.
      * destruct (openWindow_defined host); listed.
  - split; [listed|]. split; [|split; [|split; [|split]]].
    + intros c. split; [listed | tauto].
    + intros t. split; [listed | tauto].
    + listed.
    + reflexivity.
    + listed.
Qed.

Lemma SW_click_focuses_first_app_client_or_opens_witness :
  ClientFocus app_client
    ∈ SWNotifications.onNotificationClick (host_with [other_client; app_client] true) "view" ∧
  OpenWindow "/?emergency=true"
    ∈ SWNotifications.onNotificationClick (host_with [other_client] true) String.EmptyString.
Proof.
  split.
  - apply (SW_click_focuses_first_app_client_or_opens
             (host_with [other_client; app_client] true) "view").
    split; [left; reflexivity|]. exists [other_client], [].
    split; [reflexivity|]. split; [vm_compute; reflexivity|].
    constructor; [vm_compute; reflexivity | constructor].
  - apply (SW_click_focuses_first_app_client_or_opens
             (host_with [other_client] true) String.EmptyString).
    split; [right; reflexivity|]. split; [reflexivity|]. split; [reflexivity|].
    constructor; [vm_compute; reflexivity | constructor].
Defined.

(** Push and click agree in both workers.  The push listener logs and
    shows exactly one notification, titled as the file says.  Its body is
    the pushed text, or the default text when the push carries no data;
    it offers the actions [view] and [dismiss], and each is handled by
    the click listener of the same file: [dismiss] only closes the
    notification, and [view] brings the application forward where
    [clients.openWindow] exists.  In [src/sw.js] the notification's data
    holds [Date.now()] and the URL that the click listener opens; in
    [src/unnamed/part_000] the notification has no data. *)
Theorem offered_actions_are_handled
    (host host' : Host) (event_data : option string) :
  (∃ o,
     SWNotifications.onPush host event_data
       = [ConsoleLog "[SW] Push notification received";
          ShowNotification SWNotifications.alert_title o] ∧
     body o = default "Emergency notification received" event_data ∧
     tag o = "emergency-alert" ∧ requireInteraction o = true ∧
     (∃ d, data o = Some d ∧ timestamp d = Date_now host ∧
           ∀ t b, OpenWindow t ∈ SWNotifications.onNotificationClick host' b →
                  t = data_url d) ∧
     action <$> actions o = ["view"; "dismiss"] ∧
     ∀ a, a ∈ actions o →
       (action a = "dismiss" ∧
        SWNotifications.onNotificationClick host' (action a)
          = [ConsoleLog "[SW] Notification clicked:"; NotificationClose])
       ∨
       (action a = "view" ∧
        (openWindow_defined host' = true →
         (∃ c, ClientFocus c ∈ SWNotifications.onNotificationClick host' (action a)) ∨
         OpenWindow "/?emergency=true"
           ∈ SWNotifications.onNotificationClick host' (action a)))) ∧
  (∃ o,
     LegacyNotifications.onPush host event_data
       = [ConsoleLog "[SW] Push message received";
          ShowNotification LegacyNotifications.alert_title o] ∧
     body o = default "Emergency alert received" event_data ∧
     tag o = "emergency-notification" ∧ requireInteraction o = true ∧
     data o = None ∧
     action <$> actions o = ["view"; "dismiss"] ∧
     ∀ a, a ∈ actions o →
       (action a = "dismiss" ∧
        LegacyNotifications.onNotificationClick host' (action a)
          = [ConsoleLog "[SW] Notification clicked"; NotificationClose])
       ∨
       (action a = "view" ∧
        (openWindow_defined host' = true →
         LegacyNotifications.onNotificationClick host' (action a)
           = [ConsoleLog "[SW] Notification clicked"; NotificationClose;
              OpenWindow "/?emergency=true"]))).
Proof.
  split.
  - eexists. split; [reflexivity|]. simpl.
    split; [by destruct event_data|]. split; [reflexivity|]. split; [reflexivity|].
    split; [|split; [reflexivity|]].
    + eexists. split; [reflexivity|]. split; [reflexivity|]. simpl.
      intros t b Ht. rewrite SW_click_run in Ht.
      repeat case_match; listed.
    + intros a Ha. apply elem_of_cons in Ha as [->|Ha]; [right|left].
      * split; [reflexivity|]. simpl. intros Hopen. rewrite SW_click_run.
        rewrite decide_True by (left; reflexivity). rewrite Hopen.
        destruct (SWNotifications.find_client _ _) as [c|].
        -- left. exists c. listed.
        -- right. listed.
      * apply list_elem_of_singleton in Ha as ->. split; reflexivity.
  - eexists. split; [reflexivity|]. simpl.
    split; [by destruct event_data|]. split; [reflexivity|]. split; [reflexivity|].
    split; [reflexivity|]. split; [reflexivity|].
    intros a Ha. apply elem_of_cons in Ha as [->|Ha]; [right|left].
    + split; [reflexivity|]. simpl. intros Hopen.
      unfold LegacyNotifications.onNotificationClick. rewrite Hopen. reflexivity.
    + apply list_elem_of_singleton in Ha as ->. split; reflexivity.
Qed.

(** The click listener of [src/unnamed/part_000] never focuses a
    client.  For [view] it opens a new window even when the application
    is already open, where [src/sw.js] focuses the open client; a click
    on the notification itself only closes it, where [src/sw.js] brings
    the application forward; and where [clients.openWindow] does not
    exist the call throws, which [src/sw.js] tests for. *)
Theorem Legacy_click_always_opens_a_new_window
    (host : Host) (event_action : string) :
  let calls := LegacyNotifications.onNotificationClick host event_action in
  NotificationClose ∈ calls ∧
  (∀ c, ClientFocus c ∉ calls) ∧
  (event_action = "view" →
   (openWindow_defined host = true →
    calls = [ConsoleLog "[SW] Notification clicked"; NotificationClose;
             OpenWindow "/?emergency=true"]) ∧
   (openWindow_defined host = false →
    (∃ e, Uncaught e ∈ calls) ∧
    ∀ e, Uncaught e ∉ SWNotifications.onNotificationClick host event_action) ∧
   (∀ c, c ∈ window_clients host → fits host c = true →
         (∃ c', ClientFocus c' ∈ SWNotifications.onNotificationClick host event_action) ∧
         ∀ t, OpenWindow t ∉ SWNotifications.onNotificationClick host event_action)) ∧
  (event_action ≠ "view" →
   calls = [ConsoleLog "[SW] Notification clicked"; NotificationClose]).
Proof.
  intros calls. subst calls. unfold LegacyNotifications.onNotificationClick.
  split; [listed|]. split; [|split].
  - intros c. repeat case_match; listed.
  - intros ->. rewrite bool_decide_eq_true_2 by reflexivity. split; [|split].
    + intros ->. reflexivity.
    + intros ->. split; [eexists; do 2 apply list_elem_of_further; apply list_elem_of_here|].
      intros e. rewrite SW_click_run. repeat case_match; listed.
    + intros c Hc Hfit. rewrite SW_click_run.
      rewrite decide_True by (left; reflexivity).
      destruct (SWNotifications.find_client _ _) as [c'|] eqn:Hf.
      * split; [exists c'; listed | listed].
      * apply find_client_None in Hf. rewrite Forall_forall in Hf.
        specialize (Hf c Hc). unfold fits in Hfit. congruence.
  - intros Hv. rewrite (bool_decide_eq_false_2 _ Hv). reflexivity.
Qed.

(** A push with a text, on two hosts: both workers show it, and the
    [dismiss] button of [src/sw.js] only closes the notification. *)
Lemma offered_actions_are_handled_witness :
  (∃ o, ShowNotification SWNotifications.alert_title o
          ∈ SWNotifications.onPush (host_with [] true) (Some "Evacuate building B") ∧
        body o = "Evacuate building B" ∧
        action <$> actions o = ["view"; "dismiss"]) ∧
  (∃ o, ShowNotification LegacyNotifications.alert_title o
          ∈ LegacyNotifications.onPush (host_with [] true) None ∧
        body o = "Emergency alert received").
Proof.
  destruct (offered_actions_are_handled (host_with [] true) (host_with [app_client] true)
              (Some "Evacuate building B")) as [(o & Hpush & Hbody & _ & _ & _ & Hact & _) _].
  destruct (offered_actions_are_handled (host_with [] true) (host_with [app_client] true)
              None) as [_ (o' & Hpush' & Hbody' & _)].
  split.
  - exists o. split; [rewrite Hpush; right; left|]. split; [exact Hbody | exact Hact].
  - exists o'. split; [rewrite Hpush'; right; left | exact Hbody'].
Defined.

Lemma Legacy_click_always_opens_a_new_window_witness :
  LegacyNotifications.onNotificationClick (host_with [app_client] true) "view"
    = [ConsoleLog "[SW] Notification clicked"; NotificationClose;
       OpenWindow "/?emergency=true"] ∧
  (∃ c', ClientFocus c'
           ∈ SWNotifications.onNotificationClick (host_with [app_client] true) "view") ∧
  (∃ e, Uncaught e
          ∈ LegacyNotifications.onNotificationClick (host_with [] false) "view").
Proof.
  destruct (Legacy_click_always_opens_a_new_window (host_with [app_client] true) "view")
    as (_ & _ & Hv & _).
  destruct (Hv eq_refl) as (Hopen & _ & Hfocus).
  split; [exact (Hopen eq_refl)|]. split.
  - apply (Hfocus app_client); [left | vm_compute; reflexivity].
  - destruct (Legacy_click_always_opens_a_new_window (host_with [] false) "view")
      as (_ & _ & Hv' & _).
    destruct (Hv' eq_refl) as (_ & Hthrow & _). exact (proj1 (Hthrow eq_refl)).
Defined.

End NotificationListeners.

(** * Network discipline *)

Lemma net_requests_app l1 l2 :
  net_requests (l1 ++ l2) = net_requests l1 ++ net_requests l2.
Proof. apply omap_app. Qed.

Section Silent.

Lemma silent_pure {A} (m : Async A) : (∀ cs, events (m cs) = []) → silent m.
Proof. intros H cs. rewrite H. reflexivity. Qed.

Lemma silent_resolved {A} (a : A) : silent (resolved a).
Proof. by apply silent_pure. Qed.

Lemma silent_mret {A} (a : A) : silent (mret a : Async A).
Proof. by apply silent_pure. Qed.

Lemma silent_throw {A} (e : JsError) : silent (throw e : Async A).
Proof. by apply silent_pure. Qed.

Lemma silent_console level msg : silent (console level msg).
Proof. intros cs. reflexivity. Qed.

Lemma silent_skipWaiting : silent skipWaiting.
Proof. intros cs. reflexivity. Qed.

Lemma silent_clients_claim : silent clients_claim.
Proof. intros cs. reflexivity. Qed.

Lemma silent_caches_open n : silent (caches_open n).
Proof. by apply silent_pure. Qed.

Lemma silent_caches_keys : silent caches_keys.
Proof. by apply silent_pure. Qed.

Lemma silent_caches_delete n : silent (caches_delete n).
Proof. by apply silent_pure. Qed.

Lemma silent_caches_match req : silent (caches_match req).
Proof. by apply silent_pure. Qed.

Lemma silent_cache_match h req : silent (cache_match h req).
Proof. by apply silent_pure. Qed.

Lemma silent_cache_put h req resp : silent (cache_put h req resp).
Proof.
  intros cs. unfold cache_put.
  destruct (decide _); [destruct (storable resp)|]; reflexivity.
Qed.

Lemma silent_cache_delete h req : silent (cache_delete h req).
Proof. intros cs. unfold cache_delete. by destruct (decide _). Qed.

Lemma silent_response_json env r : silent (response_json env r).
Proof. intros cs. unfold response_json. by destruct (json_parses _ _). Qed.

Lemma silent_bind {A B} (p : Async A) (f : A → Async B) :
  silent p → (∀ a, silent (f a)) → silent (p ≫= f).
Proof.
  intros Hp Hf cs. cbv [mbind Async_bind and_then].
  specialize (Hp cs). destruct (p cs) as [[[a|e] cs1] ev1]; simpl in *; [|exact Hp].
  specialize (Hf a cs1). destruct (f a cs1) as [[r cs2] ev2]; simpl in *.
  by rewrite net_requests_app, Hp, Hf.
Qed.

Lemma silent_catch {A} (p : Async A) (h : JsError → Async A) :
  silent p → (∀ e, silent (h e)) → silent (catch p h).
Proof.
  intros Hp Hh cs. unfold catch.
  specialize (Hp cs). destruct (p cs) as [[[a|e] cs1] ev1]; simpl in *; [exact Hp|].
  specialize (Hh e cs1). destruct (h e cs1) as [[r cs2] ev2]; simpl in *.
  by rewrite net_requests_app, Hp, Hh.
Qed.

Lemma silent_detached {A} (p : Async A) : silent p → silent (detached p).
Proof.
  intros Hp cs. unfold detached.
  specialize (Hp cs). destruct (p cs) as [[[a|e] cs1] ev1]; simpl in *; [exact Hp|].
  by rewrite net_requests_app, Hp.
Qed.

Lemma silent_promise_all {A} (ps : list (Async A)) :
  Forall silent ps → silent (promise_all ps).
Proof.
  induction 1 as [|p ps Hp _ IH]; intros cs; simpl; [reflexivity|].
  specialize (Hp cs). destruct (p cs) as [[r cs1] ev1].
  specialize (IH cs1). destruct (promise_all ps cs1) as [[rs cs2] ev2]. simpl in *.
  by rewrite net_requests_app, Hp, IH.
Qed.

Lemma silent_promise_all_map {A B} (f : A → Async B) (l : list A) :
  (∀ x, silent (f x)) → silent (promise_all (map f l)).
Proof.
  intros Hf. apply silent_promise_all. induction l; constructor; auto.
Qed.

End Silent.

Create HintDb silence.
#[export] Hint Resolve silent_resolved silent_mret silent_throw silent_console
  silent_skipWaiting silent_clients_claim silent_caches_open silent_caches_keys
  silent_caches_delete silent_caches_match silent_cache_match silent_cache_put
  silent_cache_delete silent_response_json : silence.

(** Goes through a listener's body and discharges each call. *)
Ltac silencing :=
  repeat lazymatch goal with
  | |- silent (mbind _ _) => apply silent_bind
  | |- silent (catch _ _) => apply silent_catch
  | |- silent (detached _) => apply silent_detached
  | |- silent (promise_all (map _ _)) => apply silent_promise_all_map
  | |- silent (promise_all _) => apply silent_promise_all
  | |- Forall silent _ => constructor
  | |- silent (match ?x with _ => _ end) => destruct x
  | |- silent _ => solve [eauto with silence]
  | |- ∀ _, _ => intro
  end.

Lemma SW_syncEmergencyData_silent env : silent (SW.syncEmergencyData env).
Proof. unfold SW.syncEmergencyData. silencing. Qed.

Lemma SW_syncStudentScans_silent env : silent (SW.syncStudentScans env).
Proof. unfold SW.syncStudentScans. silencing. Qed.

Lemma Legacy_syncQueuedData_silent env : silent (Legacy.syncQueuedData env).
Proof. unfold Legacy.syncQueuedData. silencing. Qed.

#[export] Hint Resolve SW_syncEmergencyData_silent SW_syncStudentScans_silent
  Legacy_syncQueuedData_silent : silence.

Lemma SW_onSync_silent env tag : silent (SW.onSync env tag).
Proof. unfold SW.onSync. silencing. Qed.

Lemma SW_onPeriodicSync_silent env tag : silent (SW.onPeriodicSync env tag).
Proof. unfold SW.onPeriodicSync. silencing. Qed.

Lemma Legacy_onSync_silent env tag : silent (Legacy.onSync env tag).
Proof. unfold Legacy.onSync. silencing. Qed.

Lemma SW_onMessage_silent env data : silent (SW.onMessage env data).
Proof. unfold SW.onMessage. silencing. Qed.

Lemma SW_onActivate_silent : silent SW.onActivate.
Proof. unfold SW.onActivate, SW.delete_if_old. silencing. Qed.

Lemma Legacy_onActivate_silent : silent Legacy.onActivate.
Proof. unfold Legacy.onActivate, Legacy.delete_if_old. silencing. Qed.

(** A flush that fulfils on a pending item has removed it. *)
Lemma onSync_flushes env tag u cs r :
  key_of_tag env tag = Some u →
  entry cs SW.CACHE_NAME u = Some r → json_parses env (body r) = true →
  outcome (SW.onSync env tag cs) = Fulfilled tt ∧
  entry (storage (SW.onSync env tag cs)) SW.CACHE_NAME u = None.
Proof.
  unfold key_of_tag, emergency_key, scans_key, SW.onSync. intros Hk He Hp.
  cbv [mbind Async_bind and_then console].
  destruct (decide (tag = "emergency-data-sync")).
  - injection Hk as <-. rewrite syncEmergencyData_run, He, Hp.
    split; [reflexivity|]. unfold storage; simpl.
    rewrite entry_update_delete, decide_True by done. reflexivity.
  - destruct (decide (tag = "student-scans-sync")); [|discriminate].
    injection Hk as <-. rewrite syncStudentScans_run, He, Hp.
    split; [reflexivity|]. unfold storage; simpl.
    rewrite entry_update_delete, decide_True by done. reflexivity.
Qed.

(** Nothing is transmitted by the sync queue.  The [sync] and
    [periodicsync] listeners of [src/sw.js], the [sync] listener of
    [src/unnamed/part_000], the [message] listener and both [activate]
    listeners issue no network request, whatever the storage and the tag.
    In particular a pending item that a [sync] event flushes is removed
    from the cache without having been sent anywhere. *)
Theorem sync_queue_transmits_nothing (env : Env) :
  (∀ t, silent (handle env t)) ∧
  (∀ tag, silent (Legacy.onSync env tag)) ∧
  (∀ data, silent (SW.onMessage env data)) ∧
  silent SW.onActivate ∧ silent Legacy.onActivate ∧
  (∀ tag u cs r,
     key_of_tag env tag = Some u →
     entry cs SW.CACHE_NAME u = Some r → json_parses env (body r) = true →
     outcome (SW.onSync env tag cs) = Fulfilled tt ∧
     entry (storage (SW.onSync env tag cs)) SW.CACHE_NAME u = None ∧
     net_requests (events (SW.onSync env tag cs)) = []).
Proof.
  split; [|split; [|split; [|split; [|split]]]].
  - intros [tag|tag]; [apply SW_onSync_silent | apply SW_onPeriodicSync_silent].
  - apply Legacy_onSync_silent.
  - apply SW_onMessage_silent.
  - apply SW_onActivate_silent.
  - apply Legacy_onActivate_silent.
  - intros tag u cs r Hk He Hp.
    destruct (onSync_flushes env tag u cs r Hk He Hp) as [Ho Hs].
    split; [exact Ho|]. split; [exact Hs|]. apply SW_onSync_silent.
Qed.

Lemma sync_queue_transmits_nothing_witness :
  key_of_tag Demo.env "student-scans-sync" = Some (scans_key Demo.env) ∧
  entry Demo.pending_store SW.CACHE_NAME (scans_key Demo.env)
    = Some (new_Response (Some "[1,2]") []) ∧
  entry (storage (SW.onSync Demo.env "student-scans-sync" Demo.pending_store))
        SW.CACHE_NAME (scans_key Demo.env) = None ∧
  net_requests (events (SW.onSync Demo.env "student-scans-sync" Demo.pending_store)) = [].
Proof.
  assert (Hk : key_of_tag Demo.env "student-scans-sync" = Some (scans_key Demo.env))
    by reflexivity.
  assert (He : entry Demo.pending_store SW.CACHE_NAME (scans_key Demo.env)
               = Some (new_Response (Some "[1,2]") [])) by (vm_compute; reflexivity).
  split; [exact Hk|]. split; [exact He|].
  destruct (sync_queue_transmits_nothing Demo.env) as (_ & _ & _ & _ & _ & H).
  destruct (H "student-scans-sync" (scans_key Demo.env) Demo.pending_store
              (new_Response (Some "[1,2]") []) Hk He eq_refl) as (_ & Hs & Hn).
  split; [exact Hs | exact Hn].
Defined.

(** ** The requests of an interception and of an installation *)

Lemma net_requests_miss req : net_requests (miss_events req) = [req].
Proof. reflexivity. Qed.

(** An interception by either worker issues no network request on a
    cache hit and exactly one on a miss: the intercepted request itself,
    with its method and headers.  The offline fallback and the caching of
    the answer request nothing more. *)
Theorem interception_requests_network_only_on_miss
    (env : Env) (req : Request) (p : Async (option Response)) (cs : CacheStorage) :
  SW.onFetch env req = Some p ∨ Legacy.onFetch env req = Some p →
  net_requests (events (p cs)) =
    match lookup_all req cs with
    | Some _ => []
    | None => [req]
    end.
Proof.
  intros Hp. destruct (lookup_all req cs) as [r|] eqn:Hl.
  - destruct Hp as [Hp|Hp];
      [apply SW_onFetch_Some in Hp | apply Legacy_onFetch_Some in Hp]; subst p.
    + rewrite (SW_respond_hit env req cs r Hl). reflexivity.
    + rewrite (Legacy_respond_hit env req cs r Hl). reflexivity.
  - destruct (network env req) as [e|resp] eqn:Hn.
    + destruct Hp as [Hp|Hp];
        [apply SW_onFetch_Some in Hp | apply Legacy_onFetch_Some in Hp]; subst p.
      * destruct (SW.accepts_html req) eqn:Ha.
        -- rewrite (SW_respond_fail_html env req cs Hl e Hn Ha). reflexivity.
        -- rewrite (SW_respond_fail_other env req cs Hl e Hn Ha). reflexivity.
      * rewrite (Legacy_respond_fail env req cs Hl e Hn). reflexivity.
    + destruct (decide (status resp = 200%Z)) as [Hs|Hs];
        [destruct (decide (type resp = "basic")) as [Ht|Ht]|].
      * destruct Hp as [Hp|Hp];
          [apply SW_onFetch_Some in Hp | apply Legacy_onFetch_Some in Hp]; subst p.
        -- rewrite (SW_respond_cacheable env req cs Hl resp Hn Hs Ht).
           unfold events; simpl.
           by destruct (decide (method req = "GET")); [destruct (storable resp)|].
        -- rewrite (Legacy_respond_cacheable env req cs Hl resp Hn Hs Ht).
           unfold events; simpl.
           by destruct (decide (method req = "GET")); [destruct (storable resp)|].
      * destruct Hp as [Hp|Hp];
          [apply SW_onFetch_Some in Hp | apply Legacy_onFetch_Some in Hp]; subst p.
        -- rewrite (SW_respond_uncacheable env req cs Hl resp Hn (or_intror Ht)).
           reflexivity.
        -- rewrite (Legacy_respond_uncacheable env req cs Hl resp Hn (or_intror Ht)).
           reflexivity.
      * destruct Hp as [Hp|Hp];
          [apply SW_onFetch_Some in Hp | apply Legacy_onFetch_Some in Hp]; subst p.
        -- rewrite (SW_respond_uncacheable env req cs Hl resp Hn (or_introl Hs)).
           reflexivity.
        -- rewrite (Legacy_respond_uncacheable env req cs Hl resp Hn (or_introl Hs)).
           reflexivity.
Qed.

Lemma interception_requests_network_only_on_miss_witness :
  net_requests (events (Legacy.respond Demo.env Demo.post_request
                          (Demo.shell_store Legacy.CACHE_NAME)))
    = [Demo.post_request] ∧
  net_requests (events (Legacy.respond Demo.env Demo.html_request
                          (Demo.shell_store Legacy.CACHE_NAME)))
    = [].
Proof.
  split.
  - apply (interception_requests_network_only_on_miss Demo.env Demo.post_request
             (Legacy.respond Demo.env Demo.post_request)
             (Demo.shell_store Legacy.CACHE_NAME)).
    right. reflexivity.
  - apply (interception_requests_network_only_on_miss Demo.env Demo.html_request
             (Legacy.respond Demo.env Demo.html_request)
             (Demo.shell_store Legacy.CACHE_NAME)).
    right. reflexivity.
Defined.

(** * Installation: requests, provenance and the offline guarantee *)

Lemma net_requests_add_events env urls :
  net_requests (concat (map (add_events env) urls)) = map (request_of_url env) urls.
Proof.
  induction urls as [|u t IH]; [reflexivity|].
  change (concat (map (add_events env) (u :: t)))
    with (add_events env u ++ concat (map (add_events env) t)).
  rewrite net_requests_app, IH. unfold add_events.
  by destruct (fetched env u).
Qed.

Lemma net_requests_fetches env (us : list string) :
  net_requests (map (λ u, NetFetch (request_of_url env u)) us)
    = map (request_of_url env) us.
Proof. induction us as [|u t IH]; [reflexivity|]. simpl. by rewrite <- IH. Qed.

Lemma promise_all_fetches_events env us cs :
  events (promise_all (map (λ u, fetch_ok env (request_of_url env u)) us) cs)
    = map (λ u, NetFetch (request_of_url env u)) us.
Proof.
  revert cs. induction us as [|u t IH]; intros cs; [reflexivity|].
  simpl. rewrite fetch_ok_run. specialize (IH cs).
  destruct (promise_all _ cs) as [[rs cs2] ev2]. unfold events in *; simpl in *.
  by rewrite IH.
Qed.

Lemma fetched_Some env u r :
  fetched env u = Some r ↔
  network env (request_of_url env u) = inr r ∧ ok r = true ∧ storable r = true.
Proof.
  unfold fetched. destruct (network env (request_of_url env u)) as [e|r'].
  - split; [discriminate | intros [? _]; discriminate].
  - destruct (ok r' && storable r') eqn:Hok.
    + apply andb_true_iff in Hok as [Hok Hsto].
      split; [intros [= ->]; by repeat split | intros [[= ->] _]; reflexivity].
    + apply andb_false_iff in Hok.
      split; [discriminate | intros ([= ->] & ? & ?); destruct Hok; congruence].
Qed.

Lemma promise_all_fetches_ok env us rs :
  Forall2 (λ u r, fetched env u = Some r) us rs → ∀ cs,
  outcome (promise_all (map (λ u, fetch_ok env (request_of_url env u)) us) cs)
    = Fulfilled rs.
Proof.
  induction 1 as [|u r us rs Hu _ IH]; intros cs; [reflexivity|].
  simpl. rewrite fetch_ok_run. apply fetched_Some in Hu as (-> & -> & ->).
  specialize (IH cs). destruct (promise_all _ cs) as [[o cs2] ev2].
  unfold outcome in *; simpl in *. by rewrite IH.
Qed.

Lemma put_all_fetched env h us rs :
  Forall2 (λ u r, fetched env u = Some r) us rs → ∀ cs,
  put_all h (zip (map (request_of_url env) us) rs) cs
    = (Fulfilled tt, foldl (add_store env h) cs us, []).
Proof.
  induction 1 as [|u r us rs Hu _ IH]; intros cs; [reflexivity|].
  simpl. cbv [mbind Async_bind and_then cache_put]. simpl.
  rewrite (proj2 (proj2 (proj1 (fetched_Some env u r) Hu))).
  rewrite IH. replace (add_store env h cs u)
    with (update_cache h (λ c, <[resolve env u := r]> c) cs)
    by (unfold add_store; by rewrite Hu). reflexivity.
Qed.

Lemma silent_put_all h items : silent (put_all h items).
Proof.
  induction items as [|[q r] t IH]; simpl; [apply silent_resolved|].
  apply silent_bind; [apply silent_cache_put | intros _; exact IH].
Qed.

Lemma fetched_all_or_one env urls :
  (∃ rs, Forall2 (λ u r, fetched env u = Some r) urls rs) ∨
  (∃ u, u ∈ urls ∧ fetched env u = None).
Proof.
  induction urls as [|u t IH].
  - left. exists []. constructor.
  - destruct (fetched env u) as [r|] eqn:Hu.
    + destruct IH as [[rs Hrs]|(u' & Hin & Hf)].
      * left. exists (r :: rs). by constructor.
      * right. exists u'. split; [by apply list_elem_of_further | exact Hf].
    + right. exists u. split; [apply list_elem_of_here | exact Hu].
Qed.

Lemma Legacy_install_ok env urls rs cs :
  Forall2 (λ u r, fetched env u = Some r) urls rs →
  NoDup (map (resolve env) urls) →
  Legacy.install env urls cs =
    (Fulfilled tt,
     foldl (add_store env Legacy.CACHE_NAME) (open_cache Legacy.CACHE_NAME cs) urls,
     [Console "log" "[SW] Installing..."; Console "log" "[SW] Caching files"]
     ++ map (λ u, NetFetch (request_of_url env u)) urls
     ++ [Console "log" "[SW] All files cached"; SkipWaiting]).
Proof.
  intros Hrs Hnd.
  pose proof (promise_all_fetches_ok env urls rs Hrs (open_cache Legacy.CACHE_NAME cs))
    as Ho.
  pose proof (promise_all_fetches_storage env urls (open_cache Legacy.CACHE_NAME cs))
    as Hs.
  pose proof (promise_all_fetches_events env urls (open_cache Legacy.CACHE_NAME cs))
    as He.
  unfold Legacy.install, cache_addAll.
  cbv [mbind Async_bind and_then console caches_open skipWaiting].
  destruct (promise_all (map (λ u, fetch_ok env (request_of_url env u)) urls)
              (open_cache Legacy.CACHE_NAME cs)) as [[o s'] ev].
  unfold outcome in Ho; unfold storage in Hs; unfold events in He; simpl in *.
  subst o s' ev. rewrite (bool_decide_eq_true_2 _ Hnd).
  rewrite (put_all_fetched env Legacy.CACHE_NAME urls rs Hrs).
  simpl. rewrite app_nil_r. reflexivity.
Qed.

(** Every listed asset is fetched, and two of them have the same URL:
    the batch of puts is refused. *)
Lemma Legacy_install_duplicates env urls rs cs :
  Forall2 (λ u r, fetched env u = Some r) urls rs →
  ¬ NoDup (map (resolve env) urls) →
  Legacy.install env urls cs =
    (Rejected (DOMException "InvalidStateError" "duplicate requests"),
     open_cache Legacy.CACHE_NAME cs,
     [Console "log" "[SW] Installing..."; Console "log" "[SW] Caching files"]
     ++ map (λ u, NetFetch (request_of_url env u)) urls).
Proof.
  intros Hrs Hnd.
  pose proof (promise_all_fetches_ok env urls rs Hrs (open_cache Legacy.CACHE_NAME cs))
    as Ho.
  pose proof (promise_all_fetches_storage env urls (open_cache Legacy.CACHE_NAME cs))
    as Hs.
  pose proof (promise_all_fetches_events env urls (open_cache Legacy.CACHE_NAME cs))
    as He.
  unfold Legacy.install, cache_addAll.
  cbv [mbind Async_bind and_then console caches_open skipWaiting].
  destruct (promise_all (map (λ u, fetch_ok env (request_of_url env u)) urls)
              (open_cache Legacy.CACHE_NAME cs)) as [[o s'] ev].
  unfold outcome in Ho; unfold storage in Hs; unfold events in He; simpl in *.
  subst o s' ev. rewrite (bool_decide_eq_false_2 _ Hnd).
  simpl. rewrite app_nil_r. reflexivity.
Qed.

Lemma Legacy_install_aborted env urls cs u :
  u ∈ urls → fetched env u = None →
  ∃ e, Legacy.install env urls cs =
         (Rejected e, open_cache Legacy.CACHE_NAME cs,
          [Console "log" "[SW] Installing..."; Console "log" "[SW] Caching files"]
          ++ map (λ u, NetFetch (request_of_url env u)) urls).
Proof.
  intros Hin Hf.
  destruct (promise_all_fetches_reject env urls (open_cache Legacy.CACHE_NAME cs) u
              Hin Hf) as [e He].
  pose proof (promise_all_fetches_storage env urls (open_cache Legacy.CACHE_NAME cs))
    as Hs.
  pose proof (promise_all_fetches_events env urls (open_cache Legacy.CACHE_NAME cs))
    as Hev.
  exists e. unfold Legacy.install, cache_addAll.
  cbv [mbind Async_bind and_then console caches_open skipWaiting].
  destruct (promise_all (map (λ u, fetch_ok env (request_of_url env u)) urls)
              (open_cache Legacy.CACHE_NAME cs)) as [[o s'] ev].
  unfold outcome in He; unfold storage in Hs; unfold events in Hev; simpl in *.
  subst o s' ev. reflexivity.
Qed.

(** The three ways an installation of [src/unnamed/part_000] ends. *)
Lemma Legacy_install_cases env urls cs :
  (NoDup (map (resolve env) urls) ∧
   ∃ rs, Forall2 (λ u r, fetched env u = Some r) urls rs ∧
         Legacy.install env urls cs =
           (Fulfilled tt,
            foldl (add_store env Legacy.CACHE_NAME) (open_cache Legacy.CACHE_NAME cs) urls,
            [Console "log" "[SW] Installing..."; Console "log" "[SW] Caching files"]
            ++ map (λ u, NetFetch (request_of_url env u)) urls
            ++ [Console "log" "[SW] All files cached"; SkipWaiting])) ∨
  ((¬ NoDup (map (resolve env) urls) ∨ ∃ u, u ∈ urls ∧ fetched env u = None) ∧
   ∃ e, Legacy.install env urls cs =
          (Rejected e, open_cache Legacy.CACHE_NAME cs,
           [Console "log" "[SW] Installing..."; Console "log" "[SW] Caching files"]
           ++ map (λ u, NetFetch (request_of_url env u)) urls)).
Proof.
  destruct (fetched_all_or_one env urls) as [[rs Hrs]|(u & Hin & Hf)].
  - destruct (decide (NoDup (map (resolve env) urls))) as [Hnd|Hnd].
    + left. split; [exact Hnd|]. exists rs. split; [exact Hrs|].
      by apply (Legacy_install_ok env urls rs).
    + right. split; [by left|]. eexists. by apply (Legacy_install_duplicates env urls rs).
  - right. split; [right; by exists u|]. by apply (Legacy_install_aborted env urls cs u).
Qed.

Lemma fetched_ok env u r : fetched env u = Some r → ok r = true.
Proof. intros H. by apply fetched_Some in H as (_ & ? & _). Qed.

(** An installation requests exactly the listed assets, once each
    and in order, as header-less GET requests on the resolved URLs; the
    worker of [src/unnamed/part_000] does so even when the installation
    fails.  Every entry found in the storage afterwards was there before
    or is the [ok] response received for a listed asset: unlike the fetch
    interceptor, the installation asks neither for status 200 nor for the
    type [basic]. *)
Theorem install_requests_exactly_the_assets
    (env : Env) (urls : list string) (cs : CacheStorage) :
  net_requests (events (SW.install env urls cs)) = map (request_of_url env) urls ∧
  net_requests (events (Legacy.install env urls cs)) = map (request_of_url env) urls ∧
  (∀ p, p = SW.install env urls ∨ p = Legacy.install env urls →
   ∀ n key r,
     entry (storage (p cs)) n key = Some r →
     entry cs n key = Some r ∨
     ∃ u, u ∈ urls ∧ key = resolve env u ∧
          network env (request_of_url env u) = inr r ∧ ok r = true).
Proof.
  split; [|split].
  - rewrite SW_install_run. unfold events; simpl.
    rewrite net_requests_app, net_requests_add_events. simpl. apply app_nil_r.
  - destruct (Legacy_install_cases env urls cs) as [(_ & rs & _ & ->)|(_ & e & ->)].
    + unfold events; simpl.
      rewrite net_requests_app, net_requests_fetches. simpl. apply app_nil_r.
    + unfold events; simpl. apply net_requests_fetches.
  - intros p Hp n key r Hentry.
    assert (Hprov : ∀ cache,
              entry (foldl (add_store env cache) (open_cache cache cs) urls) n key = Some r →
              entry cs n key = Some r ∨
              ∃ u, u ∈ urls ∧ key = resolve env u ∧
                   network env (request_of_url env u) = inr r ∧ ok r = true).
    { intros cache H.
      destruct (foldl_add_store_provenance env cache urls (open_cache cache cs) n key)
        as [Heq|(u & r' & Hin & Hkey & Hf & Hr')].
      - left. by rewrite <- H, Heq, entry_open_cache.
      - right. exists u. rewrite H in Hr'. injection Hr' as ->.
        apply fetched_Some in Hf. tauto. }
    destruct Hp as [-> | ->].
    + rewrite SW_install_run in Hentry. exact (Hprov _ Hentry).
    + destruct (Legacy_install_cases env urls cs) as [(_ & rs & _ & He)|(_ & e & He)];
        rewrite He in Hentry.
      * exact (Hprov _ Hentry).
      * unfold storage in Hentry; simpl in Hentry.
        rewrite entry_open_cache in Hentry. by left.
Qed.

(** The installation of [src/unnamed/part_000] is all or nothing.
    It fulfils exactly when every listed asset is fetched with a response
    that [cache.addAll] accepts ([ok], not partial, not varying on
    everything) and no two listed assets have the same URL; then the
    worker skips waiting and the current cache holds each asset's response
    under its resolved URL.  Otherwise no entry of any cache has changed
    and the worker does not skip waiting.  In particular one answer with
    status 206 or with a [Vary] header that lists [*] makes the
    installation fail. *)
Theorem Legacy_install_is_all_or_nothing
    (env : Env) (urls : list string) (cs : CacheStorage) :
  (outcome (Legacy.install env urls cs) = Fulfilled tt ↔
   (∀ u, u ∈ urls → is_Some (fetched env u)) ∧ NoDup (map (resolve env) urls)) ∧
  (outcome (Legacy.install env urls cs) = Fulfilled tt →
   after_install (outcome (Legacy.install env urls cs)) = Installed ∧
   SkipWaiting ∈ events (Legacy.install env urls cs) ∧
   ∀ u, u ∈ urls →
        entry (storage (Legacy.install env urls cs)) Legacy.CACHE_NAME (resolve env u)
          = fetched env u) ∧
  (outcome (Legacy.install env urls cs) ≠ Fulfilled tt →
   after_install (outcome (Legacy.install env urls cs)) = Redundant ∧
   (SkipWaiting ∉ events (Legacy.install env urls cs)) ∧
   same_entries cs (storage (Legacy.install env urls cs))) ∧
  (∀ u r, u ∈ urls → network env (request_of_url env u) = inr r →
          ok r = false ∨ status r = 206%Z ∨ varies_on_all r = true →
          outcome (Legacy.install env urls cs) ≠ Fulfilled tt).
Proof.
  assert (Hall : ∀ rs, Forall2 (λ u r, fetched env u = Some r) urls rs →
                       ∀ u, u ∈ urls → is_Some (fetched env u)).
  { intros rs Hrs u Hu. apply list_elem_of_lookup in Hu as [i Hi].
    destruct (Forall2_lookup_l _ _ _ _ _ Hrs Hi) as (r & _ & ->). by eexists. }
  destruct (Legacy_install_cases env urls cs)
    as [(Hnd & rs & Hrs & ->)|(Hwhy & e & ->)];
    unfold outcome, storage, events; simpl.
  - split; [|split; [|split]].
    + split; [|reflexivity]. intros _. split; [by apply (Hall rs) | exact Hnd].
    + intros _. split; [reflexivity|]. split.
      * rewrite !elem_of_cons, elem_of_app, !elem_of_cons. tauto.
      * intros u Hu. destruct (Hall rs Hrs u Hu) as [r Hr].
        rewrite Hr. apply foldl_add_store_present;
          [apply names_open_cache | exact Hu | exact Hr].
    + intros Hn. contradiction.
    + intros u r Hu Hn Hbad. destruct (Hall rs Hrs u Hu) as [r' Hr'].
      rewrite (unfetched env u r Hn Hbad) in Hr'. discriminate.
  - split; [|split; [|split]].
    + split; [discriminate|]. intros [H Hnd].
      destruct Hwhy as [Hdup|(u & Hin & Hf)]; [contradiction|].
      specialize (H u Hin). rewrite Hf in H. by destruct H.
    + discriminate.
    + intros _. split; [reflexivity|]. split.
      * rewrite !elem_of_cons, list_elem_of_fmap.
        intros [?|[?|(? & ? & _)]]; discriminate.
      * apply same_entries_open.
    + discriminate.
Qed.

(** No two assets of [src/unnamed/part_000] have the same URL. *)
Lemma append_inj_l (s a b : string) : s +:+ a = s +:+ b → a = b.
Proof. induction s as [|c s IH]; simpl; [done|]. intros [= H]. by apply IH. Qed.

Lemma urlsToCache_distinct env : NoDup (map (resolve env) Legacy.urlsToCache).
Proof.
  change (map (resolve env) Legacy.urlsToCache)
    with (String.append (origin env) <$> Legacy.urlsToCache).
  apply NoDup_fmap_2; [intros x y; apply append_inj_l|].
  apply (bool_decide_eq_true_1 (NoDup Legacy.urlsToCache)). vm_compute. reflexivity.
Qed.

(** On a host where everything is reachable the installation fulfils and
    stores the large icon; on a host whose answers vary on everything, or
    are partial, it fails. *)
Lemma Legacy_install_is_all_or_nothing_witness :
  outcome (Legacy.onInstall online_env []) = Fulfilled tt ∧
  entry (storage (Legacy.onInstall online_env [])) Legacy.CACHE_NAME
        (resolve online_env "/icons/icon-512.png")
    = Some (Demo.page "text/html" "<html>") ∧
  outcome (Legacy.onInstall varying_env []) ≠ Fulfilled tt ∧
  outcome (Legacy.onInstall partial_env []) ≠ Fulfilled tt.
Proof.
  destruct (Legacy_install_is_all_or_nothing online_env Legacy.urlsToCache [])
    as ((_ & Hall) & Hok & _).
  assert (Ho : outcome (Legacy.install online_env Legacy.urlsToCache []) = Fulfilled tt).
  { apply Hall. split; [|apply urlsToCache_distinct]. intros u _. by eexists. }
  split; [exact Ho|].
  destruct (Hok Ho) as (_ & _ & He).
  split.
  { apply (He "/icons/icon-512.png").
    do 5 apply list_elem_of_further. apply list_elem_of_here. }
  split.
  - destruct (Legacy_install_is_all_or_nothing varying_env Legacy.urlsToCache [])
      as (_ & _ & _ & Hbad).
    apply (Hbad "/" varying_page); [apply list_elem_of_here | reflexivity|].
    right. right. reflexivity.
  - destruct (Legacy_install_is_all_or_nothing partial_env Legacy.urlsToCache [])
      as (_ & _ & _ & Hbad).
    apply (Hbad "/" partial_page); [apply list_elem_of_here | reflexivity|].
    right. left. reflexivity.
Defined.

(** ** After installation and activation *)

Lemma match_all_single u cs n : names cs = [n] → match_all u cs = entry cs n u.
Proof.
  destruct cs as [|[n' c] [|? ?]]; try discriminate. intros [= ->].
  unfold entry; simpl. rewrite decide_True by done. simpl.
  by destruct (c !! u).
Qed.

Lemma installed_lookup cur env urls cs u r :
  well_formed cs → u ∈ urls → fetched env u = Some r →
  let cs1 := foldl (add_store env cur) (open_cache cur cs) urls in
  match_all (resolve env u) (foldl (sweep cur) cs1 (names cs1)) = Some r.
Proof.
  intros Hwf Hin Hf cs1.
  assert (Hnames : names cs1 = names (open_cache cur cs))
    by apply names_foldl_add_store.
  assert (Hcur : cur ∈ names cs1) by (rewrite Hnames; apply names_open_cache).
  assert (Hwf1 : well_formed cs1).
  { unfold well_formed. rewrite Hnames. by apply well_formed_open. }
  rewrite (match_all_single _ _ cur) by by apply swept_exactly_current.
  unfold entry. rewrite find_cache_foldl_sweep.
  apply (foldl_add_store_present env cur urls (open_cache cur cs) u r);
    [apply names_open_cache | exact Hin | exact Hf].
Qed.

Lemma SW_installed_eq env urls cs :
  SW_installed env urls cs =
    foldl (sweep SW.CACHE_NAME)
      (foldl (add_store env SW.CACHE_NAME) (open_cache SW.CACHE_NAME cs) urls)
      (names (foldl (add_store env SW.CACHE_NAME) (open_cache SW.CACHE_NAME cs) urls)).
Proof.
  unfold SW_installed. rewrite SW_install_run. unfold storage at 2; simpl.
  destruct (SW_onActivate_run
              (foldl (add_store env SW.CACHE_NAME) (open_cache SW.CACHE_NAME cs) urls))
    as [ev ->].
  reflexivity.
Qed.

Lemma Legacy_installed_eq env urls rs cs :
  Forall2 (λ u r, fetched env u = Some r) urls rs →
  NoDup (map (resolve env) urls) →
  Legacy_installed env urls cs =
    foldl (sweep Legacy.CACHE_NAME)
      (foldl (add_store env Legacy.CACHE_NAME) (open_cache Legacy.CACHE_NAME cs) urls)
      (names (foldl (add_store env Legacy.CACHE_NAME)
                (open_cache Legacy.CACHE_NAME cs) urls)).
Proof.
  intros Hrs Hnd. unfold Legacy_installed.
  rewrite (Legacy_install_ok env urls rs cs Hrs Hnd).
  unfold storage at 2; simpl.
  destruct (Legacy_onActivate_run
              (foldl (add_store env Legacy.CACHE_NAME)
                 (open_cache Legacy.CACHE_NAME cs) urls))
    as [ev ->].
  reflexivity.
Qed.

Lemma all_fetched env urls :
  (∀ u, u ∈ urls → is_Some (fetched env u)) →
  ∃ rs, Forall2 (λ u r, fetched env u = Some r) urls rs.
Proof.
  intros Hall. destruct (fetched_all_or_one env urls) as [H|(u & Hin & Hf)]; [exact H|].
  specialize (Hall u Hin). rewrite Hf in Hall. by destruct Hall.
Qed.

Lemma SW_installed_serves env urls cs u r :
  well_formed cs → u ∈ urls → fetched env u = Some r →
  match_all (resolve env u) (SW_installed env urls cs) = Some r.
Proof. intros. rewrite SW_installed_eq. by apply installed_lookup. Qed.

Lemma Legacy_installed_serves env urls cs u r :
  well_formed cs → (∀ u', u' ∈ urls → is_Some (fetched env u')) →
  NoDup (map (resolve env) urls) →
  u ∈ urls → fetched env u = Some r →
  match_all (resolve env u) (Legacy_installed env urls cs) = Some r.
Proof.
  intros Hwf Hall Hnd Hin Hf. destruct (all_fetched env urls Hall) as [rs Hrs].
  rewrite (Legacy_installed_eq env urls rs cs Hrs Hnd). by apply installed_lookup.
Qed.

(** Without the offline page among the fetched assets, and without one in
    the storage before, the installed worker of [src/sw.js] has none. *)
Lemma SW_installed_without_page env urls cs u :
  well_formed cs → fetched env u = None → match_all (resolve env u) cs = None →
  match_all (resolve env u) (SW_installed env urls cs) = None.
Proof.
  intros Hwf Hf Hm. rewrite SW_installed_eq.
  set (cs1 := foldl (add_store env SW.CACHE_NAME) (open_cache SW.CACHE_NAME cs) urls).
  assert (Hnames : names cs1 = names (open_cache SW.CACHE_NAME cs))
    by apply names_foldl_add_store.
  assert (Hwf1 : well_formed cs1).
  { unfold well_formed. rewrite Hnames. by apply well_formed_open. }
  rewrite (match_all_single _ _ SW.CACHE_NAME).
  - unfold entry. rewrite find_cache_foldl_sweep.
    destruct (foldl_add_store_provenance env SW.CACHE_NAME urls
                (open_cache SW.CACHE_NAME cs) SW.CACHE_NAME (resolve env u))
      as [Heq|(u' & r' & _ & Hkey & Hf' & _)].
    + change (entry cs1 SW.CACHE_NAME (resolve env u) = None).
      unfold cs1. rewrite Heq, entry_open_cache. by apply match_all_None_entry.
    + rewrite (fetched_same_key env u u' Hkey) in Hf. congruence.
  - apply swept_exactly_current; [exact Hwf1|].
    rewrite Hnames. apply names_open_cache.
Qed.



Lemma resolve_same_origin env env' u :
  origin env' = origin env → resolve env' u = resolve env u.
Proof. unfold resolve. by intros ->. Qed.

(** The offline page after installation.  When the installation
    has fetched the offline page, with an answer that [cache.add] accepts,
    an intercepted page request that is not cached and fails on the
    network is answered with that page by the activated worker, in both
    files; the storage is left alone.  When the installation of
    [src/sw.js] has not fetched it (unreachable, not [ok], partial, or
    varying on everything) and the storage held none before, the answer is
    the inline page.  For [src/unnamed/part_000] every listed asset must
    have been fetched, or the installation has failed. *)
Theorem offline_page_is_available_after_install
    (env env' : Env) (cs : CacheStorage) (req : Request)
    (p : Async (option Response)) (e : JsError) (r : Response) :
  well_formed cs →
  origin env' = origin env →
  network env' req = inl e →
  (fetched env SW.OFFLINE_URL = Some r →
   SW.onFetch env' req = Some p →
   lookup_all req (SW_installed env SW.STATIC_CACHE_URLS cs) = None →
   SW.accepts_html req = true →
   outcome (p (SW_installed env SW.STATIC_CACHE_URLS cs)) = Fulfilled (Some r) ∧
   storage (p (SW_installed env SW.STATIC_CACHE_URLS cs))
     = SW_installed env SW.STATIC_CACHE_URLS cs) ∧
  (fetched env SW.OFFLINE_URL = None →
   match_all (resolve env SW.OFFLINE_URL) cs = None →
   SW.onFetch env' req = Some p →
   lookup_all req (SW_installed env SW.STATIC_CACHE_URLS cs) = None →
   SW.accepts_html req = true →
   outcome (p (SW_installed env SW.STATIC_CACHE_URLS cs))
     = Fulfilled (Some SW.offline_response)) ∧
  (fetched env Legacy.OFFLINE_URL = Some r →
   (∀ u, u ∈ Legacy.urlsToCache → is_Some (fetched env u)) →
   Legacy.onFetch env' req = Some p →
   lookup_all req (Legacy_installed env Legacy.urlsToCache cs) = None →
   (∃ a, headers_get "accept" (req_headers req) = Some a ∧
         includes a "text/html" = true) →
   outcome (p (Legacy_installed env Legacy.urlsToCache cs)) = Fulfilled (Some r) ∧
   storage (p (Legacy_installed env Legacy.urlsToCache cs))
     = Legacy_installed env Legacy.urlsToCache cs).
Proof.
  intros Hwf Ho Hnet. split; [|split].
  - intros Hf Hp Hmiss Hacc. apply SW_onFetch_Some in Hp as ->.
    rewrite (SW_respond_fail_html env' req _ Hmiss e Hnet Hacc).
    unfold outcome, storage; simpl. split; [|reflexivity].
    unfold lookup_all, request_of_url; simpl.
    rewrite (resolve_same_origin env env' _ Ho).
    rewrite (SW_installed_serves env SW.STATIC_CACHE_URLS cs SW.OFFLINE_URL r Hwf);
      [reflexivity | | exact Hf].
    do 2 apply list_elem_of_further. apply list_elem_of_here.
  - intros Hf Hm Hp Hmiss Hacc. apply SW_onFetch_Some in Hp as ->.
    rewrite (SW_respond_fail_html env' req _ Hmiss e Hnet Hacc).
    unfold outcome; simpl.
    unfold lookup_all, request_of_url; simpl.
    rewrite (resolve_same_origin env env' _ Ho).
    by rewrite (SW_installed_without_page env SW.STATIC_CACHE_URLS cs SW.OFFLINE_URL
                  Hwf Hf Hm).
  - intros Hf Hall Hp Hmiss (a & Ha & Hinc). apply Legacy_onFetch_Some in Hp as ->.
    rewrite (Legacy_respond_fail env' req _ Hmiss e Hnet), Ha, Hinc.
    unfold outcome, storage; simpl. split; [|reflexivity].
    unfold lookup_all, request_of_url; simpl.
    rewrite (resolve_same_origin env env' _ Ho).
    rewrite (Legacy_installed_serves env Legacy.urlsToCache cs Legacy.OFFLINE_URL r
               Hwf Hall (urlsToCache_distinct env)); [reflexivity | | exact Hf].
    do 3 apply list_elem_of_further. apply list_elem_of_here.
Qed.

(** Installed while everything is reachable, the worker of
    [src/unnamed/part_000] later answers a failed page request with the
    cached offline page; installed on a host whose answers are partial,
    the worker of [src/sw.js] has cached nothing and answers with the
    inline page. *)
Lemma offline_page_is_available_after_install_witness :
  let req := Demo.get (Demo.app +:+ "/dashboard") [("accept", "text/html")] in
  let cs' := Legacy_installed online_env Legacy.urlsToCache [] in
  let cs'' := SW_installed partial_env SW.STATIC_CACHE_URLS [] in
  fetched online_env Legacy.OFFLINE_URL = Some (Demo.page "text/html" "<html>") ∧
  network Demo.offline_env req = inl Demo.failed_to_fetch ∧
  lookup_all req cs' = None ∧
  outcome (Legacy.respond Demo.offline_env req cs')
    = Fulfilled (Some (Demo.page "text/html" "<html>")) ∧
  fetched partial_env SW.OFFLINE_URL = None ∧
  outcome (SW.respond Demo.offline_env req cs'') = Fulfilled (Some SW.offline_response).
Proof.
  intros req cs' cs''.
  assert (Hmiss : lookup_all req cs' = None) by (vm_compute; reflexivity).
  assert (Hmiss' : lookup_all req cs'' = None) by (vm_compute; reflexivity).
  split; [reflexivity|]. split; [reflexivity|]. split; [exact Hmiss|].
  destruct (offline_page_is_available_after_install online_env Demo.offline_env []
              req (Legacy.respond Demo.offline_env req) Demo.failed_to_fetch
              (Demo.page "text/html" "<html>") NoDup_nil_2 eq_refl eq_refl)
    as (_ & _ & HL).
  split.
  { apply HL; [reflexivity | | reflexivity | exact Hmiss | ].
    - intros u _. by eexists.
    - exists "text/html". split; reflexivity. }
  split; [reflexivity|].
  destruct (offline_page_is_available_after_install partial_env Demo.offline_env []
              req (SW.respond Demo.offline_env req) Demo.failed_to_fetch
              partial_page NoDup_nil_2 eq_refl eq_refl)
    as (_ & HI & _).
  exact (HI eq_refl eq_refl eq_refl Hmiss' eq_refl).
Defined.

(** * The sync queue under retries *)

Lemma open_cache_idemp n cs : open_cache n (open_cache n cs) = open_cache n cs.
Proof. eapply open_cache_present. apply find_cache_open. Qed.

Lemma open_cache_update n f cs c :
  find_cache n cs = Some c → open_cache n (update_cache n f cs) = update_cache n f cs.
Proof.
  intros H. apply (open_cache_present _ _ (f c)).
  rewrite find_cache_update, decide_True, H by done. reflexivity.
Qed.

Lemma entry_find_cache cs n u r : entry cs n u = Some r → ∃ c, find_cache n cs = Some c.
Proof. unfold entry. destruct (find_cache n cs); [eauto | discriminate]. Qed.

Section Flush.
Variables (p : Async unit) (cache k : string) (parses : Response → bool).
Variables (ev1 ev2 : list Event) (failed : Settled unit).
Hypothesis Hrun : ∀ cs,
  p cs =
    match entry cs cache k with
    | None => (Fulfilled tt, open_cache cache cs, [])
    | Some r =>
        if parses r
        then (Fulfilled tt, update_cache cache (λ c, delete k c) cs, ev1)
        else (failed, cs, ev2)
    end.

Lemma flush_again cs :
  storage (p (storage (p cs))) = storage (p cs) ∧
  outcome (p (storage (p cs))) = outcome (p cs).
Proof.
  rewrite (Hrun cs). destruct (entry cs cache k) as [r|] eqn:He.
  - destruct (parses r) eqn:Hp; unfold storage at 2 4, outcome at 2; simpl.
    + destruct (entry_find_cache _ _ _ _ He) as [c Hc].
      rewrite Hrun, entry_update_delete, decide_True by done.
      unfold storage, outcome; simpl. split; [|reflexivity].
      by eapply open_cache_update.
    + rewrite Hrun, He, Hp. by split.
  - unfold storage at 2 4, outcome at 2; simpl.
    rewrite Hrun, entry_open_cache, He. unfold storage, outcome; simpl.
    split; [apply open_cache_idemp | reflexivity].
Qed.

Lemma retried_fixed n : ∀ cs, storage (p cs) = cs → retried p n cs = cs.
Proof. induction n as [|n IH]; intros cs H; simpl; [reflexivity|]. rewrite H. by apply IH. Qed.

Lemma retried_stable n cs :
  retried p (S n) cs = storage (p cs) ∧
  outcome (p (retried p n cs)) = outcome (p cs).
Proof.
  split.
  - simpl. apply retried_fixed, flush_again.
  - destruct n as [|n]; [reflexivity|]. simpl.
    rewrite retried_fixed by apply flush_again. apply flush_again.
Qed.

Lemma retried_blocked n cs r :
  entry cs cache k = Some r → parses r = false →
  retried p n cs = cs ∧ outcome (p (retried p n cs)) = failed.
Proof.
  intros He Hp.
  assert (Hs : p cs = (failed, cs, ev2)) by (by rewrite Hrun, He, Hp).
  assert (Hfix : retried p n cs = cs) by (apply retried_fixed; by rewrite Hs).
  rewrite Hfix, Hs. by split.
Qed.

End Flush.

(** Retrying a flush changes nothing more.  For each of the three
    flush functions, running it again after it has run leaves the storage
    as the first run left it and settles as the first run did, however
    often it is retried.  A pending item that does not parse therefore
    stays queued for ever: in [src/sw.js] every retry rejects, in
    [src/unnamed/part_000] every retry fulfils, and neither removes it. *)
Theorem flush_retry_is_stable
    (env : Env) (flush : Async unit) (cache k : string) (failed : Settled unit)
    (n : nat) (cs : CacheStorage) :
  (flush = SW.syncEmergencyData env ∧ cache = SW.CACHE_NAME ∧ k = emergency_key env ∧
   failed = Rejected (SyntaxError "Unexpected end of JSON input")) ∨
  (flush = SW.syncStudentScans env ∧ cache = SW.CACHE_NAME ∧ k = scans_key env ∧
   failed = Rejected (SyntaxError "Unexpected end of JSON input")) ∨
  (flush = Legacy.syncQueuedData env ∧ cache = Legacy.CACHE_NAME ∧ k = queued_key env ∧
   failed = Fulfilled tt) →
  retried flush (S n) cs = storage (flush cs) ∧
  outcome (flush (retried flush n cs)) = outcome (flush cs) ∧
  (∀ r, entry cs cache k = Some r → json_parses env (body r) = false →
        retried flush n cs = cs ∧
        outcome (flush (retried flush n cs)) = failed ∧
        entry (retried flush n cs) cache k = Some r).
Proof.
  intros [(-> & -> & -> & ->)|[(-> & -> & -> & ->)|(-> & -> & -> & ->)]].
  - pose proof (syncEmergencyData_run env) as Hrun.
    destruct (retried_stable _ _ _ (λ r, json_parses env (body r)) _ _ _ Hrun n cs)
      as [H1 H2].
    split; [exact H1|]. split; [exact H2|]. intros r He Hp.
    destruct (retried_blocked _ _ _ (λ r, json_parses env (body r)) _ _ _ Hrun n cs r
                He Hp) as [H3 H4].
    split; [exact H3|]. split; [exact H4|]. by rewrite H3.
  - pose proof (syncStudentScans_run env) as Hrun.
    destruct (retried_stable _ _ _ (λ r, json_parses env (body r)) _ _ _ Hrun n cs)
      as [H1 H2].
    split; [exact H1|]. split; [exact H2|]. intros r He Hp.
    destruct (retried_blocked _ _ _ (λ r, json_parses env (body r)) _ _ _ Hrun n cs r
                He Hp) as [H3 H4].
    split; [exact H3|]. split; [exact H4|]. by rewrite H3.
  - pose proof (syncQueuedData_run env) as Hrun.
    destruct (retried_stable _ _ _ (λ r, json_parses env (body r)) _ _ _ Hrun n cs)
      as [H1 H2].
    split; [exact H1|]. split; [exact H2|]. intros r He Hp.
    destruct (retried_blocked _ _ _ (λ r, json_parses env (body r)) _ _ _ Hrun n cs r
                He Hp) as [H3 H4].
    split; [exact H3|]. split; [exact H4|]. by rewrite H3.
Qed.

Lemma flush_retry_is_stable_witness :
  entry poisoned_store SW.CACHE_NAME (emergency_key Demo.env)
    = Some (new_Response None []) ∧
  json_parses Demo.env (body (new_Response None [])) = false ∧
  retried (SW.syncEmergencyData Demo.env) 5 poisoned_store = poisoned_store ∧
  outcome (SW.syncEmergencyData Demo.env
             (retried (SW.syncEmergencyData Demo.env) 5 poisoned_store))
    = Rejected (SyntaxError "Unexpected end of JSON input").
Proof.
  assert (He : entry poisoned_store SW.CACHE_NAME (emergency_key Demo.env)
               = Some (new_Response None [])) by (vm_compute; reflexivity).
  split; [exact He|]. split; [reflexivity|].
  destruct (flush_retry_is_stable Demo.env (SW.syncEmergencyData Demo.env)
              SW.CACHE_NAME (emergency_key Demo.env)
              (Rejected (SyntaxError "Unexpected end of JSON input")) 5 poisoned_store)
    as (_ & _ & H).
  - left. repeat split.
  - destruct (H (new_Response None []) He eq_refl) as (H1 & H2 & _).
    split; [exact H1 | exact H2].
Defined.

(** ** Periodic sync *)

Lemma reserved_keys_differ env : emergency_key env ≠ scans_key env.
Proof.
  unfold emergency_key, scans_key, resolve. simpl.
  intros H. apply append_inj_l in H. discriminate.
Qed.

Lemma onPeriodicSync_outcome env cs :
  outcome (SW.onPeriodicSync env "emergency-system-sync" cs) =
    match outcome (SW.syncEmergencyData env cs),
          outcome (SW.syncStudentScans env (storage (SW.syncEmergencyData env cs))) with
    | Fulfilled _, Fulfilled _ => Fulfilled tt
    | Rejected e, _ => Rejected e
    | Fulfilled _, Rejected e => Rejected e
    end.
Proof.
  unfold SW.onPeriodicSync. run. simpl.
  destruct (SW.syncEmergencyData env cs) as [[o1 s1] ev1].
  change (storage (o1, s1, ev1)) with s1.
  destruct (SW.syncStudentScans env s1) as [[o2 s2] ev2].
  unfold outcome; simpl. destruct o1, o2; reflexivity.
Qed.

(** A periodic sync runs both flushes, whatever the first one does.
    The event fulfils exactly when both flushes fulfil.  When the pending
    emergency item does not parse the event rejects and the item stays,
    yet parsable student scans are still flushed; and the same with the
    two keys exchanged. *)
Theorem periodic_sync_runs_both_flushes (env : Env) (cs : CacheStorage) :
  let P := SW.onPeriodicSync env "emergency-system-sync" cs in
  (outcome P = Fulfilled tt ↔
   outcome (SW.syncEmergencyData env cs) = Fulfilled tt ∧
   outcome (SW.syncStudentScans env (storage (SW.syncEmergencyData env cs)))
     = Fulfilled tt) ∧
  (∀ k k', (k = emergency_key env ∧ k' = scans_key env) ∨
           (k = scans_key env ∧ k' = emergency_key env) →
   ∀ r, entry cs SW.CACHE_NAME k = Some r → json_parses env (body r) = false →
        outcome P = Rejected (SyntaxError "Unexpected end of JSON input") ∧
        entry (storage P) SW.CACHE_NAME k = Some r ∧
        (∀ r', entry cs SW.CACHE_NAME k' = Some r' → json_parses env (body r') = true →
               entry (storage P) SW.CACHE_NAME k' = None)).
Proof.
  intros P. subst P. split.
  - split; [apply onPeriodicSync_run|].
    intros [H1 H2]. rewrite onPeriodicSync_outcome, H1, H2. reflexivity.
  - intros k k' Hk r He Hp.
    pose proof (reserved_keys_differ env) as Hne.
    rewrite onPeriodicSync_outcome, (proj1 (onPeriodicSync_run env cs)).
    destruct Hk as [[-> ->]|[-> ->]].
    + assert (H1 : SW.syncEmergencyData env cs =
                     (Rejected (SyntaxError "Unexpected end of JSON input"), cs,
                      [Console "error" "[SW] Emergency data sync failed:"])).
      { rewrite syncEmergencyData_run. unfold emergency_key in He. by rewrite He, Hp. }
      assert (Hst : storage (SW.syncEmergencyData env cs) = cs) by (by rewrite H1).
      assert (Hout : outcome (SW.syncEmergencyData env cs)
                     = Rejected (SyntaxError "Unexpected end of JSON input"))
        by (by rewrite H1).
      rewrite Hst, Hout. split; [reflexivity|]. split.
      * rewrite syncStudentScans_frame by exact Hne. exact He.
      * intros r' He' Hp'. rewrite syncStudentScans_run.
        unfold scans_key in He'. rewrite He', Hp'. unfold storage; simpl.
        rewrite entry_update_delete, decide_True by done. reflexivity.
    + set (s1 := storage (SW.syncEmergencyData env cs)).
      assert (Hs1 : entry s1 SW.CACHE_NAME (scans_key env) = Some r).
      { unfold s1. rewrite syncEmergencyData_frame by (intros Heq; by apply Hne).
        exact He. }
      assert (H2 : SW.syncStudentScans env s1 =
                     (Rejected (SyntaxError "Unexpected end of JSON input"), s1,
                      [Console "error" "[SW] Student scans sync failed:"])).
      { rewrite syncStudentScans_run. unfold scans_key in Hs1. by rewrite Hs1, Hp. }
      assert (Hst : storage (SW.syncStudentScans env s1) = s1) by (by rewrite H2).
      assert (Hout : outcome (SW.syncStudentScans env s1)
                     = Rejected (SyntaxError "Unexpected end of JSON input"))
        by (by rewrite H2).
      rewrite Hst, Hout. split; [|split].
      * rewrite syncEmergencyData_run.
        destruct (entry cs SW.CACHE_NAME (resolve env SW.EMERGENCY_DATA_URL)) as [r0|];
          [destruct (json_parses env (body r0))|]; reflexivity.
      * exact Hs1.
      * intros r' He' Hp'. unfold s1. rewrite syncEmergencyData_run.
        unfold emergency_key in He'. rewrite He', Hp'. unfold storage; simpl.
        rewrite entry_update_delete, decide_True by done. reflexivity.
Qed.

Lemma periodic_sync_runs_both_flushes_witness :
  entry poisoned_store SW.CACHE_NAME (emergency_key Demo.env)
    = Some (new_Response None []) ∧
  entry poisoned_store SW.CACHE_NAME (scans_key Demo.env)
    = Some (new_Response (Some "[1,2]") []) ∧
  outcome (SW.onPeriodicSync Demo.env "emergency-system-sync" poisoned_store)
    = Rejected (SyntaxError "Unexpected end of JSON input") ∧
  entry (storage (SW.onPeriodicSync Demo.env "emergency-system-sync" poisoned_store))
        SW.CACHE_NAME (emergency_key Demo.env) = Some (new_Response None []) ∧
  entry (storage (SW.onPeriodicSync Demo.env "emergency-system-sync" poisoned_store))
        SW.CACHE_NAME (scans_key Demo.env) = None.
Proof.
  assert (He : entry poisoned_store SW.CACHE_NAME (emergency_key Demo.env)
               = Some (new_Response None [])) by (vm_compute; reflexivity).
  assert (Hs : entry poisoned_store SW.CACHE_NAME (scans_key Demo.env)
               = Some (new_Response (Some "[1,2]") [])) by (vm_compute; reflexivity).
  split; [exact He|]. split; [exact Hs|].
  destruct (periodic_sync_runs_both_flushes Demo.env poisoned_store) as [_ H].
  destruct (H (emergency_key Demo.env) (scans_key Demo.env)
              (or_introl (conj eq_refl eq_refl)) (new_Response None []) He eq_refl)
    as (H1 & H2 & H3).
  split; [exact H1|]. split; [exact H2|].
  exact (H3 (new_Response (Some "[1,2]") []) Hs eq_refl).
Defined.

(** ** Messages *)

(** The message listener never fails and touches at most the
    emergency item.  Whatever the message, the listener completes, and
    every cache entry other than the one under [/emergency-data.json] is
    as before.  Only [CACHE_EMERGENCY_DATA] can change the storage; only
    [SKIP_WAITING] skips waiting; a message without data, or of another
    type, causes nothing but the log line.  When [JSON.stringify] throws
    on the payload nothing is stored and the error is left unhandled. *)
Theorem message_touches_only_the_emergency_item
    (env : Env) (data : option SW.Message) (cs : CacheStorage) :
  let M := SW.onMessage env data cs in
  outcome M = Fulfilled tt ∧
  (∀ name u, u ≠ emergency_key env → entry (storage M) name u = entry cs name u) ∧
  (SkipWaiting ∈ events M ↔ ∃ d, data = Some d ∧ SW.msg_type d = "SKIP_WAITING") ∧
  (storage M ≠ cs → ∃ d, data = Some d ∧ SW.msg_type d = "CACHE_EMERGENCY_DATA") ∧
  ((∀ d, data = Some d → SW.msg_type d ≠ "CACHE_EMERGENCY_DATA" ∧
                         SW.msg_type d ≠ "SKIP_WAITING") →
   M = (Fulfilled tt, cs, [Console "log" "[SW] Message received:"])) ∧
  (∀ d e, data = Some d → SW.msg_type d = "CACHE_EMERGENCY_DATA" →
          SW.msg_payload d = inl e →
          same_entries cs (storage M) ∧ UnhandledRejection e ∈ events M).
Proof.
  intros M. subst M. unfold SW.onMessage. run.
  destruct data as [d|].
  - destruct (decide (SW.msg_type d = "CACHE_EMERGENCY_DATA")) as [Hc|Hc].
    + destruct (SW.msg_payload d) as [e|text] eqn:Hpay.
      * unfold outcome, storage, events; simpl.
        split; [reflexivity|]. split; [intros; apply entry_open_cache|].
        split; [|split; [|split]].
        -- split; [listed|]. intros (d' & [= <-] & Hd'). rewrite Hc in Hd'. discriminate.
        -- intros _. eauto.
        -- intros H. destruct (H d eq_refl) as [H' _]. contradiction.
        -- intros d' e' [= <-] _ Hp. rewrite Hpay in Hp. injection Hp as <-.
           split; [apply same_entries_open | listed].
      * unfold request_of_url; simpl. rewrite storable_new_Response.
        unfold outcome, storage, events; simpl.
        split; [reflexivity|]. split; [|split; [|split; [|split]]].
        -- intros name u Hu. rewrite entry_update_insert.
           rewrite decide_False by (intros [_ ?]; by apply Hu).
           apply entry_open_cache.
        -- split; [listed|]. intros (d' & [= <-] & Hd'). rewrite Hc in Hd'. discriminate.
        -- intros _. eauto.
        -- intros H. destruct (H d eq_refl) as [H' _]. contradiction.
        -- intros d' e' [= <-] _ Hp. rewrite Hpay in Hp. discriminate.
    + destruct (decide (SW.msg_type d = "SKIP_WAITING")) as [Hs|Hs];
        unfold outcome, storage, events; simpl.
      * split; [reflexivity|]. split; [reflexivity|]. split; [|split; [|split]].
        -- split; [eauto | listed].
        -- intros H. contradiction.
        -- intros H. destruct (H d eq_refl) as [_ H']. contradiction.
        -- intros d' e' [= <-] Hc'. contradiction.
      * split; [reflexivity|]. split; [reflexivity|]. split; [|split; [|split]].
        -- split; [listed|]. intros (d' & [= <-] & Hd'). contradiction.
        -- intros H. contradiction.
        -- reflexivity.
        -- intros d' e' [= <-] Hc'. contradiction.
  - unfold outcome, storage, events; simpl.
    split; [reflexivity|]. split; [reflexivity|]. split; [|split; [|split]].
    + split; [listed|]. intros (d' & Hd' & _). discriminate.
    + intros H. contradiction.
    + reflexivity.
    + intros d' e' Hd'. discriminate.
Qed.

(** * Cache first means cached for good *)

Lemma match_all_update_other n k v u cs :
  k ≠ u → match_all u (update_cache n (λ c, <[k := v]> c) cs) = match_all u cs.
Proof.
  intros Hk. induction cs as [|[m c] t IH]; [reflexivity|]. simpl.
  destruct (decide (m = n)); simpl.
  - by rewrite lookup_insert_ne.
  - by rewrite IH.
Qed.

Lemma respond_storage env req cs p :
  p = SW.respond env req ∨ p = Legacy.respond env req →
  ∃ cur,
    storage (p cs) = cs ∨ storage (p cs) = open_cache cur cs ∨
    (lookup_all req cs = None ∧ method req = "GET" ∧
     ∃ resp, network env req = inr resp ∧
             storage (p cs) =
               update_cache cur (λ c, <[url req := resp]> c) (open_cache cur cs)).
Proof.
  intros [-> | ->]; [exists SW.CACHE_NAME | exists Legacy.CACHE_NAME].
  - destruct (lookup_all req cs) as [r|] eqn:Hl.
    { left. by rewrite (SW_respond_hit env req cs r Hl). }
    destruct (network env req) as [e|resp] eqn:Hn.
    { left. destruct (SW.accepts_html req) eqn:Ha.
      - by rewrite (SW_respond_fail_html env req cs Hl e Hn Ha).
      - by rewrite (SW_respond_fail_other env req cs Hl e Hn Ha). }
    destruct (decide (status resp = 200%Z)) as [Hs|Hs];
      [destruct (decide (type resp = "basic")) as [Ht|Ht]|].
    + right. rewrite (SW_respond_cacheable env req cs Hl resp Hn Hs Ht).
      unfold storage; simpl.
      destruct (decide (method req = "GET")); [|by left].
      destruct (storable resp); [right|by left].
      split; [reflexivity|]. split; [assumption|]. by exists resp.
    + left. by rewrite (SW_respond_uncacheable env req cs Hl resp Hn (or_intror Ht)).
    + left. by rewrite (SW_respond_uncacheable env req cs Hl resp Hn (or_introl Hs)).
  - destruct (lookup_all req cs) as [r|] eqn:Hl.
    { left. by rewrite (Legacy_respond_hit env req cs r Hl). }
    destruct (network env req) as [e|resp] eqn:Hn.
    { left. by rewrite (Legacy_respond_fail env req cs Hl e Hn). }
    destruct (decide (status resp = 200%Z)) as [Hs|Hs];
      [destruct (decide (type resp = "basic")) as [Ht|Ht]|].
    + right. rewrite (Legacy_respond_cacheable env req cs Hl resp Hn Hs Ht).
      unfold storage; simpl.
      destruct (decide (method req = "GET")); [|by left].
      destruct (storable resp); [right|by left].
      split; [reflexivity|]. split; [assumption|]. by exists resp.
    + left. by rewrite (Legacy_respond_uncacheable env req cs Hl resp Hn (or_intror Ht)).
    + left. by rewrite (Legacy_respond_uncacheable env req cs Hl resp Hn (or_introl Hs)).
Qed.

Lemma respond_keeps_match env req cs p u r :
  p = SW.respond env req ∨ p = Legacy.respond env req →
  match_all u cs = Some r → match_all u (storage (p cs)) = Some r.
Proof.
  intros Hp Hu. destruct (respond_storage env req cs p Hp)
    as (cur & [->|[->|(Hl & Hget & resp & _ & ->)]]).
  - exact Hu.
  - by rewrite match_all_open_cache.
  - rewrite match_all_update_other, match_all_open_cache; [exact Hu|].
    intros Heq. unfold lookup_all in Hl. rewrite decide_True in Hl by exact Hget.
    rewrite Heq in Hl. congruence.
Qed.

Lemma SW_fetch_keeps_match env req cs u r :
  match_all u cs = Some r → match_all u (SW_dispatch env cs (FetchEvent req)) = Some r.
Proof.
  intros Hu. simpl. destruct (SW.onFetch env req) as [p|] eqn:Hp; [|exact Hu].
  apply SW_onFetch_Some in Hp as ->.
  apply (respond_keeps_match env req); [by left | exact Hu].
Qed.

Lemma Legacy_fetch_keeps_match env req cs u r :
  match_all u cs = Some r → match_all u (Legacy_dispatch env cs (LegacyFetch req)) = Some r.
Proof.
  intros Hu. simpl. destruct (Legacy.onFetch env req) as [p|] eqn:Hp; [|exact Hu].
  apply Legacy_onFetch_Some in Hp as ->.
  apply (respond_keeps_match env req); [by right | exact Hu].
Qed.

(** A cached response is never refreshed by requests.  Whatever
    requests either worker handles afterwards, and whatever the network
    answers at each of them (every request comes with the host of its
    time), a GET request that had a cached response keeps being answered
    with that same response, without a network request. *)
Theorem cached_response_is_never_refreshed
    (later : list (Env * Request)) (env : Env) (req : Request)
    (cs : CacheStorage) (r : Response) :
  lookup_all req cs = Some r →
  let after_SW := foldl (λ s er, SW_dispatch er.1 s (FetchEvent er.2)) cs later in
  let after_Legacy :=
    foldl (λ s er, Legacy_dispatch er.1 s (LegacyFetch er.2)) cs later in
  lookup_all req after_SW = Some r ∧
  lookup_all req after_Legacy = Some r ∧
  SW.respond env req after_SW =
    (Fulfilled (Some r), after_SW, [Console "log" "[SW] Serving from cache:"]) ∧
  Legacy.respond env req after_Legacy =
    (Fulfilled (Some r), after_Legacy, [Console "log" "[SW] Serving from cache:"]).
Proof.
  intros Hl after_SW after_Legacy.
  assert (Hget : method req = "GET").
  { unfold lookup_all in Hl. destruct (decide (method req = "GET")); [done|discriminate]. }
  assert (Hm : match_all (url req) cs = Some r).
  { unfold lookup_all in Hl. by rewrite decide_True in Hl by exact Hget. }
  assert (HSW : lookup_all req after_SW = Some r).
  { unfold lookup_all. rewrite decide_True by exact Hget. subst after_SW.
    clear Hl after_Legacy. revert cs Hm.
    induction later as [|[e q] t IH]; intros cs Hm; [exact Hm|].
    simpl. apply IH. by apply SW_fetch_keeps_match. }
  assert (HL : lookup_all req after_Legacy = Some r).
  { unfold lookup_all. rewrite decide_True by exact Hget. subst after_Legacy.
    clear Hl HSW after_SW. revert cs Hm.
    induction later as [|[e q] t IH]; intros cs Hm; [exact Hm|].
    simpl. apply IH. by apply Legacy_fetch_keeps_match. }
  split; [exact HSW|]. split; [exact HL|]. split.
  - by apply SW_respond_hit.
  - by apply Legacy_respond_hit.
Qed.

Lemma cached_response_is_never_refreshed_witness :
  let stale := Demo.page "text/html" "<html>" in
  let fresh_env :=
    {| origin := Demo.app;
       network := λ _, inr (Demo.page "text/html" "<html>v2");
       json_parses := Demo.parses_json |} in
  lookup_all Demo.html_request (Demo.shell_store SW.CACHE_NAME) = Some stale ∧
  network fresh_env Demo.html_request = inr (Demo.page "text/html" "<html>v2") ∧
  outcome (SW.respond fresh_env Demo.html_request
             (foldl (λ s er, SW_dispatch er.1 s (FetchEvent er.2))
                (Demo.shell_store SW.CACHE_NAME)
                [(fresh_env, Demo.api_request); (fresh_env, Demo.html_request)]))
    = Fulfilled (Some stale).
Proof.
  intros stale fresh_env.
  assert (Hl : lookup_all Demo.html_request (Demo.shell_store SW.CACHE_NAME) = Some stale)
    by (vm_compute; reflexivity).
  split; [exact Hl|]. split; [reflexivity|].
  destruct (cached_response_is_never_refreshed
              [(fresh_env, Demo.api_request); (fresh_env, Demo.html_request)]
              fresh_env Demo.html_request (Demo.shell_store SW.CACHE_NAME) stale Hl)
    as (_ & _ & H & _).
  exact (f_equal outcome H).
Defined.

(** * Which requests are intercepted *)

Lemma prefix_trans (a b c : string) :
  String.prefix a b = true → String.prefix b c = true → String.prefix a c = true.
Proof.
  revert b c. induction a as [|x a IH]; intros b c; [by destruct c|].
  destruct b as [|y b]; [discriminate|]. destruct c as [|z c]; [discriminate|].
  simpl. destruct (Ascii.ascii_dec x y) as [->|]; [|discriminate].
  destruct (Ascii.ascii_dec y z) as [->|]; [|discriminate].
  apply IH.
Qed.

(** The two interceptors intercept the same requests on an http(s)
    origin.  Every request that [src/sw.js] intercepts is intercepted by
    [src/unnamed/part_000]; when the worker's origin starts with [http],
    the converse holds as well, the scheme test of [src/sw.js] rejects
    nothing that its origin test accepts, and a request is intercepted
    exactly when its URL starts with the origin. *)
Theorem scheme_test_is_implied_by_origin_test (env : Env) (req : Request) :
  (is_Some (SW.onFetch env req) → is_Some (Legacy.onFetch env req)) ∧
  (is_Some (Legacy.onFetch env req) ↔ startsWith (url req) (origin env) = true) ∧
  (startsWith (origin env) "http" = true →
   (is_Some (SW.onFetch env req) ↔ startsWith (url req) (origin env) = true) ∧
   (startsWith (url req) (origin env) = true → startsWith (url req) "http" = true)).
Proof.
  unfold SW.onFetch, Legacy.onFetch, startsWith.
  split; [|split].
  - destruct (String.prefix "http" (url req)); simpl; [|by intros [? ?]].
    destruct (String.prefix (origin env) (url req)); simpl; [eauto | by intros [? ?]].
  - destruct (String.prefix (origin env) (url req)); simpl.
    + split; eauto.
    + split; [by intros [? ?] | discriminate].
  - intros Ho.
    assert (Himp : String.prefix (origin env) (url req) = true →
                   String.prefix "http" (url req) = true)
      by (intros H; exact (prefix_trans _ _ _ Ho H)).
    split; [|exact Himp].
    destruct (String.prefix (origin env) (url req)) eqn:Hu.
    + rewrite (Himp eq_refl). simpl. split; eauto.
    + destruct (String.prefix "http" (url req)); simpl;
        (split; [by intros [? ?] | discriminate]).
Qed.

Lemma scheme_test_is_implied_by_origin_test_witness :
  startsWith (origin Demo.env) "http" = true ∧
  startsWith (url Demo.api_request) (origin Demo.env) = true ∧
  is_Some (SW.onFetch Demo.env Demo.api_request) ∧
  is_Some (Legacy.onFetch Demo.env Demo.api_request).
Proof.
  destruct (scheme_test_is_implied_by_origin_test Demo.env Demo.api_request)
    as (Hsub & _ & H).
  destruct (H eq_refl) as [Hiff _].
  split; [reflexivity|]. split; [reflexivity|].
  assert (Hs : is_Some (SW.onFetch Demo.env Demo.api_request))
    by (apply Hiff; reflexivity).
  split; [exact Hs | exact (Hsub Hs)].
Defined.

(** * The version set of [src/unnamed/part_000], and the upgrade *)

Section LegacyListeners.
Variables (P : list string → Prop).
Hypothesis P_open : ∀ l, P l → P (open_names Legacy.CACHE_NAME l).
Hypothesis P_delete :
  ∀ n l, n ≠ Legacy.CACHE_NAME → P l → P (filter (λ x, x ≠ n) l).

Lemma Legacy_open_preserves : preserves P (caches_open Legacy.CACHE_NAME).
Proof. by apply preserves_caches_open. Qed.

Lemma Legacy_delete_preserves n :
  n ≠ Legacy.CACHE_NAME → preserves P (caches_delete n).
Proof. by apply (preserves_caches_delete P Legacy.CACHE_NAME). Qed.

Lemma preserves_fetch_ok env req : preserves P (fetch_ok env req).
Proof. unfold fetch_ok. preserving. Qed.

Lemma preserves_put_all h items : preserves P (put_all h items).
Proof.
  induction items as [|[q r] t IH]; simpl; [apply preserves_resolved|].
  apply preserves_bind; [apply preserves_cache_put | intros _; exact IH].
Qed.

Lemma preserves_cache_addAll env h us : preserves P (cache_addAll env h us).
Proof.
  unfold cache_addAll. apply preserves_bind.
  - apply preserves_promise_all_map. intros u. apply preserves_fetch_ok.
  - intros rs. destruct (bool_decide (NoDup (map (resolve env) us)));
      [apply preserves_put_all | apply preserves_throw].
Qed.

Hint Resolve Legacy_open_preserves Legacy_delete_preserves preserves_cache_addAll
  : preserve.

Lemma Legacy_install_preserves env urls : preserves P (Legacy.install env urls).
Proof. unfold Legacy.install. preserving. Qed.

Lemma Legacy_onActivate_preserves : preserves P Legacy.onActivate.
Proof. unfold Legacy.onActivate, Legacy.delete_if_old. preserving. Qed.

Lemma Legacy_respond_preserves env req : preserves P (Legacy.respond env req).
Proof.
  unfold Legacy.respond, Legacy.store_response, Legacy.offline_fallback. preserving.
Qed.

Lemma Legacy_onSync_preserves env tag : preserves P (Legacy.onSync env tag).
Proof. unfold Legacy.onSync, Legacy.syncQueuedData. preserving. Qed.

Lemma Legacy_dispatch_preserves env cs d :
  P (names cs) → P (names (Legacy_dispatch env cs d)).
Proof.
  intros HP. destruct d as [| |req|tag]; simpl.
  - exact (Legacy_install_preserves env Legacy.urlsToCache cs HP).
  - by apply Legacy_onActivate_preserves.
  - destruct (Legacy.onFetch env req) as [p|] eqn:E; [|exact HP].
    rewrite (Legacy_onFetch_Some env req p E). by apply Legacy_respond_preserves.
  - by apply Legacy_onSync_preserves.
Qed.

Lemma Legacy_run_preserves env ds :
  ∀ cs, P (names cs) → P (names (Legacy_run env ds cs)).
Proof.
  unfold Legacy_run. induction ds as [|d t IH]; intros cs HP; [exact HP|].
  simpl. apply IH. by apply Legacy_dispatch_preserves.
Qed.
End LegacyListeners.

Lemma Legacy_run_well_formed env ds cs :
  well_formed cs → well_formed (Legacy_run env ds cs).
Proof.
  apply (Legacy_run_preserves (λ l, NoDup l)).
  - intros l. apply NoDup_open_names.
  - intros n l _. apply NoDup_filter.
Qed.

Lemma Legacy_run_keeps_current env ds cs :
  Legacy.CACHE_NAME ∈ names cs → Legacy.CACHE_NAME ∈ names (Legacy_run env ds cs).
Proof.
  apply (Legacy_run_preserves (λ l, Legacy.CACHE_NAME ∈ l)).
  - intros l. apply elem_of_open_names.
  - intros n l Hn Hin. apply list_elem_of_filter. split; [congruence | exact Hin].
Qed.

Lemma SW_names_after_lifecycle env before after cs :
  well_formed cs →
  names (SW_run env (InstallEvent :: before ++ ActivateEvent :: after) cs)
    = [SW.CACHE_NAME].
Proof.
  intros Hnd. unfold SW_run. simpl. rewrite foldl_app. simpl.
  fold (SW_run env before (storage (SW.onInstall env cs))).
  set (cs1 := SW_run env before (storage (SW.onInstall env cs))).
  fold (SW_run env after (storage (SW.onActivate cs1))).
  apply (SW_run_preserves (λ l, l = [SW.CACHE_NAME])).
  - intros l. apply only_current_open.
  - intros n l. apply only_current_delete.
  - destruct (SW_onActivate_run cs1) as [ev ->]. unfold storage; simpl.
    apply swept_exactly_current.
    + apply SW_run_well_formed.
      unfold well_formed, SW.onInstall. rewrite SW_install_names.
      by apply well_formed_open.
    + apply SW_run_keeps_current.
      unfold SW.onInstall. rewrite SW_install_names. apply names_open_cache.
Qed.

Lemma Legacy_names_after_lifecycle env before after cs :
  well_formed cs →
  names (Legacy_run env (LegacyInstall :: before ++ LegacyActivate :: after) cs)
    = [Legacy.CACHE_NAME].
Proof.
  intros Hnd. unfold Legacy_run. simpl. rewrite foldl_app. simpl.
  fold (Legacy_run env before (storage (Legacy.onInstall env cs))).
  set (cs1 := Legacy_run env before (storage (Legacy.onInstall env cs))).
  fold (Legacy_run env after (storage (Legacy.onActivate cs1))).
  apply (Legacy_run_preserves (λ l, l = [Legacy.CACHE_NAME])).
  - intros l. apply only_current_open.
  - intros n l. apply only_current_delete.
  - destruct (Legacy_onActivate_run cs1) as [ev ->]. unfold storage; simpl.
    apply swept_exactly_current.
    + apply Legacy_run_well_formed.
      unfold well_formed, Legacy.onInstall. rewrite Legacy_install_names.
      by apply well_formed_open.
    + apply Legacy_run_keeps_current.
      unfold Legacy.onInstall. rewrite Legacy_install_names. apply names_open_cache.
Qed.

(** The version set of [src/unnamed/part_000], and the upgrade to
    [src/sw.js].  The events of the old worker keep the cache names
    distinct and create no cache but its own; once it has been installed
    and activated its cache is the only one, whatever events come between
    and after, even when its installation fails.  Both workers share the
    cache storage of their origin: when the worker of [src/sw.js] is then
    installed and activated, its cache is the only one left, so that
    every entry of the old cache, a queued item included, is gone without
    having been flushed. *)
Theorem Legacy_version_set_and_upgrade
    (env : Env) (ds before after : list LegacyDispatch)
    (sw_before sw_after : list Dispatch) (cs : CacheStorage) :
  well_formed cs →
  well_formed (Legacy_run env ds cs) ∧
  (∀ n, n ∈ names (Legacy_run env ds cs) → n ∈ names cs ∨ n = Legacy.CACHE_NAME) ∧
  names (Legacy_run env (LegacyInstall :: before ++ LegacyActivate :: after) cs)
    = [Legacy.CACHE_NAME] ∧
  (let upgraded :=
     SW_run env (InstallEvent :: sw_before ++ ActivateEvent :: sw_after)
       (Legacy_run env ds cs) in
   names upgraded = [SW.CACHE_NAME] ∧
   ∀ u, entry upgraded Legacy.CACHE_NAME u = None).
Proof.
  intros Hwf.
  assert (Hwf' : well_formed (Legacy_run env ds cs)) by by apply Legacy_run_well_formed.
  split; [exact Hwf'|]. split; [|split].
  - apply (Legacy_run_preserves
             (λ l, ∀ n, n ∈ l → n ∈ names cs ∨ n = Legacy.CACHE_NAME)).
    + intros l Hl n. unfold open_names.
      destruct (decide (Legacy.CACHE_NAME ∈ l)); [by apply Hl|].
      intros Hin. apply elem_of_app in Hin as [Hin|Hin]; [by apply Hl|].
      apply list_elem_of_singleton in Hin. by right.
    + intros m l _ Hl n Hin. apply list_elem_of_filter in Hin as [_ Hin]. by apply Hl.
    + intros n Hin. by left.
  - by apply Legacy_names_after_lifecycle.
  - intros upgraded.
    assert (Hn : names upgraded = [SW.CACHE_NAME])
      by by apply SW_names_after_lifecycle.
    split; [exact Hn|]. intros u. unfold entry.
    destruct (find_cache Legacy.CACHE_NAME upgraded) as [c|] eqn:Hf; [|reflexivity].
    assert (Hin : Legacy.CACHE_NAME ∈ names upgraded)
      by (apply find_cache_is_Some; by eexists).
    rewrite Hn in Hin. apply list_elem_of_singleton in Hin. discriminate.
Qed.

Lemma Legacy_version_set_and_upgrade_witness :
  let old := Legacy_run Demo.env [LegacyInstall; LegacyFetch Demo.queued_request] [] in
  entry old Legacy.CACHE_NAME (queued_key Demo.env)
    = Some (Demo.page "text/html" "<html>") ∧
  names (SW_run Demo.env (InstallEvent :: [] ++ ActivateEvent :: []) old)
    = [SW.CACHE_NAME] ∧
  entry (SW_run Demo.env (InstallEvent :: [] ++ ActivateEvent :: []) old)
        Legacy.CACHE_NAME (queued_key Demo.env) = None.
Proof.
  intros old. split; [vm_compute; reflexivity|].
  destruct (Legacy_version_set_and_upgrade Demo.env
              [LegacyInstall; LegacyFetch Demo.queued_request] [] [] [] [] []
              NoDup_nil_2) as (_ & _ & _ & Hn & He).
  split; [exact Hn | exact (He (queued_key Demo.env))].
Defined.

(** The [sync] listener of [src/unnamed/part_000] always fulfils.
    For every tag and storage the promise it hands to [waitUntil]
    fulfils, so the host never retries.  For a tag other than
    [background-sync] nothing happens at all; for [background-sync] a
    queued item that parses is removed, and without a queued item the
    listener only creates the current cache when it is missing. *)
Theorem Legacy_sync_always_fulfils (env : Env) (tag : string) (cs : CacheStorage) :
  outcome (Legacy.onSync env tag cs) = Fulfilled tt ∧
  (tag ≠ "background-sync" → Legacy.onSync env tag cs = (Fulfilled tt, cs, [])) ∧
  (tag = "background-sync" →
   (∀ r, entry cs Legacy.CACHE_NAME (queued_key env) = Some r →
         json_parses env (body r) = true →
         entry (storage (Legacy.onSync env tag cs)) Legacy.CACHE_NAME (queued_key env)
           = None ∧
         names (storage (Legacy.onSync env tag cs)) = names cs) ∧
   (entry cs Legacy.CACHE_NAME (queued_key env) = None →
    storage (Legacy.onSync env tag cs) = open_cache Legacy.CACHE_NAME cs)).
Proof.
  unfold Legacy.onSync. destruct (decide (tag = "background-sync")) as [->|Hn].
  - cbv [mbind Async_bind and_then console]. rewrite syncQueuedData_run.
    unfold queued_key.
    destruct (entry cs Legacy.CACHE_NAME (resolve env Legacy.QUEUED_DATA_URL))
      as [r|] eqn:He.
    + destruct (json_parses env (body r)) eqn:Hp; unfold outcome, storage; simpl.
      * split; [reflexivity|]. split; [done|]. intros _. split; [|discriminate].
        intros r' [= <-] _. rewrite entry_update_delete, decide_True by done.
        split; [reflexivity | apply names_update_cache].
      * split; [reflexivity|]. split; [done|]. intros _. split; [|discriminate].
        intros r' [= <-] Hp'. congruence.
    + unfold outcome, storage; simpl. split; [reflexivity|]. split; [done|].
      intros _. split; [discriminate | reflexivity].
  - split; [reflexivity|]. split; [reflexivity | contradiction].
Qed.

(** * What an activation reports *)

Lemma claims_app l1 l2 : claims (l1 ++ l2) = claims l1 + claims l2.
Proof. unfold claims. by rewrite omap_app, length_app. Qed.

Lemma deletions_logged_app l1 l2 :
  deletions_logged (l1 ++ l2) = deletions_logged l1 + deletions_logged l2.
Proof. unfold deletions_logged. by rewrite omap_app, length_app. Qed.

Lemma claims_cons e l : claims (e :: l) = claims [e] + claims l.
Proof. apply (claims_app [e] l). Qed.

Lemma deletions_logged_cons e l :
  deletions_logged (e :: l) = deletions_logged [e] + deletions_logged l.
Proof. apply (deletions_logged_app [e] l). Qed.

Lemma SW_sweep_reports l : ∀ cs,
  claims (events (promise_all (map SW.delete_if_old l) cs)) = 0 ∧
  deletions_logged (events (promise_all (map SW.delete_if_old l) cs))
    = length (filter (λ n, n ≠ SW.CACHE_NAME) l).
Proof.
  induction l as [|n t IH]; intros cs; [done|].
  simpl. unfold SW.delete_if_old at 1 3. rewrite filter_cons.
  destruct (decide (n ≠ SW.CACHE_NAME)); run; simpl.
  - specialize (IH (delete_cache n cs)).
    destruct (promise_all (map SW.delete_if_old t) (delete_cache n cs)) as [[o s] ev].
    unfold claims, deletions_logged, events in *; simpl in *.
    destruct IH as [IH1 IH2]. split; [exact IH1 | f_equal; exact IH2].
  - specialize (IH cs).
    destruct (promise_all (map SW.delete_if_old t) cs) as [[o s] ev].
    unfold claims, deletions_logged, events in *; simpl in *. exact IH.
Qed.

Lemma Legacy_sweep_reports l : ∀ cs,
  claims (events (promise_all (map Legacy.delete_if_old l) cs)) = 0 ∧
  deletions_logged (events (promise_all (map Legacy.delete_if_old l) cs))
    = length (filter (λ n, n ≠ Legacy.CACHE_NAME) l).
Proof.
  induction l as [|n t IH]; intros cs; [done|].
  simpl. unfold Legacy.delete_if_old at 1 3. rewrite filter_cons.
  destruct (decide (n ≠ Legacy.CACHE_NAME)); run; simpl.
  - specialize (IH (delete_cache n cs)).
    destruct (promise_all (map Legacy.delete_if_old t) (delete_cache n cs)) as [[o s] ev].
    unfold claims, deletions_logged, events in *; simpl in *.
    destruct IH as [IH1 IH2]. split; [exact IH1 | f_equal; exact IH2].
  - specialize (IH cs).
    destruct (promise_all (map Legacy.delete_if_old t) cs) as [[o s] ev].
    unfold claims, deletions_logged, events in *; simpl in *. exact IH.
Qed.

(** What an activation reports.  In both workers the activation
    cannot fail, claims the clients exactly once, requests nothing from
    the network, and logs one deletion for each cache whose name is not
    the current one: as many as the storage loses when its names are
    distinct. *)
Theorem activation_claims_clients_once
    (p : Async unit) (cur : string) (cs : CacheStorage) :
  (p = SW.onActivate ∧ cur = SW.CACHE_NAME) ∨
  (p = Legacy.onActivate ∧ cur = Legacy.CACHE_NAME) →
  outcome (p cs) = Fulfilled tt ∧
  claims (events (p cs)) = 1 ∧
  net_requests (events (p cs)) = [] ∧
  deletions_logged (events (p cs)) = length (filter (λ n, n ≠ cur) (names cs)) ∧
  (well_formed cs → cur ∈ names cs →
   length (names cs) = deletions_logged (events (p cs)) + length (names (storage (p cs)))).
Proof.
  intros Hp.
  assert (Hlen : ∀ (cur : string) (l : list string), NoDup l → cur ∈ l →
                 length l = length (filter (λ n, n ≠ cur) l) + 1).
  { intros c l Hnd Hin. induction Hnd as [|x l Hx Hnd IH]; [by apply elem_of_nil in Hin|].
    rewrite filter_cons. apply elem_of_cons in Hin as [<-|Hin].
    - rewrite decide_False by (intros H; by apply H).
      rewrite filter_all; [simpl; lia|]. intros y Hy ->. contradiction.
    - rewrite decide_True by (intros ->; contradiction). simpl. rewrite IH by done. lia. }
  assert (Hmain : outcome (p cs) = Fulfilled tt ∧ claims (events (p cs)) = 1 ∧
                  deletions_logged (events (p cs))
                    = length (filter (λ n, n ≠ cur) (names cs))).
  { destruct Hp as [[-> ->]|[-> ->]].
    - destruct (SW_sweep_run (names cs) cs) as [ev Hrun].
      pose proof (SW_sweep_reports (names cs) cs) as Hrep. rewrite Hrun in Hrep.
      unfold events in Hrep; simpl in Hrep. destruct Hrep as [Hc Hd].
      unfold SW.onActivate. run. simpl. rewrite Hrun. unfold outcome, events; simpl.
      split; [reflexivity|].
      rewrite claims_cons, deletions_logged_cons, !claims_app, !deletions_logged_app.
      rewrite Hc, Hd. split; [reflexivity|].
      set (k := length (filter _ (names cs))). unfold deletions_logged; simpl. lia.
    - destruct (Legacy_sweep_run (names cs) cs) as [ev Hrun].
      pose proof (Legacy_sweep_reports (names cs) cs) as Hrep. rewrite Hrun in Hrep.
      unfold events in Hrep; simpl in Hrep. destruct Hrep as [Hc Hd].
      unfold Legacy.onActivate. run. simpl. rewrite Hrun. unfold outcome, events; simpl.
      split; [reflexivity|].
      rewrite claims_cons, deletions_logged_cons, !claims_app, !deletions_logged_app.
      rewrite Hc, Hd. split; [reflexivity|].
      set (k := length (filter _ (names cs))). unfold deletions_logged; simpl. lia. }
  destruct Hmain as (Ho & Hc & Hd).
  split; [exact Ho|]. split; [exact Hc|]. split; [|split; [exact Hd|]].
  - destruct Hp as [[-> _]|[-> _]];
      [apply SW_onActivate_silent | apply Legacy_onActivate_silent].
  - intros Hwf Hin. rewrite Hd.
    assert (Hn : names (storage (p cs)) = [cur]).
    { destruct Hp as [[-> ->]|[-> ->]].
      - destruct (SW_onActivate_run cs) as [ev ->]. by apply swept_exactly_current.
      - destruct (Legacy_onActivate_run cs) as [ev ->]. by apply swept_exactly_current. }
    rewrite Hn. simpl. by apply Hlen.
Qed.

Lemma activation_claims_clients_once_witness :
  outcome (SW.onActivate Demo.versions_store) = Fulfilled tt ∧
  claims (events (SW.onActivate Demo.versions_store)) = 1 ∧
  deletions_logged (events (SW.onActivate Demo.versions_store)) = 2.
Proof.
  destruct (activation_claims_clients_once SW.onActivate SW.CACHE_NAME
              Demo.versions_store (or_introl (conj eq_refl eq_refl)))
    as (Ho & Hc & _ & Hd & _).
  split; [exact Ho|]. split; [exact Hc|]. rewrite Hd. vm_compute. reflexivity.
Defined.

(** ** The statements without a premise, at concrete inputs *)

Lemma install_requests_exactly_the_assets_witness :
  net_requests (events (Legacy.onInstall Demo.one_down_env []))
    = map (request_of_url Demo.one_down_env) Legacy.urlsToCache ∧
  net_requests (events (SW.onInstall Demo.offline_env []))
    = map (request_of_url Demo.offline_env) SW.STATIC_CACHE_URLS.
Proof.
  split.
  - exact (proj1 (proj2 (install_requests_exactly_the_assets
                           Demo.one_down_env Legacy.urlsToCache []))).
  - exact (proj1 (install_requests_exactly_the_assets
                    Demo.offline_env SW.STATIC_CACHE_URLS [])).
Defined.

Lemma message_touches_only_the_emergency_item_witness :
  let skip := {| SW.msg_type := "SKIP_WAITING"; SW.msg_payload := inr None |} in
  SkipWaiting ∈ events (SW.onMessage Demo.env (Some skip) Demo.pending_store) ∧
  entry (storage (SW.onMessage Demo.env (Some (cache_emergency_data (Some "{}")))
                    Demo.pending_store))
        SW.CACHE_NAME (scans_key Demo.env)
    = entry Demo.pending_store SW.CACHE_NAME (scans_key Demo.env).
Proof.
  intros skip. split.
  - destruct (message_touches_only_the_emergency_item Demo.env (Some skip)
                Demo.pending_store) as (_ & _ & Hskip & _).
    apply Hskip. by exists skip.
  - destruct (message_touches_only_the_emergency_item Demo.env
                (Some (cache_emergency_data (Some "{}"))) Demo.pending_store)
      as (_ & Hframe & _).
    apply Hframe. intros H. symmetry in H. by apply reserved_keys_differ in H.
Defined.

Lemma Legacy_sync_always_fulfils_witness :
  Legacy.onSync Demo.env "emergency-data-sync" Demo.pending_store
    = (Fulfilled tt, Demo.pending_store, []) ∧
  outcome (Legacy.onSync Demo.env "background-sync" Demo.pending_store) = Fulfilled tt.
Proof.
  split.
  - destruct (Legacy_sync_always_fulfils Demo.env "emergency-data-sync"
                Demo.pending_store) as (_ & H & _).
    apply H. discriminate.
  - exact (proj1 (Legacy_sync_always_fulfils Demo.env "background-sync"
                    Demo.pending_store)).
Defined.

(** * The offline page of a failed page request *)








